(** * eth-tools: RPC discovery and liveness probing ([src/lib/rpc-utils.ts])

    A shallow embedding of [fetchChainData], [fetchRpcData] and
    [findWorkingRpc] together with the parts of the JavaScript platform
    they rest on (strings of UTF-16 code units, backtracking regular
    expressions, [JSON.parse], ordinary objects with their property order,
    promises and the console), followed by the properties proved of them. *)

From Stdlib Require Import List NArith ZArith String Ascii Bool Arith Lia.
From Stdlib Require Import DecimalString Permutation.
Import ListNotations.

Set Implicit Arguments.

(* ===================================================================== *)
(** * Part I.  Definitions                                                *)
(* ===================================================================== *)

(** ** JavaScript strings

    A JavaScript string is a sequence of UTF-16 code units.  Literals of
    the source are written [js "..."]; they are all ASCII. *)

Definition char := N.
Definition jsstring := list char.

Definition js (s : string) : jsstring :=
  map N_of_ascii (list_ascii_of_string s).

Definition chr (s : string) : char :=
  match js s with c :: _ => c | [] => 0%N end.

Fixpoint str_eqb (a b : jsstring) : bool :=
  match a, b with
  | [], [] => true
  | x :: a', y :: b' => N.eqb x y && str_eqb a' b'
  | _, _ => false
  end.

(** [a.startsWith(p)] read on [a]: the rest of [a] after the prefix [p]. *)
Fixpoint strip_prefix (p s : jsstring) : option jsstring :=
  match p, s with
  | [], _ => Some s
  | x :: p', y :: s' => if N.eqb x y then strip_prefix p' s' else None
  | _ :: _, [] => None
  end.

Definition startsWith (s p : jsstring) : bool :=
  match strip_prefix p s with Some _ => true | None => false end.

(** [s.includes(p)] *)
Fixpoint includes (s p : jsstring) : bool :=
  startsWith s p ||
  match s with
  | [] => false
  | _ :: s' => includes s' p
  end.

(** ** Errors, console and completions *)

Inductive JsError : Type :=
| Error (message : jsstring)
| TypeError (message : jsstring)
| SyntaxError (message : jsstring)
| AbortError.

Inductive LogLevel : Type := Warn | Err.

Record LogEntry : Type := mkLog {
  level : LogLevel;
  message : jsstring;
  detail : option JsError
}.

(** How an [async] function ends. *)
Inductive Outcome (A : Type) : Type :=
| Fulfilled (value : A)
| Rejected (reason : JsError).

Arguments Fulfilled {A} value.
Arguments Rejected {A} reason.

(** A computation: what it wrote to the console, and how it ended. *)
Record M (A : Type) : Type := mkM {
  console : list LogEntry;
  outcome : Outcome A
}.

Definition ret {A} (a : A) : M A := mkM [] (Fulfilled a).
Definition throw {A} (e : JsError) : M A := mkM [] (Rejected e).

Definition bind {A B} (m : M A) (k : A -> M B) : M B :=
  match outcome m with
  | Fulfilled a => mkM (console m ++ console (k a)) (outcome (k a))
  | Rejected e => mkM (console m) (Rejected e)
  end.

(** [try { body } catch (e) { handler e }] *)
Definition try_catch {A} (body : M A) (handler : JsError -> M A) : M A :=
  match outcome body with
  | Rejected e => mkM (console body ++ console (handler e)) (outcome (handler e))
  | _ => body
  end.

Definition console_warn (msg : jsstring) (d : option JsError) : M unit :=
  mkM [mkLog Warn msg d] (Fulfilled tt).

Definition console_error (msg : jsstring) (d : option JsError) : M unit :=
  mkM [mkLog Err msg d] (Fulfilled tt).

Declare Scope js_scope.
Delimit Scope js_scope with js.
Notation "x <- m ;; k" := (bind m (fun x => k))
  (at level 61, m at next level, right associativity) : js_scope.
Notation "m ;;; k" := (bind m (fun _ => k))
  (at level 61, right associativity) : js_scope.
Open Scope js_scope.

(** ** The liveness prober: [findWorkingRpc] *)

Module Probe.

(** What the network does with one probe request, as seen by the page.
    [Responds] and [NetworkFails] happen before the abort timer of the
    probe fires; [NoAnswer] is the timer firing first ([controller.abort()]
    after 3000 ms rejects the pending [fetch]). *)
Inductive Net : Type :=
| Responds (at_ms : nat) (status : nat)
| NetworkFails (at_ms : nat)
| NoAnswer.

Definition timeout_ms : nat := 3000.

(** The instant at which the probe's promise settles. *)
Definition settles_at (b : Net) : nat :=
  match b with
  | Responds t _ => t
  | NetworkFails t => t
  | NoAnswer => timeout_ms
  end.

Record Response : Type := { status : nat }.

(** [response.ok]: the status is in the range 200-299. *)
Definition ok (r : Response) : bool :=
  (200 <=? status r) && (status r <=? 299).

Definition fetch (b : Net) : M Response :=
  match b with
  | Responds _ st => ret {| status := st |}
  | NetworkFails _ => throw (TypeError (js "Failed to fetch"))
  | NoAnswer => throw AbortError
  end.

(** The body of the callback given to [rpcs.map]. *)
Definition probe (b : Net) (rpc : jsstring) : M jsstring :=
  try_catch
    (response <- fetch b ;;
     if negb (ok response) then throw (Error (js "RPC request failed"))
     else ret rpc)
    (fun error =>
       console_warn (js "RPC " ++ rpc ++ js " failed:") (Some error) ;;;
       throw (Error (js "RPC " ++ rpc ++ js " failed"))).

(** One element of the array [Promise.allSettled] resolves to. *)
Inductive Settled : Type :=
| fulfilled (value : jsstring)
| rejected (reason : JsError).

Definition settle (m : M jsstring) : Settled :=
  match outcome m with
  | Fulfilled v => fulfilled v
  | Rejected e => rejected e
  end.

(** A started probe: when it settles and what it did. *)
Record Started : Type := mkStarted {
  when : nat;
  run : M jsstring
}.

Fixpoint mapi_from {A B} (i : nat) (f : nat -> A -> B) (l : list A) : list B :=
  match l with
  | [] => []
  | a :: l' => f i a :: mapi_from (S i) f l'
  end.

(** [rpcs.map(async (rpc) => ...)]: every probe is started, the i-th one
    meeting the behaviour [net i rpc]. *)
Definition start_all (net : nat -> jsstring -> Net) (rpcs : list jsstring)
  : list Started :=
  mapi_from 0 (fun i rpc => mkStarted (settles_at (net i rpc)) (probe (net i rpc) rpc)) rpcs.

(** Console lines of concurrent probes appear in the order in which the
    probes settle (input order among probes settling together). *)
Fixpoint insert_by_time (p : Started) (l : list Started) : list Started :=
  match l with
  | [] => [p]
  | q :: l' => if when p <=? when q then p :: l else q :: insert_by_time p l'
  end.

Definition by_time (l : list Started) : list Started :=
  fold_right insert_by_time [] l.

(** [await Promise.allSettled(ps)]: resumes once every promise has
    settled, with the results in the order of [ps]. *)
Record AllSettled : Type := mkAll {
  resumed_at : nat;
  written : list LogEntry;
  testResults : list Settled
}.

Definition allSettled (ps : list Started) : AllSettled :=
  mkAll (fold_right Nat.max 0 (map when ps))
        (flat_map (fun p => console (run p)) (by_time ps))
        (map (fun p => settle (run p)) ps).

(** [for (const result of testResults) if (result.status === 'fulfilled')
    return result.value] *)
Fixpoint first_fulfilled (rs : list Settled) : option jsstring :=
  match rs with
  | [] => None
  | fulfilled v :: _ => Some v
  | rejected _ :: rs' => first_fulfilled rs'
  end.

(** The result of a call of [findWorkingRpc]: the instant at which the
    returned promise settles, and the computation. *)
Record Call : Type := mkCall {
  settled_at : nat;
  result : M jsstring
}.

Definition findWorkingRpc (net : nat -> jsstring -> Net) (rpcs : list jsstring)
  : Call :=
  match rpcs with
  | [] => mkCall 0 (throw (Error (js "No RPCs provided")))
  | rpcs_0 :: _ =>
      let all := allSettled (start_all net rpcs) in
      mkCall (resumed_at all)
        (mkM (written all) (Fulfilled tt) ;;;
         match first_fulfilled (testResults all) with
         | Some value => ret value
         | None =>
             console_warn (js "All RPCs failed, using fallback") None ;;;
             ret rpcs_0
         end)
  end.

(** The settled results of the probes of [rpcs], numbered from [i0]. *)
Definition results_from (net : nat -> jsstring -> Net) (i0 : nat) (rpcs : list jsstring)
  : list Settled :=
  map (fun p => settle (run p))
    (mapi_from i0 (fun i rpc => mkStarted (settles_at (net i rpc)) (probe (net i rpc) rpc))
       rpcs).


(** The example of the specification: three candidates, the second
    answers 200 after 120 ms, the other two never answer. *)
Definition u123 : list jsstring := [js "u1"; js "u2"; js "u3"].

Definition only_u2_answers (i : nat) (rpc : jsstring) : Net :=
  if str_eqb rpc (js "u2") then Responds 120 200 else NoAnswer.

(** Two candidates, none reachable: a refused connection and a 503. *)
Definition u12 : list jsstring := [js "u1"; js "u2"].

Definition nobody_answers (i : nat) (rpc : jsstring) : Net :=
  if str_eqb rpc (js "u1") then NetworkFails 40 else Responds 75 503.


End Probe.

(** ** Regular expressions

    The matcher follows the continuation-passing semantics of the
    ECMAScript specification: [m r k s c] matches [r] at the front of
    the remaining input [s] and hands the rest to the continuation [k];
    alternatives are tried in priority order and the first success wins
    (backtracking).  The constructs are those the source uses.  No
    capture group of the source sits under a star, so clearing captures
    between iterations is not represented. *)

Module RegExp.

Inductive regex : Type :=
| Chr (p : char -> bool)        (* one code unit of a class *)
| Eps
| Seq (r1 r2 : regex)
| Alt (r1 r2 : regex)           (* r1 first, then r2 *)
| Star (r : regex)              (* greedy repetition *)
| Group (n : nat) (r : regex)   (* capture group number n *)
| EndOfLine.                    (* [$] under the [m] flag *)

Definition caps := list (nat * jsstring).

Definition set_cap (n : nat) (v : jsstring) (c : caps) : caps := (n, v) :: c.

Fixpoint cap (n : nat) (c : caps) : jsstring :=
  match c with
  | [] => []
  | (i, v) :: c' => if Nat.eqb i n then v else cap n c'
  end.

Definition is_line_terminator (x : char) : bool :=
  (N.eqb x 10 || N.eqb x 13 || N.eqb x 8232 || N.eqb x 8233)%N.

(** [\s]: WhiteSpace and LineTerminator code points. *)
Definition is_space (x : char) : bool :=
  ((9 <=? x) && (x <=? 13) || N.eqb x 32 || N.eqb x 160 || N.eqb x 5760
   || (8192 <=? x) && (x <=? 8202) || N.eqb x 8232 || N.eqb x 8233
   || N.eqb x 8239 || N.eqb x 8287 || N.eqb x 12288 || N.eqb x 65279)%N.

(** [.] without the [s] flag *)
Definition dot (x : char) : bool := negb (is_line_terminator x).

(** [[a-zA-Z0-9_]] *)
Definition is_word (x : char) : bool :=
  ((97 <=? x) && (x <=? 122) || (65 <=? x) && (x <=? 90)
   || (48 <=? x) && (x <=? 57) || N.eqb x 95)%N.

Definition only (x : char) : char -> bool := N.eqb x.
Definition except (x : char) : char -> bool := fun y => negb (N.eqb x y).

Definition squote : char := 39%N.
Definition dquote : char := 34%N.

(** The class of the two quote characters (single and double), and its
    complement. *)
Definition is_quote (x : char) : bool := N.eqb x squote || N.eqb x dquote.
Definition not_quote (x : char) : bool := negb (is_quote x).

Fixpoint Lit (s : jsstring) : regex :=
  match s with
  | [] => Eps
  | x :: s' => Seq (Chr (only x)) (Lit s')
  end.

Definition Plus (r : regex) : regex := Seq r (Star r).
Definition Opt (r : regex) : regex := Alt r Eps.

Definition result := option (jsstring * caps).
Definition cont := jsstring -> caps -> result.

(** The loop of a star, for the matcher [body] of the starred regex:
    one more iteration is tried first, and must consume input; when that
    fails the continuation takes over.  [fuel] bounds the number of
    iterations and is the length of the input when the loop starts. *)
Fixpoint iterate (body : cont -> cont) (k : cont) (fuel : nat)
    (s : jsstring) (c : caps) {struct fuel} : result :=
  match fuel with
  | O => k s c
  | S fuel' =>
      match body (fun s' c' =>
                    if List.length s' <? List.length s
                    then iterate body k fuel' s' c'
                    else None) s c with
      | Some res => Some res
      | None => k s c
      end
  end.

Fixpoint m (r : regex) (k : cont) (s : jsstring) (c : caps) {struct r} : result :=
  match r with
  | Chr p =>
      match s with
      | x :: s' => if p x then k s' c else None
      | [] => None
      end
  | Eps => k s c
  | Seq r1 r2 => m r1 (m r2 k) s c
  | Alt r1 r2 =>
      match m r1 k s c with
      | Some res => Some res
      | None => m r2 k s c
      end
  | Star r1 => iterate (m r1) k (List.length s) s c
  | Group n r1 =>
      m r1 (fun s' c' => k s' (set_cap n (firstn (List.length s - List.length s') s) c')) s c
  | EndOfLine =>
      match s with
      | [] => k s c
      | x :: _ => if is_line_terminator x then k s c else None
      end
  end.

(** A match attempt at the front of [s]: the rest after the match and
    the captures. *)
Definition match_at (r : regex) (s : jsstring) : result :=
  m r (fun s' c => Some (s', c)) s [].

(** [s.match(r)] for a regex without the [g] flag: the leftmost start
    position at which a match attempt succeeds. *)
Fixpoint search (r : regex) (s : jsstring) : option caps :=
  match match_at r s with
  | Some (_, c) => Some c
  | None =>
      match s with
      | [] => None
      | _ :: s' => search r s'
      end
  end.

(** [while ((x = r.exec(s)) !== null) out.push(f x)] for a regex with
    the [g] flag: [lastIndex] moves to the end of each match.  (A match
    of length zero would leave [lastIndex] where it is; the regexes this
    is used with cannot match the empty string.) *)
Fixpoint exec_loop_from (fuel : nat) (r : regex) (s : jsstring) : list caps :=
  match fuel with
  | O => []
  | S fuel' =>
      match match_at r s with
      | Some (rest, c) =>
          if List.length rest <? List.length s then c :: exec_loop_from fuel' r rest
          else []
      | None =>
          match s with
          | [] => []
          | _ :: s' => exec_loop_from fuel' r s'
          end
      end
  end.

Definition exec_loop (r : regex) (s : jsstring) : list caps :=
  exec_loop_from (S (List.length s)) r s.

(** [s.replace(r, template)] for a regex with the [g] flag; [f] builds
    the replacement from the captures.  After a match of length zero the
    search resumes one code unit further. *)
Fixpoint replace_from (fuel : nat) (r : regex) (f : caps -> jsstring)
    (s : jsstring) : jsstring :=
  match fuel with
  | O => s
  | S fuel' =>
      let step :=
        match s with
        | [] => []
        | x :: s' => x :: replace_from fuel' r f s'
        end in
      match match_at r s with
      | Some (rest, c) =>
          if List.length rest <? List.length s then f c ++ replace_from fuel' r f rest
          else f c ++ step
      | None => step
      end
  end.

Definition replace (r : regex) (f : caps -> jsstring) (s : jsstring) : jsstring :=
  replace_from (S (List.length s)) r f s.

End RegExp.

(** ** Ordinary objects used as records

    An object is kept as the list of its own properties in creation
    order.  Enumeration ([Object.entries], [Object.values]) lists the
    properties whose key is an array index first, in ascending numeric
    order, then the other string keys in creation order. *)

Module Obj.

Definition t (V : Type) := list (jsstring * V).

Definition empty {V} : t V := [].

Fixpoint get {V} (k : jsstring) (o : t V) : option V :=
  match o with
  | [] => None
  | (k', v) :: o' => if str_eqb k' k then Some v else get k o'
  end.

Definition has {V} (k : jsstring) (o : t V) : bool :=
  match get k o with Some _ => true | None => false end.

Fixpoint update {V} (k : jsstring) (v : V) (o : t V) : t V :=
  match o with
  | [] => []
  | (k', v') :: o' =>
      if str_eqb k' k then (k', v) :: o' else (k', v') :: update k v o'
  end.

(** CreateDataProperty: an existing property keeps its place and takes
    the new value, a new one is created last. *)
Definition define {V} (k : jsstring) (v : V) (o : t V) : t V :=
  if has k o then update k v o else o ++ [(k, v)].

Definition proto : jsstring := js "__proto__".

(** [o[k] = v] on an object created by [{}]: as [define], except for the
    key [__proto__], which reaches the accessor inherited from
    [Object.prototype]; its setter creates no own property (it ignores
    a value that is not an object and otherwise changes the prototype). *)
Definition assign {V} (k : jsstring) (v : V) (o : t V) : t V :=
  if str_eqb k proto then o else define k v o.

Definition is_digit (x : char) : bool := ((48 <=? x) && (x <=? 57))%N.

Definition digit_value (x : char) : N := (x - 48)%N.

Definition decimal (s : jsstring) : N :=
  fold_left (fun acc x => (10 * acc + digit_value x)%N) s 0%N.

(** The array index a key denotes, if any: a canonical decimal numeral
    (no leading zero) of value at most 2^32 - 2. *)
Definition array_index (k : jsstring) : option N :=
  match k with
  | [] => None
  | x :: k' =>
      if forallb is_digit k && (negb (N.eqb x 48) || Nat.eqb (List.length k') 0)
         && (List.length k <=? 10) && (decimal k <=? 4294967294)%N
      then Some (decimal k) else None
  end.

Fixpoint insert_index {V} (i : N) (p : jsstring * V) (l : list (N * (jsstring * V)))
  : list (N * (jsstring * V)) :=
  match l with
  | [] => [(i, p)]
  | (j, q) :: l' => if (i <=? j)%N then (i, p) :: l else (j, q) :: insert_index i p l'
  end.

Fixpoint index_props {V} (o : t V) : list (N * (jsstring * V)) :=
  match o with
  | [] => []
  | (k, v) :: o' =>
      match array_index k with
      | Some i => insert_index i (k, v) (index_props o')
      | None => index_props o'
      end
  end.

Definition string_props {V} (o : t V) : list (jsstring * V) :=
  filter (fun p => match array_index (fst p) with Some _ => false | None => true end) o.

(** [Object.entries(o)] *)
Definition entries {V} (o : t V) : list (jsstring * V) :=
  map snd (index_props o) ++ string_props o.

(** [Object.values(o)] *)
Definition values {V} (o : t V) : list V := map snd (entries o).

(** [Object.keys(o)] *)
Definition keys {V} (o : t V) : list jsstring := map fst (entries o).

(** An object literal [{ k1: v1, ... }] *)
Definition literal {V} (ps : list (jsstring * V)) : t V :=
  fold_left (fun o p => define (fst p) (snd p) o) ps empty.

End Obj.

(** ** [JSON.parse] *)

Module Json.

(** A parsed value.  A number is kept as its lexeme: nothing in the
    source computes with one. *)
#[local] Unset Elimination Schemes.
Inductive json : Type :=
| JNull
| JBool (b : bool)
| JNumber (lexeme : jsstring)
| JString (s : jsstring)
| JArray (elements : list json)
| JObject (props : Obj.t json).
#[local] Set Elimination Schemes.

Definition is_ws (x : char) : bool :=
  (N.eqb x 32 || N.eqb x 9 || N.eqb x 10 || N.eqb x 13)%N.

Fixpoint skip_ws (s : jsstring) : jsstring :=
  match s with
  | x :: s' => if is_ws x then skip_ws s' else s
  | [] => []
  end.

Definition hex_value (x : char) : option N :=
  if ((48 <=? x) && (x <=? 57))%N then Some (x - 48)%N
  else if ((97 <=? x) && (x <=? 102))%N then Some (x - 87)%N
  else if ((65 <=? x) && (x <=? 70))%N then Some (x - 55)%N
  else None.

Definition simple_escape (x : char) : option char :=
  if N.eqb x 34 then Some 34%N            (* quotation mark *)
  else if N.eqb x 92 then Some 92%N       (* reverse solidus *)
  else if N.eqb x 47 then Some 47%N       (* solidus *)
  else if N.eqb x 98 then Some 8%N        (* b *)
  else if N.eqb x 102 then Some 12%N      (* f *)
  else if N.eqb x 110 then Some 10%N      (* n *)
  else if N.eqb x 114 then Some 13%N      (* r *)
  else if N.eqb x 116 then Some 9%N       (* t *)
  else None.

(** The characters of a string after its opening quotation mark, up to
    and including the closing one. *)
Fixpoint string_body (s : jsstring) : option (jsstring * jsstring) :=
  match s with
  | [] => None
  | x :: s' =>
      if N.eqb x 34 then Some ([], s')
      else if N.eqb x 92 then
        match s' with
        | [] => None
        | e :: s2 =>
            if N.eqb e 117 then
              match s2 with
              | h1 :: h2 :: h3 :: h4 :: s3 =>
                  match hex_value h1, hex_value h2, hex_value h3, hex_value h4,
                        string_body s3 with
                  | Some a, Some b, Some c, Some d, Some (body, rest) =>
                      Some ((4096 * a + 256 * b + 16 * c + d)%N :: body, rest)
                  | _, _, _, _, _ => None
                  end
              | _ => None
              end
            else
              match simple_escape e, string_body s2 with
              | Some y, Some (body, rest) => Some (y :: body, rest)
              | _, _ => None
              end
        end
      else if (x <? 32)%N then None
      else
        match string_body s' with
        | Some (body, rest) => Some (x :: body, rest)
        | None => None
        end
  end.

Fixpoint span (p : char -> bool) (s : jsstring) : jsstring * jsstring :=
  match s with
  | x :: s' => if p x then let (a, b) := span p s' in (x :: a, b) else ([], s)
  | [] => ([], [])
  end.

Definition digits1 (s : jsstring) : option (jsstring * jsstring) :=
  match span Obj.is_digit s with
  | ([], _) => None
  | (d, rest) => Some (d, rest)
  end.

(** An optional minus sign, an integer part without leading zero, an
    optional fraction, an optional exponent. *)
Definition number (s : jsstring) : option (jsstring * jsstring) :=
  let (sign, s1) :=
    match s with
    | x :: s' => if N.eqb x 45 then ([x], s') else ([], s)
    | [] => ([], s)
    end in
  let int :=
    match s1 with
    | x :: s' =>
        if N.eqb x 48 then Some ([x], s')
        else if Obj.is_digit x then digits1 s1
        else None
    | [] => None
    end in
  match int with
  | None => None
  | Some (i, s2) =>
      let frac :=
        match s2 with
        | x :: s' =>
            if N.eqb x 46 then
              match digits1 s' with
              | Some (d, r) => Some (x :: d, r)
              | None => None
              end
            else Some ([], s2)
        | [] => Some ([], s2)
        end in
      match frac with
      | None => None
      | Some (f, s3) =>
          let exp :=
            match s3 with
            | x :: s' =>
                if N.eqb x 101 || N.eqb x 69 then
                  let (sg, s4) :=
                    match s' with
                    | y :: s'' =>
                        if N.eqb y 43 || N.eqb y 45 then ([y], s'') else ([], s')
                    | [] => ([], s')
                    end in
                  match digits1 s4 with
                  | Some (d, r) => Some (x :: sg ++ d, r)
                  | None => None
                  end
                else Some ([], s3)
            | [] => Some ([], s3)
            end in
          match exp with
          | None => None
          | Some (e, s5) => Some (sign ++ i ++ f ++ e, s5)
          end
      end
  end.

Definition keyword (w : string) (v : json) (s : jsstring) : option (json * jsstring) :=
  match strip_prefix (js w) s with
  | Some rest => Some (v, rest)
  | None => None
  end.

(** The value at the front of [s] (white space before it already
    skipped), the members of an object after its opening brace, the
    elements of an array after its opening bracket. *)
Fixpoint value (fuel : nat) (s : jsstring) {struct fuel} : option (json * jsstring) :=
  match fuel with
  | O => None
  | S fuel' =>
      match s with
      | [] => None
      | x :: s' =>
          if N.eqb x 123 then                       (* left brace *)
            match skip_ws s' with
            | y :: s2 =>
                if N.eqb y 125 then Some (JObject Obj.empty, s2)
                else members fuel' (y :: s2) Obj.empty
            | [] => None
            end
          else if N.eqb x 91 then                   (* left bracket *)
            match skip_ws s' with
            | y :: s2 =>
                if N.eqb y 93 then Some (JArray [], s2)
                else elements fuel' (y :: s2) []
            | [] => None
            end
          else if N.eqb x 34 then
            match string_body s' with
            | Some (body, rest) => Some (JString body, rest)
            | None => None
            end
          else if N.eqb x 116 then keyword "true" (JBool true) s
          else if N.eqb x 102 then keyword "false" (JBool false) s
          else if N.eqb x 110 then keyword "null" JNull s
          else
            match number s with
            | Some (lexeme, rest) => Some (JNumber lexeme, rest)
            | None => None
            end
      end
  end

with members (fuel : nat) (s : jsstring) (acc : Obj.t json) {struct fuel}
  : option (json * jsstring) :=
  match fuel with
  | O => None
  | S fuel' =>
      match s with
      | q :: s1 =>
          if N.eqb q 34 then
            match string_body s1 with
            | Some (key, s2) =>
                match skip_ws s2 with
                | colon :: s3 =>
                    if N.eqb colon 58 then
                      match value fuel' (skip_ws s3) with
                      | Some (v, s4) =>
                          match skip_ws s4 with
                          | z :: s5 =>
                              if N.eqb z 125 then
                                Some (JObject (Obj.define key v acc), s5)
                              else if N.eqb z 44 then
                                members fuel' (skip_ws s5) (Obj.define key v acc)
                              else None
                          | [] => None
                          end
                      | None => None
                      end
                    else None
                | [] => None
                end
            | None => None
            end
          else None
      | [] => None
      end
  end

with elements (fuel : nat) (s : jsstring) (acc : list json) {struct fuel}
  : option (json * jsstring) :=
  match fuel with
  | O => None
  | S fuel' =>
      match value fuel' s with
      | Some (v, s1) =>
          match skip_ws s1 with
          | z :: s2 =>
              if N.eqb z 93 then Some (JArray (acc ++ [v]), s2)
              else if N.eqb z 44 then elements fuel' (skip_ws s2) (acc ++ [v])
              else None
          | [] => None
          end
      | None => None
      end
  end.

(** [JSON.parse(text)]: [None] stands for the SyntaxError it throws. *)
Definition parse (text : jsstring) : option json :=
  match value (S (List.length text)) (skip_ws text) with
  | Some (v, rest) =>
      match skip_ws rest with
      | [] => Some v
      | _ :: _ => None
      end
  | None => None
  end.

End Json.

(** ** String, array and set primitives used by the source *)

Open Scope Z_scope.

Fixpoint indexOf_from (i : Z) (x : char) (s : jsstring) : Z :=
  match s with
  | [] => -1
  | y :: s' => if N.eqb y x then i else indexOf_from (i + 1) x s'
  end.

(** [s.indexOf(x)] for a one-character [x] *)
Definition indexOf (s : jsstring) (x : char) : Z := indexOf_from 0 x s.

Fixpoint lastIndexOf_from (i : Z) (x : char) (s : jsstring) (found : Z) : Z :=
  match s with
  | [] => found
  | y :: s' => lastIndexOf_from (i + 1) x s' (if N.eqb y x then i else found)
  end.

(** [s.lastIndexOf(x)] for a one-character [x] *)
Definition lastIndexOf (s : jsstring) (x : char) : Z := lastIndexOf_from 0 x s (-1).

(** [s.substring(a, b)]: both arguments are clamped to the string, and
    swapped when the first is the larger. *)
Definition substring (s : jsstring) (a b : Z) : jsstring :=
  let len := Z.of_nat (List.length s) in
  let a' := Z.min (Z.max a 0) len in
  let b' := Z.min (Z.max b 0) len in
  let from := Z.min a' b' in
  let to := Z.max a' b' in
  firstn (Z.to_nat (to - from)) (skipn (Z.to_nat from) s).

(** [s.charAt(0)] and [s.slice(1)] *)
Definition charAt0 (s : jsstring) : jsstring :=
  match s with x :: _ => [x] | [] => [] end.

Definition slice1 (s : jsstring) : jsstring :=
  match s with _ :: s' => s' | [] => [] end.

(** [arr.includes(x)] on an array of strings *)
Definition arr_includes (arr : list jsstring) (x : jsstring) : bool :=
  existsb (str_eqb x) arr.

(** A [Set<string>]: its elements in insertion order. *)
Module JsSet.
Definition t := list jsstring.
Definition empty : t := [].
Definition has (x : jsstring) (s : t) : bool := existsb (str_eqb x) s.
Definition add (x : jsstring) (s : t) : t := if has x s then s else s ++ [x].
End JsSet.

(** ** Numbers

    A JavaScript number is an IEEE 754 double.  The decimal text of a
    number and the conversion of a decimal text to a number are
    computed exactly, on integers. *)

Module Double.

(** Is [a/b] at least [2^e]? *)
Definition reaches (a b e : Z) : bool :=
  if 0 <=? e then b * 2 ^ e <=? a else b <=? a * 2 ^ (- e).

(** The binary exponent [e] of a positive [a/b]:
    [2^e <= a/b < 2^(e+1)]. *)
Definition binade (a b : Z) : Z :=
  let e0 := Z.log2 a - Z.log2 b in
  if reaches a b e0 then e0 else e0 - 1.

(** [n/d] rounded to the nearest integer, to the even one in a tie. *)
Definition nearest_even (n d : Z) : Z :=
  let q := n / d in
  let r := n mod d in
  if 2 * r <? d then q
  else if d <? 2 * r then q + 1
  else if Z.even q then q else q + 1.

(** A finite double other than zero, without its sign: [(m, p)] stands
    for [m * 2^p], with [2^52 <= m < 2^53], or [p = -1074] and
    [0 < m < 2^52] for a subnormal. *)
Definition finite : Type := (Z * Z)%type.

Inductive rounded : Type :=
| Zero
| Finite (d : finite)
| Overflow.

(** The double nearest to the positive rational [a/b]
    (roundTiesToEven); beyond the largest double it is infinite. *)
Definition round (a b : Z) : rounded :=
  let e := binade a b in
  let p := Z.max (e - 52) (-1074) in
  let m := if 0 <=? p then nearest_even a (b * 2 ^ p)
           else nearest_even (a * 2 ^ (- p)) b in
  let (m', p') := if m =? 2 ^ 53 then (2 ^ 52, p + 1) else (m, p) in
  if m' =? 0 then Zero
  else if 971 <? p' then Overflow
  else Finite (m', p').

Definition same (x y : rounded) : bool :=
  match x, y with
  | Zero, Zero => true
  | Finite (m1, p1), Finite (m2, p2) => (m1 =? m2) && (p1 =? p2)
  | Overflow, Overflow => true
  | _, _ => false
  end.

(** [(a/b) * 10^t] *)
Definition scale10 (a b t : Z) : Z * Z :=
  if 0 <=? t then (a * 10 ^ t, b) else (a, b * 10 ^ (- t)).

(** The exact value of a finite double, as a fraction. *)
Definition fraction (d : finite) : Z * Z :=
  let (m, p) := d in
  if 0 <=? p then (m * 2 ^ p, 1) else (m, 2 ^ (- p)).

(** The integer a finite double denotes, when it denotes one. *)
Definition integer (d : finite) : Z :=
  let (a, b) := fraction d in a / b.

(** The number of decimal digits of a positive integer. *)
Definition ndigits (z : Z) : Z :=
  match z with
  | Zpos q => Z.of_nat (Decimal.nb_digits (Pos.to_uint q))
  | _ => 0
  end.

(** The decimal exponent [n] of a positive [a/b]:
    [10^(n-1) <= a/b < 10^n]. *)
Definition magnitude (a b : Z) : Z :=
  if b <=? a then ndigits (a / b)
  else
    let t := ndigits (b / a) - 1 in
    if a * 10 ^ t =? b then 1 - t else - t.

(** Does the decimal [s * 10^t] denote the double [d]? *)
Definition reads_as (d : finite) (s t : Z) : bool :=
  let (a, b) := scale10 s 1 t in same (round a b) (Finite d).

(** The digits of Number::toString: the least [k] such that some
    integer [s] of [k] digits and some [n] make [s * 10^(n-k)] denote
    the double; among several such [s] the one nearest to the double,
    the even one in a tie.  The result is [(s, k, n)].  Seventeen
    digits always suffice. *)
Fixpoint shortest_from (fuel : nat) (d : finite) (n k : Z) : Z * Z * Z :=
  let (va, vb) := fraction d in
  let (xa, xb) := scale10 va vb (k - n) in
  let lower := xa / xb in
  let r := xa mod xb in
  let upper := lower + 1 in
  let ok_lower := reads_as d lower (n - k) in
  let ok_upper := negb (r =? 0) && reads_as d upper (n - k) in
  let upper_nearer :=
    if xb <? 2 * r then true
    else if 2 * r <? xb then false
    else Z.odd lower in
  let pick (s : Z) := if s =? 10 ^ k then (10 ^ (k - 1), k, n + 1) else (s, k, n) in
  match fuel with
  | O => pick lower
  | S fuel' =>
      if ok_lower && ok_upper then pick (if upper_nearer then upper else lower)
      else if ok_lower then pick lower
      else if ok_upper then pick upper
      else shortest_from fuel' d n (k + 1)
  end.

Definition shortest (d : finite) : Z * Z * Z :=
  let (va, vb) := fraction d in
  shortest_from 17 d (magnitude va vb) 1.

Definition digits_of (z : Z) : jsstring :=
  match z with
  | Zpos q => js (DecimalString.NilZero.string_of_uint (Pos.to_uint q))
  | _ => js "0"
  end.

Definition zeros (n : Z) : jsstring := repeat 48%N (Z.to_nat n).

(** Number::toString for a finite double other than zero, without its
    sign: plain digits up to 10^21, exponent notation from there on and
    below 10^-6. *)
Definition toString (d : finite) : jsstring :=
  let '(s, k, n) := shortest d in
  let ds := digits_of s in
  if (k <=? n) && (n <=? 21) then ds ++ zeros (n - k)
  else if (0 <? n) && (n <=? 21) then
    firstn (Z.to_nat n) ds ++ js "." ++ skipn (Z.to_nat n) ds
  else if (-6 <? n) && (n <=? 0) then js "0." ++ zeros (- n) ++ ds
  else
    let e := n - 1 in
    let exponent := (if 0 <? e then js "+" else js "-") ++ digits_of (Z.abs e) in
    match ds with
    | [] => []
    | [x] => [x] ++ js "e" ++ exponent
    | x :: more => [x] ++ js "." ++ more ++ js "e" ++ exponent
    end.

End Double.

(** A [number] holding the result of [parseInt]: [NaN], an infinity,
    minus zero, or a double that is an integer, given by its value. *)
Inductive number : Type :=
| NaN
| Int (z : Z)
| Infinity (negative : bool)
| MinusZero.

Fixpoint skip_space (s : jsstring) : jsstring :=
  match s with
  | x :: s' => if RegExp.is_space x then skip_space s' else s
  | [] => []
  end.

(** [parseInt(s, 10)]: leading white space is skipped, a sign is read,
    and the longest run of decimal digits that follows is read as an
    integer; the result is the double nearest to it.  (Past twenty
    significant digits ECMAScript lets an implementation approximate;
    the engines round the exact integer, as here.) *)
Definition parseInt10 (s : jsstring) : number :=
  let s1 := skip_space s in
  let (negative, s2) :=
    match s1 with
    | x :: s' =>
        if N.eqb x 45 then (true, s')
        else if N.eqb x 43 then (false, s')
        else (false, s1)
    | [] => (false, s1)
    end in
  match fst (Json.span Obj.is_digit s2) with
  | [] => NaN
  | d =>
      match Double.round (Z.of_N (Obj.decimal d)) 1 with
      | Double.Zero => if negative then MinusZero else Int 0
      | Double.Finite f => Int (if negative then - Double.integer f else Double.integer f)
      | Double.Overflow => Infinity negative
      end
  end.

(** [n.toString()] *)
Definition number_toString (n : number) : jsstring :=
  match n with
  | NaN => js "NaN"
  | Infinity negative => (if negative then js "-" else []) ++ js "Infinity"
  | MinusZero => js "0"
  | Int z =>
      match Double.round (Z.abs z) 1 with
      | Double.Zero => js "0"
      | Double.Finite f => (if z <? 0 then js "-" else []) ++ Double.toString f
      | Double.Overflow => (if z <? 0 then js "-" else []) ++ js "Infinity"
      end
  end.

(** ** Values of any type

    [JSON.parse] returns [any]: the value the source uses as a
    [Record<string, string>] may be any JSON value, and so may the
    values it holds.  What the source does with such values
    ([Object.values], [Object.entries], the elements of a [Set], the
    conversion to a string of a property key and of a template literal)
    is given here for every JSON value. *)

Module Any.
Import Json.

(** The number a lexeme denotes: its sign and the double nearest to
    its decimal value.  A value beyond 10^400 is infinite and one
    below 10^-400 is zero, whatever its digits. *)
Definition number_value (lexeme : jsstring) : bool * Double.rounded :=
  let (negative, s1) :=
    match lexeme with
    | x :: s' => if N.eqb x 45 then (true, s') else (false, lexeme)
    | [] => (false, lexeme)
    end in
  let (int, s2) := span Obj.is_digit s1 in
  let (frac, s3) :=
    match s2 with
    | x :: s' => if N.eqb x 46 then span Obj.is_digit s' else ([], s2)
    | [] => ([], s2)
    end in
  let exp :=
    match s3 with
    | _ :: y :: s' =>
        if N.eqb y 45 then - Z.of_N (Obj.decimal (fst (span Obj.is_digit s')))
        else if N.eqb y 43 then Z.of_N (Obj.decimal (fst (span Obj.is_digit s')))
        else Z.of_N (Obj.decimal (fst (span Obj.is_digit (y :: s'))))
    | _ => 0
    end in
  let a := Z.of_N (Obj.decimal (int ++ frac)) in
  let t := exp - Z.of_nat (List.length frac) in
  (negative,
   if a =? 0 then Double.Zero
   else if 400 <? t then Double.Overflow
   else if t + Double.ndigits a <? -400 then Double.Zero
   else let (n, d) := Double.scale10 a 1 t in Double.round n d).

(** Number::toString *)
Definition Number_toString (v : bool * Double.rounded) : jsstring :=
  match snd v with
  | Double.Zero => js "0"
  | Double.Finite d => (if fst v then js "-" else []) ++ Double.toString d
  | Double.Overflow => (if fst v then js "-" else []) ++ js "Infinity"
  end.

Definition same_number (v w : bool * Double.rounded) : bool :=
  match snd v, snd w with
  | Double.Zero, Double.Zero => true
  | _, _ => Bool.eqb (fst v) (fst w) && Double.same (snd v) (snd w)
  end.

(** ToString and ToPropertyKey: [None] stands for the TypeError thrown
    when an object cannot be converted, which is the case when it has
    an own property named [toString] (a JSON value is never callable,
    and the inherited [valueOf] returns the object itself).  An array
    is converted by [join], where [null] counts as the empty string. *)
Fixpoint ToString (v : json) : option jsstring :=
  match v with
  | JNull => Some (js "null")
  | JBool b => Some (if b then js "true" else js "false")
  | JNumber lexeme => Some (Number_toString (number_value lexeme))
  | JString s => Some s
  | JArray elements =>
      (fix join (l : list json) : option jsstring :=
         match l with
         | [] => Some []
         | e :: l' =>
             match (match e with JNull => Some [] | _ => ToString e end), join l' with
             | Some a, Some b =>
                 Some (a ++ match l' with [] => [] | _ :: _ => js "," end ++ b)
             | _, _ => None
             end
         end) elements
  | JObject props =>
      if Obj.has (js "toString") props then None else Some (js "[object Object]")
  end.

Definition to_string (v : json) : M jsstring :=
  match ToString v with
  | Some s => ret s
  | None => throw (TypeError (js "Cannot convert object to primitive value"))
  end.

(** The key of the element at position [i] of an array or a string. *)
Definition index_key (i : nat) : jsstring :=
  js (DecimalString.NilZero.string_of_uint (Nat.to_uint i)).

Fixpoint indexed_from {A} (i : nat) (l : list A) : list (jsstring * A) :=
  match l with
  | [] => []
  | a :: l' => (index_key i, a) :: indexed_from (S i) l'
  end.

(** [Object.entries(v)]: the properties of an object, the elements of
    an array, the code units of a string; nothing for a number or a
    boolean; a TypeError for [null]. *)
Definition entries (v : json) : M (list (jsstring * json)) :=
  match v with
  | JNull => throw (TypeError (js "Cannot convert undefined or null to object"))
  | JBool _ => ret []
  | JNumber _ => ret []
  | JString s => ret (indexed_from 0 (map (fun c => JString [c]) s))
  | JArray elements => ret (indexed_from 0 elements)
  | JObject props => ret (Obj.entries props)
  end.

(** [Object.values(v)] *)
Definition values (v : json) : M (list json) :=
  es <- entries v ;; ret (map snd es).

(** SameValueZero, the equality of [Set] and of [includes], between two
    values met at different places of a parsed value: objects and
    arrays are then different objects. *)
Definition same_value_zero (a b : json) : bool :=
  match a, b with
  | JNull, JNull => true
  | JBool x, JBool y => Bool.eqb x y
  | JNumber x, JNumber y => same_number (number_value x) (number_value y)
  | JString x, JString y => str_eqb x y
  | _, _ => false
  end.

(** A [Set] of values: its elements in insertion order.  Minus zero is
    kept as zero. *)
Definition has (x : json) (set : list json) : bool := existsb (same_value_zero x) set.

Definition kept (x : json) : json :=
  match x with
  | JNumber lexeme =>
      match number_value lexeme with
      | (true, Double.Zero) => JNumber (js "0")
      | _ => x
      end
  | _ => x
  end.

Definition add (x : json) (set : list json) : list json :=
  if has x set then set else set ++ [kept x].

End Any.

(** ** The data model *)

Record NetworkInfo : Type := mkNetworkInfo {
  name : jsstring;
  chainId : number;
  rpcs : list jsstring;
  blockExplorer : jsstring
}.

Definition NetworksMap := Obj.t NetworkInfo.

Record ChainData : Type := mkChainData {
  chainIds : Obj.t jsstring;
  explorers : Obj.t jsstring;
  networkList : list jsstring
}.

Record RpcData : Type := mkRpcData {
  networks : NetworksMap;
  rpc_networkList : list jsstring
}.

(** The declared types hold when the fetched mapping is an object of
    strings.  For any other parsed value the functions return the same
    structures with values of any type in them. *)
Record AnyChainData : Type := mkAnyChainData {
  any_chainIds : Json.json;
  any_explorers : Obj.t jsstring;
  any_networkList : list Json.json
}.

Inductive ChainResult : Type :=
| Typed (data : ChainData)
| Loose (data : AnyChainData).

Record AnyRpcData : Type := mkAnyRpcData {
  any_networks : NetworksMap;
  any_rpc_networkList : list Json.json
}.

Inductive RpcResult : Type :=
| TypedRpc (data : RpcData)
| LooseRpc (data : AnyRpcData).

(** ** The network, for the two metadata requests

    What [fetch(url)] and then [response.text()] do is an input of the
    embedding. *)

Inductive Body : Type :=
| Text (t : jsstring)
| BodyFails.

Inductive Fetch : Type :=
| FetchFails
| Response (ok : bool) (body : Body).

Definition fetch (w : Fetch) : M (bool * Body) :=
  match w with
  | FetchFails => throw (TypeError (js "Failed to fetch"))
  | Response ok body => ret (ok, body)
  end.

Definition text (b : Body) : M jsstring :=
  match b with
  | Text t => ret t
  | BodyFails => throw (TypeError (js "Failed to fetch"))
  end.

(** ** Chain metadata: [fetchChainData] *)

Import RegExp.

Fixpoint Cat (rs : list regex) : regex :=
  match rs with
  | [] => Eps
  | [r] => r
  | r :: rs' => Seq r (Cat rs')
  end.

(** [/\/\/.*$/gm] *)
Definition re_line_comment : regex :=
  Cat [Lit (js "//"); Star (Chr dot); EndOfLine].

Definition closing_bracket (x : char) : bool :=
  N.eqb x (chr "}") || N.eqb x (chr "]").

(** [/,(\s*[}\]])/g] *)
Definition re_trailing_comma : regex :=
  Cat [Chr (only (chr ",")); Group 1 (Cat [Star (Chr is_space); Chr closing_bracket])].

(** The third regex, flag [g]: an optional quote of either kind
    (group 1), a run of [[a-zA-Z0-9_]] (group 2), an optional quote
    (group 3), a colon. *)
Definition re_key : regex :=
  Cat [Opt (Group 1 (Chr is_quote)); Group 2 (Plus (Chr is_word));
       Opt (Group 3 (Chr is_quote)); Chr (only (chr ":"))].

(** [/'/g] *)
Definition re_single_quote : regex := Chr (only squote).

(** The chain of four [replace] calls that turns the slice into JSON. *)
Definition jsonStr (objStr : jsstring) : jsstring :=
  replace re_single_quote (fun _ => [dquote])
    (replace re_key (fun c => [dquote] ++ cap 2 c ++ [dquote] ++ js ":")
       (replace re_trailing_comma (fun c => cap 1 c)
          (replace re_line_comment (fun _ => []) objStr))).

Definition JSON_parse (s : jsstring) : M Json.json :=
  match Json.parse s with
  | Some v => ret v
  | None => throw (SyntaxError (js "Unexpected token"))
  end.

(** [objStr]: the slice from the first opening brace to the last
    closing brace. *)
Definition objStr (content : jsstring) : jsstring :=
  substring content (indexOf content (chr "{")) (lastIndexOf content (chr "}") + 1).

Definition extractObject (content : jsstring) : M Json.json :=
  try_catch
    (let startIdx := indexOf content (chr "{") in
     let endIdx := lastIndexOf content (chr "}") + 1 in
     if (startIdx =? -1) || (endIdx =? -1) then
       throw (Error (js "Could not extract object from content"))
     else
       JSON_parse (jsonStr (objStr content)))
    (fun e =>
       console_error (js "Failed to extract object:") (Some e) ;;;
       ret (Json.JObject Obj.empty)).

Definition popularNetworks : list jsstring :=
  [js "ethereum"; js "arbitrum"; js "optimism"; js "polygon"; js "base";
   js "avalanche"; js "binance"; js "fantom"; js "gnosis"; js "zksync"].

(** [allNetworks], after the [forEach] over [Object.values(chainIds)] *)
Definition allNetworks (chainIds : Obj.t jsstring) : JsSet.t :=
  fold_left (fun set value => JsSet.add value set) (Obj.values chainIds) JsSet.empty.

Definition build_networkList (chainIds : Obj.t jsstring) : list jsstring :=
  filter (fun network => JsSet.has network (allNetworks chainIds)) popularNetworks
  ++ filter (fun network => negb (arr_includes popularNetworks network))
       (allNetworks chainIds).

(** The [if / else if] chain that picks the explorer of a network. *)
Definition explorer_url (network : jsstring) : jsstring :=
  if str_eqb network (js "ethereum") then js "https://etherscan.io/tx/"
  else if str_eqb network (js "binance") then js "https://bscscan.com/tx/"
  else if str_eqb network (js "polygon") then js "https://polygonscan.com/tx/"
  else if str_eqb network (js "arbitrum") then js "https://arbiscan.io/tx/"
  else if str_eqb network (js "optimism") then js "https://optimistic.etherscan.io/tx/"
  else if str_eqb network (js "base") then js "https://basescan.org/tx/"
  else if str_eqb network (js "avalanche") then js "https://snowtrace.io/tx/"
  else if str_eqb network (js "fantom") then js "https://ftmscan.com/tx/"
  else if str_eqb network (js "gnosis") then js "https://gnosisscan.io/tx/"
  else if str_eqb network (js "zksync") then js "https://explorer.zksync.io/tx/"
  else js "https://" ++ network ++ js "scan.com/tx/".

(** [explorers], after the [forEach] over [Object.entries(chainIds)] *)
Definition build_explorers (chainIds : Obj.t jsstring) : Obj.t jsstring :=
  fold_left (fun explorers entry =>
               let network := snd entry in
               Obj.assign network (explorer_url network) explorers)
    (Obj.entries chainIds) Obj.empty.

Definition fallbackChainData : ChainData :=
  {| chainIds := Obj.literal
       [(js "1", js "ethereum"); (js "10", js "optimism"); (js "137", js "polygon");
        (js "42161", js "arbitrum"); (js "8453", js "base")];
     explorers := Obj.literal
       [(js "ethereum", js "https://etherscan.io/tx/");
        (js "optimism", js "https://optimistic.etherscan.io/tx/");
        (js "polygon", js "https://polygonscan.com/tx/");
        (js "arbitrum", js "https://arbiscan.io/tx/");
        (js "base", js "https://basescan.org/tx/")];
     networkList :=
       [js "ethereum"; js "arbitrum"; js "optimism"; js "polygon"; js "base"] |}.

Fixpoint all_strings (o : Obj.t Json.json) : option (Obj.t jsstring) :=
  match o with
  | [] => Some []
  | (k, Json.JString v) :: o' =>
      match all_strings o' with
      | Some r => Some ((k, v) :: r)
      | None => None
      end
  | _ :: _ => None
  end.

(** The value returned by [extractObject] as a
    [Record<string, string>], when it is one: an object whose values
    are all strings. *)
Definition as_record (v : Json.json) : option (Obj.t jsstring) :=
  match v with
  | Json.JObject o => all_strings o
  | _ => None
  end.

(** The same steps on a value that is not an object of strings.
    [allNetworks] then holds values of any type, compared by
    SameValueZero. *)
Definition loose_allNetworks (values : list Json.json) : list Json.json :=
  fold_left (fun set value => Any.add value set) values [].

Definition loose_networkList (values : list Json.json) : list Json.json :=
  map Json.JString
    (filter (fun network => Any.has (Json.JString network) (loose_allNetworks values))
       popularNetworks)
  ++ filter (fun network =>
               negb (existsb (fun popular =>
                                Any.same_value_zero (Json.JString popular) network)
                       popularNetworks))
       (loose_allNetworks values).

(** One turn of the loop over [Object.entries(chainIds)]: a string
    takes the [if / else if] chain; any other value fails every
    comparison and reaches the last branch, where it is converted to a
    string as a property key and in the template literal. *)
Definition loose_explorer (explorers : Obj.t jsstring) (networkKey : Json.json)
  : M (Obj.t jsstring) :=
  match networkKey with
  | Json.JString network => ret (Obj.assign network (explorer_url network) explorers)
  | _ =>
      network <- Any.to_string networkKey ;;
      ret (Obj.assign network (js "https://" ++ network ++ js "scan.com/tx/") explorers)
  end.

Fixpoint loose_explorers_from (explorers : Obj.t jsstring)
    (entries : list (jsstring * Json.json)) : M (Obj.t jsstring) :=
  match entries with
  | [] => ret explorers
  | entry :: entries' =>
      explorers' <- loose_explorer explorers (snd entry) ;;
      loose_explorers_from explorers' entries'
  end.

Definition fetchChainData (w : Fetch) : M ChainResult :=
  try_catch
    (chainIdsResponse <- fetch w ;;
     if negb (fst chainIdsResponse) then
       throw (Error (js "Failed to fetch chain IDs data"))
     else
       chainIdsText <- text (snd chainIdsResponse) ;;
       extracted <- extractObject chainIdsText ;;
       match as_record extracted with
       | Some chainIds =>
           ret (Typed {| chainIds := chainIds;
                         explorers := build_explorers chainIds;
                         networkList := build_networkList chainIds |})
       | None =>
           values <- Any.values extracted ;;
           entries <- Any.entries extracted ;;
           explorers <- loose_explorers_from Obj.empty entries ;;
           ret (Loose {| any_chainIds := extracted;
                         any_explorers := explorers;
                         any_networkList := loose_networkList values |})
       end)
    (fun error =>
       console_error (js "Error fetching chain data:") (Some error) ;;;
       ret (Typed fallbackChainData)).

(** ** RPC discovery: [fetchRpcData] *)

(** The text of a chain ID as the source of a pattern.  The text of a
    number is made of digits, a minus sign, the letters of [NaN] and
    [Infinity], and from 10^21 on a point, [e] and a plus sign.  In a
    pattern the point matches any character (the [s] flag is set), the
    plus sign repeats the atom before it, and the other characters
    stand for themselves. *)
Definition any_char : char -> bool := fun _ => true.

Definition atom (x : char) : regex :=
  if N.eqb x (chr ".") then Chr any_char else Chr (only x).

Fixpoint interpolated (source : jsstring) : regex :=
  match source with
  | [] => Eps
  | x :: source' =>
      match source' with
      | y :: source'' =>
          if N.eqb y (chr "+") then Seq (Plus (atom x)) (interpolated source'')
          else Seq (atom x) (interpolated source')
      | [] => Seq (atom x) (interpolated source')
      end
  end.

(** [new RegExp(`${chainIdStr}:\s*{[^}]*rpcs:\s*\[([^\]]+)\]`, 's')] *)
Definition re_rpcs (chainIdStr : jsstring) : regex :=
  Cat [interpolated chainIdStr; Chr (only (chr ":")); Star (Chr is_space);
       Chr (only (chr "{")); Star (Chr (except (chr "}")));
       Lit (js "rpcs:"); Star (Chr is_space); Chr (only (chr "["));
       Group 1 (Plus (Chr (except (chr "]")))); Chr (only (chr "]"))].

(** [nameRegex]: as [regex] up to the brace-free run, then [name:],
    white space, a quote of either kind, a run free of quotes
    (group 1) and a quote. *)
Definition re_name (chainIdStr : jsstring) : regex :=
  Cat [interpolated chainIdStr; Chr (only (chr ":")); Star (Chr is_space);
       Chr (only (chr "{")); Star (Chr (except (chr "}")));
       Lit (js "name:"); Star (Chr is_space); Chr is_quote;
       Group 1 (Plus (Chr not_quote)); Chr is_quote].

(** [/'([^']+)'/g] *)
Definition stringRpcRegex : regex :=
  Cat [Chr (only squote); Group 1 (Plus (Chr (except squote))); Chr (only squote)].

(** [/url:\s*'([^']+)'/g] *)
Definition objectRpcRegex : regex :=
  Cat [Lit (js "url:"); Star (Chr is_space); Chr (only squote);
       Group 1 (Plus (Chr (except squote))); Chr (only squote)].

(** [doubleQuoteRpcRegex]: as [stringRpcRegex] with the double quote. *)
Definition doubleQuoteRpcRegex : regex :=
  Cat [Chr (only dquote); Group 1 (Plus (Chr (except dquote))); Chr (only dquote)].

(** The three [while] loops that fill [rpcUrls] from [rpcSection]. *)
Definition rpcUrls (rpcSection : jsstring) : list jsstring :=
  map (cap 1) (exec_loop stringRpcRegex rpcSection)
  ++ map (cap 1) (exec_loop objectRpcRegex rpcSection)
  ++ filter (fun url => startsWith url (js "http") && negb (includes url (js "privacy")))
       (map (cap 1) (exec_loop doubleQuoteRpcRegex rpcSection)).

(** [match && match[1]]: the capture, when the regex matches and the
    capture is not the empty string. *)
Definition rpcSection (text : jsstring) (chainIdStr : jsstring) : option jsstring :=
  match search (re_rpcs chainIdStr) text with
  | Some c => match cap 1 c with [] => None | section => Some section end
  | None => None
  end.

(** [chainIdToNetworkKey] and [networkKeyToChainId] *)
Definition chainIdToNetworkKey (chainIds : Obj.t jsstring) : Obj.t jsstring :=
  fold_left (fun o entry => Obj.assign (fst entry) (snd entry) o)
    (Obj.entries chainIds) Obj.empty.

Definition networkKeyToChainId (chainIds : Obj.t jsstring) : Obj.t number :=
  fold_left (fun o entry => Obj.assign (snd entry) (parseInt10 (fst entry)) o)
    (Obj.entries chainIds) Obj.empty.

Section RpcDiscovery.

(** [String.prototype.toUpperCase], the case mapping of the platform. *)
Variable toUpperCase : jsstring -> jsstring.

(** The [name] computed for a network key. *)
Definition network_name (text chainIdStr networkKey : jsstring) : jsstring :=
  match search (re_name chainIdStr) text with
  | Some nameMatch => cap 1 nameMatch
  | None => toUpperCase (charAt0 networkKey) ++ slice1 networkKey
  end.

(** [explorers[networkKey]], or the empty string after [||], read on the object built by
    [fetchChainData], where every network key met here is an own
    property. *)
Definition explorer_or_empty (explorers : Obj.t jsstring) (networkKey : jsstring)
  : jsstring :=
  match Obj.get networkKey explorers with
  | Some url => url
  | None => []
  end.

(** One turn of the [forEach] over [Object.entries(networkKeyToChainId)]. *)
Definition visit (explorers : Obj.t jsstring) (text : jsstring)
    (networksMap : NetworksMap) (entry : jsstring * number) : NetworksMap :=
  let networkKey := fst entry in
  let chainId := snd entry in
  let chainIdStr := number_toString chainId in
  match rpcSection text chainIdStr with
  | Some section =>
      let urls := rpcUrls section in
      let name := network_name text chainIdStr networkKey in
      if (0 <? List.length urls)%nat then
        Obj.assign networkKey
          {| name := name; chainId := chainId; rpcs := urls;
             blockExplorer := explorer_or_empty explorers networkKey |}
          networksMap
      else networksMap
  | None => networksMap
  end.

(** [networksMap], after the [forEach]. *)
Definition build_networksMap (chainIds explorers : Obj.t jsstring) (text : jsstring)
  : NetworksMap :=
  fold_left (visit explorers text) (Obj.entries (networkKeyToChainId chainIds))
    Obj.empty.

Definition fallbackNetworks : NetworksMap :=
  Obj.literal
    [(js "ethereum",
      mkNetworkInfo (js "Ethereum") (Int 1) [js "https://eth.llamarpc.com"]
        (js "https://etherscan.io/tx/"));
     (js "arbitrum",
      mkNetworkInfo (js "Arbitrum") (Int 42161) [js "https://arb.llamarpc.com"]
        (js "https://arbiscan.io/tx/"));
     (js "optimism",
      mkNetworkInfo (js "Optimism") (Int 10) [js "https://optimism.llamarpc.com"]
        (js "https://optimistic.etherscan.io/tx/"));
     (js "polygon",
      mkNetworkInfo (js "Polygon") (Int 137) [js "https://polygon.llamarpc.com"]
        (js "https://polygonscan.com/tx/"));
     (js "base",
      mkNetworkInfo (js "Base") (Int 8453) [js "https://base.llamarpc.com"]
        (js "https://basescan.org/tx/"))].

Definition fallbackRpcData : RpcData :=
  {| networks := fallbackNetworks;
     rpc_networkList :=
       [js "ethereum"; js "arbitrum"; js "optimism"; js "polygon"; js "base"] |}.

(** The entries of a mapping with values of any type, each value
    converted to the property key it is used as in
    [networkKeyToChainId[networkKey]]. *)
Fixpoint keyed (entries : list (jsstring * Json.json)) : M (list (jsstring * jsstring)) :=
  match entries with
  | [] => ret []
  | entry :: entries' =>
      networkKey <- Any.to_string (snd entry) ;;
      rest <- keyed entries' ;;
      ret ((fst entry, networkKey) :: rest)
  end.

(** [networksMap] built from such entries. *)
Definition loose_networksMap (entries : list (jsstring * jsstring))
    (explorers : Obj.t jsstring) (text : jsstring) : NetworksMap :=
  fold_left (visit explorers text)
    (Obj.entries
       (fold_left (fun o entry => Obj.assign (snd entry) (parseInt10 (fst entry)) o)
          entries Obj.empty))
    Obj.empty.

(** [w1] answers the request for [chainIds.js], [w2] the one for
    [extraRpcs.js]. *)
Definition fetchRpcData (w1 w2 : Fetch) : M RpcResult :=
  try_catch
    (cd <- fetchChainData w1 ;;
     response <- fetch w2 ;;
     if negb (fst response) then throw (Error (js "Failed to fetch RPC data"))
     else
       text <- text (snd response) ;;
       match cd with
       | Typed cd =>
           ret (TypedRpc
                  {| networks := build_networksMap (chainIds cd) (explorers cd) text;
                     rpc_networkList := networkList cd |})
       | Loose cd =>
           entries <- Any.entries (any_chainIds cd) ;;
           entries' <- keyed entries ;;
           ret (LooseRpc
                  {| any_networks := loose_networksMap entries' (any_explorers cd) text;
                     any_rpc_networkList := any_networkList cd |})
       end)
    (fun error =>
       console_error (js "Error fetching RPC data:") (Some error) ;;;
       ret (TypedRpc fallbackRpcData)).

End RpcDiscovery.

Close Scope Z_scope.

(** ** Vocabulary of the statements *)

(** The elements of a list in the order of their first occurrence. *)
Fixpoint distinct (l : list jsstring) : list jsstring :=
  match l with
  | [] => []
  | x :: l' => x :: filter (fun y => negb (str_eqb x y)) (distinct l')
  end.

(** The greedy star of a character class, written out: the longest run
    first, then shorter ones. *)
Fixpoint star_chr (p : char -> bool) (k : RegExp.cont) (s : jsstring)
    (c : RegExp.caps) : RegExp.result :=
  match s with
  | x :: s' =>
      if p x then
        match star_chr p k s' c with
        | Some res => Some res
        | None => k s c
        end
      else k s c
  | [] => k s c
  end.

(** A pattern source in which every character stands for itself: it
    has no point and no plus sign.  Such is the text of every number
    below 10^21. *)
Definition literal_source (source : jsstring) : bool :=
  forallb (fun x => negb (N.eqb x (chr ".")) && negb (N.eqb x (chr "+"))) source.

(** [recovered text n]: the URLs the loop body extracts for the chain
    ID [n], none when the regex of [n] has no match in [text]. *)
Definition recovered (text : jsstring) (n : number) : list jsstring :=
  match rpcSection text (number_toString n) with
  | Some section => rpcUrls section
  | None => []
  end.

(** The entry the loop body records for the network key [k] with the
    chain ID [n]. *)
Definition entry_for (toUpperCase : jsstring -> jsstring) (explorers : Obj.t jsstring)
    (text k : jsstring) (n : number) : NetworkInfo :=
  {| name := network_name toUpperCase text (number_toString n) k;
     chainId := n;
     rpcs := recovered text n;
     blockExplorer := explorer_or_empty explorers k |}.

(** ** Example inputs *)

(** A case mapping that covers the ASCII letters. *)
Definition ascii_upper (s : jsstring) : jsstring :=
  map (fun x => if ((97 <=? x) && (x <=? 122))%N then (x - 32)%N else x) s.

(** Two chain IDs with the same network key. *)
Definition shadow_mapping : Obj.t jsstring :=
  Obj.literal [(js "1", js "x"); (js "2", js "x")].



Definition ab_text : jsstring :=
  js "export const extraRpcs = { 1: { rpcs: ['https://a.example', 'https://b.example'] } };".

(** A mapping that names a network [__proto__]. *)
Definition proto_mapping : Obj.t jsstring :=
  Obj.literal [(js "1", js "ethereum"); (js "5", js "linea"); (js "9", js "__proto__")].

(** A fetched text with that mapping. *)
Definition proto_text : jsstring :=
  js "export default { 1: 'ethereum', 5: 'linea', 9: '__proto__' }".



(** No occurrence of the character [q]. *)
Definition free_of (q : char) (s : jsstring) : bool := forallb (RegExp.except q) s.


(** What [fetchChainData] returns when the mapping is empty. *)
Definition emptyChainData : ChainData :=
  {| chainIds := Obj.empty; explorers := Obj.empty; networkList := [] |}.

(** A fetched text whose only key is separated from its colon. *)
Definition spaced_key_text : jsstring := js "export default { 1 : 'ethereum' }".

(** ** Object literals the normalization handles

    The text of an object literal is described by its layout: for each
    property the filler before the key, the way the key is quoted, the
    filler after the colon, the way the value is quoted and the filler
    after the value; then whether a comma follows the last property,
    and the filler before the closing brace.  Filler is white space and
    line comments.  The colon follows the key directly. *)

Inductive filler : Type :=
| Blank (c : char)
| LineComment (body : jsstring).

Definition gap := list filler.

Inductive quoting : Type := Single | Double.

Definition quote_char (q : quoting) : char :=
  match q with
  | Single => RegExp.squote
  | Double => RegExp.dquote
  end.

Record property : Type := mkProperty {
  p_lead : gap;
  p_key_quote : option quoting;     (* [None]: a bare key *)
  p_key : jsstring;
  p_after_colon : gap;
  p_value_quote : quoting;
  p_value : jsstring;
  p_trail : gap
}.

Record literal : Type := mkLiteral {
  properties : list property;
  trailing_comma : bool;
  closing : gap
}.

(** How the pieces of a literal are written. *)
Record style : Type := mkStyle {
  show_filler : filler -> jsstring;
  show_key : property -> jsstring;
  show_value : property -> jsstring;
  show_trailing_comma : bool
}.

Definition show_gap (st : style) (g : gap) : jsstring := flat_map (show_filler st) g.

Definition layout_property (st : style) (p : property) : jsstring :=
  show_gap st (p_lead p) ++ show_key st p ++ js ":"
  ++ show_gap st (p_after_colon p) ++ show_value st p ++ show_gap st (p_trail p).

Definition layout_more (st : style) (ps : list property) : jsstring :=
  flat_map (fun p => js "," ++ layout_property st p) ps.

Definition layout_finish (st : style) (lit : literal) : jsstring :=
  (if trailing_comma lit && show_trailing_comma st then js "," else [])
  ++ show_gap st (closing lit) ++ js "}".

Definition layout (st : style) (lit : literal) : jsstring :=
  js "{"
  ++ match properties lit with
     | [] => []
     | p :: ps => layout_property st p ++ layout_more st ps
     end
  ++ layout_finish st lit.

Definition in_quotes (q : char) (s : jsstring) : jsstring := [q] ++ s ++ [q].

Definition source_filler (f : filler) : jsstring :=
  match f with
  | Blank c => [c]
  | LineComment body => js "//" ++ body ++ [10%N]
  end.

Definition bare_filler (f : filler) : jsstring :=
  match f with
  | Blank c => [c]
  | LineComment _ => [10%N]
  end.

Definition source_key (p : property) : jsstring :=
  match p_key_quote p with
  | None => p_key p
  | Some q => in_quotes (quote_char q) (p_key p)
  end.

Definition source_value (p : property) : jsstring :=
  in_quotes (quote_char (p_value_quote p)) (p_value p).

Definition json_key (p : property) : jsstring := in_quotes RegExp.dquote (p_key p).
Definition json_value (p : property) : jsstring := in_quotes RegExp.dquote (p_value p).

(** The literal as written in the fetched file, and after each of the
    four replacements. *)
Definition as_written : style := mkStyle source_filler source_key source_value true.
Definition without_comments : style := mkStyle bare_filler source_key source_value true.
Definition without_trailing_comma : style :=
  mkStyle bare_filler source_key source_value false.
Definition with_quoted_keys : style := mkStyle bare_filler json_key source_value false.
Definition as_json : style := mkStyle bare_filler json_key json_value false.

(** The key/value pairs a literal denotes, and the JSON document that
    states them directly. *)
Definition pairs_of (lit : literal) : list (jsstring * jsstring) :=
  map (fun p => (p_key p, p_value p)) (properties lit).

Definition json_member (kv : jsstring * jsstring) : jsstring :=
  in_quotes RegExp.dquote (fst kv) ++ js ":" ++ in_quotes RegExp.dquote (snd kv).

Definition json_document (kvs : list (jsstring * jsstring)) : jsstring :=
  js "{"
  ++ match kvs with
     | [] => []
     | kv :: kvs' => json_member kv ++ flat_map (fun kv' => js "," ++ json_member kv') kvs'
     end
  ++ js "}".

(** The object [JSON.parse] builds from such pairs. *)
Definition object_of (kvs : list (jsstring * jsstring)) : Json.json :=
  Json.JObject
    (fold_left (fun o kv => Obj.define (fst kv) (Json.JString (snd kv)) o) kvs Obj.empty).

(** Well-formedness.  Blanks are JSON white space; a comment runs to the
    end of its line; a key is a non-empty run of [[a-zA-Z0-9_]]; a
    value holds no quote, backslash, slash, colon, comma or control
    character. *)
Definition wf_filler (f : filler) : bool :=
  match f with
  | Blank c => Json.is_ws c
  | LineComment body => forallb RegExp.dot body
  end.

Definition plain_char (x : char) : bool :=
  (32 <=? x)%N
  && negb (N.eqb x RegExp.squote) && negb (N.eqb x RegExp.dquote)
  && negb (N.eqb x (chr "\")) && negb (N.eqb x (chr "/"))
  && negb (N.eqb x (chr ":")) && negb (N.eqb x (chr ",")).

Definition wf_property (p : property) : bool :=
  forallb wf_filler (p_lead p)
  && negb (Nat.eqb (List.length (p_key p)) 0) && forallb RegExp.is_word (p_key p)
  && forallb wf_filler (p_after_colon p)
  && forallb plain_char (p_value p)
  && forallb wf_filler (p_trail p).

Definition wf_literal (lit : literal) : bool :=
  forallb wf_property (properties lit)
  && forallb wf_filler (closing lit)
  && (negb (trailing_comma lit) || negb (Nat.eqb (List.length (properties lit)) 0)).

(** A file in the format of the fetched one: a bare key, a quoted key
    and a single-quoted key, a comment and a trailing comma. *)
Definition sample_literal : literal :=
  {| properties :=
       [mkProperty [Blank 10%N; Blank 32%N] None (js "1")
          [Blank 32%N] Single (js "ethereum") [];
        mkProperty [Blank 32%N; LineComment (js " layer 2"); Blank 32%N]
          (Some Double) (js "10") [] Double (js "optimism") [Blank 9%N];
        mkProperty [Blank 10%N] (Some Single) (js "137")
          [Blank 32%N] Single (js "polygon") []];
     trailing_comma := true;
     closing := [Blank 10%N] |}.

Definition sample_source : jsstring :=
  js "export default " ++ layout as_written sample_literal ++ js ";".

(** ** Auxiliary notions of the proofs *)

(** The part of the key regex after the optional opening quote, and the
    part after the run of word characters. *)
Definition key_rest : RegExp.regex :=
  RegExp.Seq (RegExp.Opt (RegExp.Group 3 (RegExp.Chr RegExp.is_quote)))
             (RegExp.Chr (RegExp.only (chr ":"))).

Definition key_tail : RegExp.regex :=
  RegExp.Seq (RegExp.Group 2 (RegExp.Plus (RegExp.Chr RegExp.is_word))) key_rest.

(** A text that does not start with a word character or a colon. *)
Definition calm (s : jsstring) : Prop :=
  match s with
  | [] => True
  | y :: _ => RegExp.is_word y = false /\ y <> chr ":"
  end.

(** [s'] is what remains of [s] after some prefix. *)
Definition suffix (s' s : jsstring) : Prop := exists pre, s = pre ++ s'.

(** A matcher only ever hands a suffix of its input to its continuation. *)
Definition forward (body : RegExp.cont -> RegExp.cont) : Prop :=
  forall k s c res, body k s c = Some res ->
    exists s' c', suffix s' s /\ k s' c' = Some res.

(** The fourth replacement, character by character. *)
Definition requote (s : jsstring) : jsstring :=
  map (fun x => if N.eqb x RegExp.squote then RegExp.dquote else x) s.

(** The literal without any filler, keys and values double-quoted: its
    JSON layout is the document that states the pairs directly. *)
Definition tight (kv : jsstring * jsstring) : property :=
  mkProperty [] (Some Double) (fst kv) [] Double (snd kv) [].

Definition tight_literal (kvs : list (jsstring * jsstring)) : literal :=
  {| properties := map tight kvs; trailing_comma := false; closing := [] |}.

(** One step of [JSON.parse] filling the object. *)
Definition add_member (o : Obj.t Json.json) (p : property) : Obj.t Json.json :=
  Obj.define (p_key p) (Json.JString (p_value p)) o.

(** A character that stands for itself inside a JSON string. *)
Definition literal_char (x : char) : bool :=
  negb (N.eqb x 34) && negb (N.eqb x 92) && negb (x <? 32)%N.

(** An object of strings as the JSON value it is. *)
Definition strings (o : Obj.t jsstring) : Obj.t Json.json :=
  map (fun p => (fst p, Json.JString (snd p))) o.

(** ** The React hook [useRpcData]

    The four pieces of state of the hook, and the effect that runs
    once after the first render.  A state setter replaces one piece;
    the state after the effect is the initial one with the updates
    applied in the order of the calls. *)

Module UseRpcData.

(** [networkList]: the list of [fetchRpcData], of strings as declared
    or of the values the mapping had. *)
Inductive NetworkList : Type :=
| Names (list_ : list jsstring)
| Values (list_ : list Json.json).

Record State : Type := mkState {
  networksData : option NetworksMap;
  networkList : NetworkList;
  loading : bool;
  error : option JsError
}.

(** The arguments of the four [useState] calls. *)
Definition initial : State :=
  {| networksData := None; networkList := Names []; loading := true; error := None |}.

Definition setNetworksData (v : option NetworksMap) (s : State) : State :=
  {| networksData := v; networkList := networkList s; loading := loading s;
     error := error s |}.

Definition setNetworkList (v : NetworkList) (s : State) : State :=
  {| networksData := networksData s; networkList := v; loading := loading s;
     error := error s |}.

Definition setLoading (v : bool) (s : State) : State :=
  {| networksData := networksData s; networkList := networkList s; loading := v;
     error := error s |}.

Definition setError (v : option JsError) (s : State) : State :=
  {| networksData := networksData s; networkList := networkList s; loading := loading s;
     error := v |}.

(** [err instanceof Error]: every error of this development is one. *)
Definition instanceof_Error (err : JsError) : bool := true.

(** The two properties read from the result of [fetchRpcData]. *)
Definition networks_of (result : RpcResult) : NetworksMap :=
  match result with
  | TypedRpc data => networks data
  | LooseRpc data => any_networks data
  end.

Definition networkList_of (result : RpcResult) : NetworkList :=
  match result with
  | TypedRpc data => Names (rpc_networkList data)
  | LooseRpc data => Values (any_rpc_networkList data)
  end.

Section Effect.
Variable toUpperCase : jsstring -> jsstring.

(** [loadRpcData], with its [try], [catch] and [finally]. *)
Definition loadRpcData (w1 w2 : Fetch) (s : State) : M State :=
  s' <- try_catch
          (result <- fetchRpcData toUpperCase w1 w2 ;;
           ret (setNetworkList (networkList_of result)
                  (setNetworksData (Some (networks_of result)) s)))
          (fun err =>
             ret (setError
                    (Some (if instanceof_Error err then err
                           else Error (js "Failed to load RPC data")))
                    s)) ;;
  ret (setLoading false s').

End Effect.

End UseRpcData.

(** ** The unit converter: [formatFixedNumber] and the input handlers *)

(** The assertion [$] without the [m] flag, as the last item of a
    pattern: the match must reach the end of the input. *)
Definition at_end : RegExp.cont :=
  fun s c => match s with [] => Some (s, c) | _ :: _ => None end.

(** A match attempt at the front of [s] for the regex [r] followed by
    [$]. *)
Definition match_to_end (r : RegExp.regex) (s : jsstring) : RegExp.result :=
  RegExp.m r at_end s [].

(** [s.replace(r, template)] for a regex without the [g] flag: the
    leftmost match is replaced, the rest is kept.  [attempt] is the
    match attempt of the regex at a position. *)
Fixpoint replace_first (attempt : jsstring -> RegExp.result) (f : RegExp.caps -> jsstring)
    (s : jsstring) : jsstring :=
  match attempt s with
  | Some (rest, c) => f c ++ rest
  | None =>
      match s with
      | [] => []
      | x :: s' => x :: replace_first attempt f s'
      end
  end.

(** [/0+$/] *)
Definition re_zeros : RegExp.regex := RegExp.Plus (RegExp.Chr (RegExp.only (chr "0"))).

(** [s.split(x)] for a one-character separator [x]: the pieces between
    the occurrences of [x]; there is always at least one piece. *)
Fixpoint split (s : jsstring) (x : char) : list jsstring :=
  match s with
  | [] => [[]]
  | y :: s' =>
      if N.eqb y x then [] :: split s' x
      else match split s' x with
           | piece :: pieces => (y :: piece) :: pieces
           | [] => [[y]]
           end
  end.

(** [s.slice(0, e)] for an integer [e]: a negative [e] counts from the
    end of the string. *)
Definition slice0 (s : jsstring) (e : Z) : jsstring :=
  let len := Z.of_nat (List.length s) in
  let final := if (e <? 0)%Z then Z.max (len + e) 0 else Z.min e len in
  firstn (Z.to_nat final) s.

(** [s.slice(0, e)] for a number [e] (ToIntegerOrInfinity: [NaN] and
    minus zero count as zero, an infinity as beyond the string).  The
    numbers of this development have no fractional part; the handlers
    pass 9, 18 and 6. *)
Definition slice_number (s : jsstring) (e : number) : jsstring :=
  match e with
  | NaN => slice0 s 0
  | MinusZero => slice0 s 0
  | Int z => slice0 s z
  | Infinity negative => if negative then [] else s
  end.

(** [s.indexOf(x, from)] for a one-character [x] *)
Definition indexOf_at (s : jsstring) (x : char) (from : Z) : Z :=
  let start := Z.min (Z.max from 0) (Z.of_nat (List.length s)) in
  indexOf_from start x (skipn (Z.to_nat start) s).

Definition formatFixedNumber (numStr : jsstring) (decimals : number) : jsstring :=
  match numStr with
  | [] => []
  | _ :: _ =>
      if negb (includes numStr (js ".")) then numStr
      else
        let parts := split numStr (chr ".") in
        let integerPart := nth 0 parts [] in
        let fractionPart := nth 1 parts [] in
        let trimmedFraction := slice_number fractionPart decimals in
        let trimmedFraction :=
          replace_first (match_to_end re_zeros) (fun _ => []) trimmedFraction in
        match trimmedFraction with
        | [] => integerPart
        | _ :: _ => integerPart ++ js "." ++ trimmedFraction
        end
  end.

(** [[^0-9.]] *)
Definition not_digit_or_dot (x : char) : bool :=
  negb (Obj.is_digit x || N.eqb x (chr ".")).

(** The first lines of both input handlers: [inputValue] after the
    characters other than digits and dots are removed and the text is
    cut before a second dot. *)
Definition inputValue (value : jsstring) : jsstring :=
  let inputValue := RegExp.replace (RegExp.Chr not_digit_or_dot) (fun _ => []) value in
  let dotIndex := indexOf inputValue (chr ".") in
  if negb (dotIndex =? -1)%Z then
    let secondDotIndex := indexOf_at inputValue (chr ".") (dotIndex + 1) in
    if negb (secondDotIndex =? -1)%Z then slice0 inputValue secondDotIndex
    else inputValue
  else inputValue.

(** Vocabulary for the converter: the part of [s] before the first
    [x] and the part after it; a text without its trailing zeros. *)
Fixpoint upto (x : char) (s : jsstring) : jsstring :=
  match s with
  | [] => []
  | y :: s' => if N.eqb y x then [] else y :: upto x s'
  end.

Fixpoint after (x : char) (s : jsstring) : jsstring :=
  match s with
  | [] => []
  | y :: s' => if N.eqb y x then s' else after x s'
  end.

Definition is_zero : char -> bool := RegExp.only (chr "0").

Fixpoint strip_zeros (s : jsstring) : jsstring :=
  match s with
  | [] => []
  | x :: s' => if forallb is_zero s then [] else x :: strip_zeros s'
  end.

(** The digits of a decimal text read with [d] fractional digits: the
    fraction is cut or filled with zeros to [d] digits.  [scaled] is
    the integer they denote, the amount in units of 10^-d. *)
Definition digits_at (d : nat) (s : jsstring) : jsstring :=
  upto (chr ".") s
  ++ firstn d (upto (chr ".") (after (chr ".") s) ++ repeat (chr "0") d).

Definition scaled (d : nat) (s : jsstring) : N := Obj.decimal (digits_at d s).

(** ** Further example inputs *)

(** What [fetchRpcData] returns when the chain metadata cannot be
    fetched and the RPC list is the example of the specification: the
    fallback mapping is used, and only chain 1 has an entry. *)
Definition ab_entry : NetworkInfo :=
  mkNetworkInfo (js "Ethereum") (Int 1) [js "https://a.example"; js "https://b.example"]
    (js "https://etherscan.io/tx/").

Definition ab_data : RpcData :=
  {| networks := [(js "ethereum", ab_entry)];
     rpc_networkList :=
       [js "ethereum"; js "arbitrum"; js "optimism"; js "polygon"; js "base"] |}.

(* ===================================================================== *)
(** * Part II.  Properties                                                *)
(* ===================================================================== *)

(** ** Strings *)

Lemma str_eqb_spec (a b : jsstring) : str_eqb a b = true <-> a = b.
Proof.
  revert b; induction a as [|x a IH]; intros [|y b]; simpl; split;
    try congruence; try reflexivity.
  - intros H. apply andb_true_iff in H as [H1 H2].
    apply N.eqb_eq in H1. apply IH in H2. congruence.
  - intros H. injection H as -> ->. rewrite N.eqb_refl. simpl. now apply IH.
Qed.

Lemma str_eqb_refl (a : jsstring) : str_eqb a a = true.
Proof. now apply str_eqb_spec. Qed.

Lemma str_eqb_neq (a b : jsstring) : str_eqb a b = false <-> a <> b.
Proof.
  split.
  - intros H E. apply str_eqb_spec in E. congruence.
  - intros H. destruct (str_eqb a b) eqn:E; [|reflexivity].
    apply str_eqb_spec in E. contradiction.
Qed.

Lemma str_eqb_sym (a b : jsstring) : str_eqb a b = str_eqb b a.
Proof.
  destruct (str_eqb a b) eqn:E; symmetry.
  - apply str_eqb_spec in E. subst. apply str_eqb_refl.
  - apply str_eqb_neq. apply str_eqb_neq in E. congruence.
Qed.

(** ** Objects *)

Module ObjFacts.
Import Obj.

Section Facts.
Context {V : Type}.
Implicit Types (o : Obj.t V) (k : jsstring) (v : V).

Lemma get_app k o1 o2 :
  get k (o1 ++ o2) = match get k o1 with Some v => Some v | None => get k o2 end.
Proof.
  induction o1 as [|[k' v'] o1 IH]; simpl; [reflexivity|].
  destruct (str_eqb k' k); [reflexivity | exact IH].
Qed.

Lemma get_update_eq k v o : has k o = true -> get k (update k v o) = Some v.
Proof.
  unfold has. induction o as [|[k' v'] o IH]; simpl; [discriminate|].
  destruct (str_eqb k' k) eqn:E; simpl; rewrite E; [reflexivity | exact IH].
Qed.

Lemma get_update_ne k k' v o : k <> k' -> get k' (update k v o) = get k' o.
Proof.
  intros Hne. induction o as [|[k0 v0] o IH]; simpl; [reflexivity|].
  destruct (str_eqb k0 k) eqn:E; simpl.
  - apply str_eqb_spec in E. subst k0.
    apply str_eqb_neq in Hne. now rewrite Hne.
  - destruct (str_eqb k0 k'); [reflexivity | exact IH].
Qed.

Lemma get_define_eq k v o : get k (define k v o) = Some v.
Proof.
  unfold define. destruct (has k o) eqn:E.
  - now apply get_update_eq.
  - rewrite get_app. unfold has in E. destruct (get k o); [discriminate|].
    simpl. now rewrite str_eqb_refl.
Qed.

Lemma get_define_ne k k' v o : k <> k' -> get k' (define k v o) = get k' o.
Proof.
  intros Hne. unfold define. destruct (has k o).
  - now apply get_update_ne.
  - rewrite get_app. destruct (get k' o); [reflexivity|].
    simpl. apply str_eqb_neq in Hne. now rewrite Hne.
Qed.

Lemma assign_proto v o : assign proto v o = o.
Proof. unfold assign. now rewrite str_eqb_refl. Qed.

Lemma assign_define k v o : k <> proto -> assign k v o = define k v o.
Proof. intros H. unfold assign. apply str_eqb_neq in H. now rewrite H. Qed.

Lemma get_assign_eq k v o : k <> proto -> get k (assign k v o) = Some v.
Proof. intros H. rewrite assign_define by exact H. apply get_define_eq. Qed.

Lemma get_assign_ne k k' v o : k <> k' -> get k' (assign k v o) = get k' o.
Proof.
  intros H. unfold assign. destruct (str_eqb k proto); [reflexivity|].
  now apply get_define_ne.
Qed.

Lemma get_Some_In k v o : get k o = Some v -> In (k, v) o.
Proof.
  induction o as [|[k' v'] o IH]; simpl; [discriminate|].
  destruct (str_eqb k' k) eqn:E.
  - intros H; injection H as ->. apply str_eqb_spec in E. subst. now left.
  - intros H. right. now apply IH.
Qed.

Lemma get_None_notin k o : get k o = None -> ~ In k (map fst o).
Proof.
  induction o as [|[k' v'] o IH]; simpl; [tauto|].
  destruct (str_eqb k' k) eqn:E; [discriminate|].
  intros H [->|Hin].
  - now rewrite str_eqb_refl in E.
  - now apply IH.
Qed.

Lemma In_get k v o : NoDup (map fst o) -> In (k, v) o -> get k o = Some v.
Proof.
  induction o as [|[k' v'] o IH]; simpl; [tauto|].
  intros Hnd [H|H].
  - injection H as -> ->. now rewrite str_eqb_refl.
  - inversion Hnd as [|? ? Hnotin Hnd']; subst.
    destruct (str_eqb k' k) eqn:E.
    + apply str_eqb_spec in E. subst k'. exfalso. apply Hnotin.
      change k with (fst (k, v)). now apply in_map.
    + now apply IH.
Qed.

Lemma keys_update k v o : map fst (update k v o) = map fst o.
Proof.
  induction o as [|[k' v'] o IH]; simpl; [reflexivity|].
  destruct (str_eqb k' k); simpl; [reflexivity | now rewrite IH].
Qed.

Lemma keys_define k v o :
  map fst (define k v o) = if has k o then map fst o else map fst o ++ [k].
Proof.
  unfold define. destruct (has k o).
  - apply keys_update.
  - now rewrite map_app.
Qed.

Lemma NoDup_define k v o : NoDup (map fst o) -> NoDup (map fst (define k v o)).
Proof.
  intros H. rewrite keys_define. destruct (has k o) eqn:E; [exact H|].
  unfold has in E. destruct (get k o) eqn:G; [discriminate|].
  apply get_None_notin in G.
  apply NoDup_rev in H. rewrite <- (rev_involutive (map fst o ++ [k])).
  apply NoDup_rev. rewrite rev_app_distr. simpl. constructor; [|exact H].
  now rewrite <- in_rev.
Qed.

Lemma NoDup_assign k v o : NoDup (map fst o) -> NoDup (map fst (assign k v o)).
Proof.
  intros H. unfold assign. destruct (str_eqb k proto); [exact H|].
  now apply NoDup_define.
Qed.

(** Enumeration lists every own property once. *)
Lemma insert_index_perm i (p : jsstring * V) l :
  Permutation (map snd (insert_index i p l)) (p :: map snd l).
Proof.
  induction l as [|[j q] l IH]; simpl; [apply Permutation_refl|].
  destruct (i <=? j)%N; simpl; [apply Permutation_refl|].
  eapply perm_trans; [apply perm_skip, IH | apply perm_swap].
Qed.

Lemma entries_perm o : Permutation (entries o) o.
Proof.
  unfold entries, string_props.
  induction o as [|[k v] o IH]; simpl; [apply Permutation_refl|].
  destruct (array_index k); simpl.
  - eapply perm_trans.
    + apply Permutation_app_tail. apply insert_index_perm.
    + simpl. now apply perm_skip.
  - eapply perm_trans; [apply Permutation_sym, Permutation_middle|].
    now apply perm_skip.
Qed.

Lemma In_entries (p : jsstring * V) o : In p (entries o) <-> In p o.
Proof.
  split; apply Permutation_in; [|apply Permutation_sym]; apply entries_perm.
Qed.

Lemma NoDup_keys o : NoDup (map fst o) -> NoDup (keys o).
Proof.
  intros H. unfold keys.
  eapply Permutation_NoDup; [|exact H].
  apply Permutation_map, Permutation_sym, entries_perm.
Qed.

Lemma In_values v o : In v (values o) <-> exists k, In (k, v) o.
Proof.
  unfold values. rewrite in_map_iff. split.
  - intros [[k v'] [E H]]. simpl in E. subst. exists k. now apply In_entries.
  - intros [k H]. exists (k, v). split; [reflexivity|]. now apply In_entries.
Qed.

End Facts.

End ObjFacts.

(** ** The liveness prober *)

Module ProbeFacts.
Import Probe.

#[local] Arguments ok : simpl never.

Lemma ok_iff (st : nat) : ok {| status := st |} = true <-> 200 <= st <= 299.
Proof.
  unfold ok. cbn [status]. rewrite andb_true_iff, !Nat.leb_le. reflexivity.
Qed.

(** A probe ends in one of two ways: fulfilled with its own URL, or
    rejected with the error built in its [catch] block. *)
Lemma probe_cases (b : Net) (rpc : jsstring) :
  outcome (probe b rpc) = Fulfilled rpc
  \/ outcome (probe b rpc) = Rejected (Error (js "RPC " ++ rpc ++ js " failed")).
Proof.
  destruct b as [t st| t |]; unfold probe, try_catch, bind; simpl.
  - destruct (ok {| status := st |}); simpl; auto.
  - auto.
  - auto.
Qed.

(** It is fulfilled exactly when a response with a 2xx status came
    before the abort timer. *)
Lemma probe_fulfilled_iff (b : Net) (rpc : jsstring) :
  outcome (probe b rpc) = Fulfilled rpc
  <-> exists t st, b = Responds t st /\ 200 <= st <= 299.
Proof.
  split.
  - destruct b as [t st| t |]; unfold probe, try_catch, bind; simpl.
    + destruct (ok {| status := st |}) eqn:E; simpl; [|discriminate].
      intros _. exists t, st. split; [reflexivity|]. now apply ok_iff.
    + discriminate.
    + discriminate.
  - intros (t & st & -> & H1 & H2). unfold probe, try_catch, bind; simpl.
    assert (E : ok {| status := st |} = true) by (apply ok_iff; lia).
    rewrite E. reflexivity.
Qed.

Lemma results_from_length net i0 rpcs :
  List.length (results_from net i0 rpcs) = List.length rpcs.
Proof.
  unfold results_from. rewrite length_map.
  revert i0; induction rpcs as [|r rpcs IH]; intros i0; simpl; [reflexivity|].
  now rewrite IH.
Qed.

Lemma first_fulfilled_found net i0 rpcs i rpc :
  nth_error rpcs i = Some rpc ->
  outcome (probe (net (i0 + i) rpc) rpc) = Fulfilled rpc ->
  (forall j rpc', j < i -> nth_error rpcs j = Some rpc' ->
                  outcome (probe (net (i0 + j) rpc') rpc') <> Fulfilled rpc') ->
  first_fulfilled (results_from net i0 rpcs) = Some rpc.
Proof.
  unfold results_from.
  revert i0 i; induction rpcs as [|r rpcs IH]; intros i0 [|i] H Hok Hbefore;
    simpl in *; try discriminate.
  - injection H as ->. rewrite Nat.add_0_r in Hok.
    unfold settle. now rewrite Hok.
  - assert (Hr : outcome (probe (net i0 r) r) <> Fulfilled r).
    { specialize (Hbefore 0 r). rewrite Nat.add_0_r in Hbefore.
      apply Hbefore; [lia | reflexivity]. }
    unfold settle at 1.
    destruct (probe_cases (net i0 r) r) as [E|E]; [contradiction|].
    rewrite E. apply (IH (S i0) i H).
    + now replace (S i0 + i) with (i0 + S i) by lia.
    + intros j rpc' Hj Hn. replace (S i0 + j) with (i0 + S j) by lia.
      apply Hbefore; [lia | exact Hn].
Qed.

Lemma first_fulfilled_none net i0 rpcs :
  (forall j rpc', nth_error rpcs j = Some rpc' ->
                  outcome (probe (net (i0 + j) rpc') rpc') <> Fulfilled rpc') ->
  first_fulfilled (results_from net i0 rpcs) = None.
Proof.
  unfold results_from.
  revert i0; induction rpcs as [|r rpcs IH]; intros i0 Hall; simpl; [reflexivity|].
  assert (Hr : outcome (probe (net i0 r) r) <> Fulfilled r).
  { specialize (Hall 0 r). rewrite Nat.add_0_r in Hall. now apply Hall. }
  unfold settle at 1.
  destruct (probe_cases (net i0 r) r) as [E|E]; [contradiction|].
  rewrite E. apply IH. intros j rpc' Hn.
  replace (S i0 + j) with (i0 + S j) by lia. now apply Hall.
Qed.

Lemma resumed_after_each net i0 rpcs i rpc :
  nth_error rpcs i = Some rpc ->
  settles_at (net (i0 + i) rpc)
  <= fold_right Nat.max 0
       (map when (mapi_from i0 (fun i rpc => mkStarted (settles_at (net i rpc))
                                                (probe (net i rpc) rpc)) rpcs)).
Proof.
  revert i0 i; induction rpcs as [|r rpcs IH]; intros i0 [|i] H; simpl in *;
    try discriminate.
  - injection H as ->. rewrite Nat.add_0_r. lia.
  - specialize (IH (S i0) i H).
    replace (i0 + S i) with (S i0 + i) by lia. lia.
Qed.

(** The outcome of a call, in terms of the settled results. *)
Lemma findWorkingRpc_outcome net first rest :
  outcome (result (findWorkingRpc net (first :: rest))) =
  match first_fulfilled (results_from net 0 (first :: rest)) with
  | Some v => Fulfilled v
  | None => Fulfilled first
  end.
Proof.
  unfold findWorkingRpc, allSettled, start_all. cbn [result resumed_at written testResults].
  change (map (fun p => settle (run p)) _) with (results_from net 0 (first :: rest)).
  destruct (first_fulfilled (results_from net 0 (first :: rest))); reflexivity.
Qed.

End ProbeFacts.

Module ProbeClaims.
Import Probe ProbeFacts.

Lemma results_from_ext net net' i0 rpcs :
  (forall i rpc, nth_error rpcs i = Some rpc ->
     outcome (probe (net' (i0 + i) rpc) rpc) = outcome (probe (net (i0 + i) rpc) rpc)) ->
  results_from net' i0 rpcs = results_from net i0 rpcs.
Proof.
  unfold results_from.
  revert i0; induction rpcs as [|r rpcs IH]; intros i0 H; simpl; [reflexivity|].
  f_equal.
  - unfold settle. specialize (H 0 r eq_refl). rewrite Nat.add_0_r in H. now rewrite H.
  - apply IH. intros i rpc Hn. replace (S i0 + i) with (i0 + S i) by lia.
    now apply H.
Qed.

End ProbeClaims.

(** C1.  For a non-empty list of candidates, [findWorkingRpc] waits for
    every probe: [Promise.allSettled] yields one settled result per
    candidate and the call resumes no earlier than any probe settles.
    It then returns the URL of the first candidate, by position in the
    input, whose probe was fulfilled; which probes were fulfilled alone
    decides the result, not how fast they were. *)
Theorem findWorkingRpc_first_success_by_position :
  forall (net : nat -> jsstring -> Probe.Net) (rpcs : list jsstring),
    rpcs <> [] ->
    List.length (Probe.testResults (Probe.allSettled (Probe.start_all net rpcs)))
      = List.length rpcs
    /\ (forall i rpc, nth_error rpcs i = Some rpc ->
          Probe.settles_at (net i rpc) <= Probe.settled_at (Probe.findWorkingRpc net rpcs))
    /\ (forall i rpc,
          nth_error rpcs i = Some rpc ->
          outcome (Probe.probe (net i rpc) rpc) = Fulfilled rpc ->
          (forall j rpc', j < i -> nth_error rpcs j = Some rpc' ->
             outcome (Probe.probe (net j rpc') rpc') <> Fulfilled rpc') ->
          outcome (Probe.result (Probe.findWorkingRpc net rpcs)) = Fulfilled rpc)
    /\ (forall net' : nat -> jsstring -> Probe.Net,
          (forall i rpc, nth_error rpcs i = Some rpc ->
             outcome (Probe.probe (net' i rpc) rpc) = outcome (Probe.probe (net i rpc) rpc)) ->
          outcome (Probe.result (Probe.findWorkingRpc net' rpcs))
          = outcome (Probe.result (Probe.findWorkingRpc net rpcs))).
Proof.
  intros net [|first rest] Hne; [contradiction|]. repeat split.
  - apply (ProbeFacts.results_from_length net 0 (first :: rest)).
  - intros i rpc Hn.
    apply (ProbeFacts.resumed_after_each net 0 (first :: rest) i Hn).
  - intros i rpc Hn Hok Hbefore.
    rewrite ProbeFacts.findWorkingRpc_outcome.
    now rewrite (@ProbeFacts.first_fulfilled_found net 0 (first :: rest) i rpc Hn Hok Hbefore).
  - intros net' Hsame.
    rewrite !ProbeFacts.findWorkingRpc_outcome.
    now rewrite (@ProbeClaims.results_from_ext net net' 0 (first :: rest) Hsame).
Qed.

Lemma findWorkingRpc_first_success_by_position_witness :
  Probe.u123 <> []
  /\ outcome (Probe.result (Probe.findWorkingRpc Probe.only_u2_answers Probe.u123))
     = Fulfilled (js "u2").
Proof.
  assert (Hne : Probe.u123 <> []) by discriminate.
  split; [exact Hne|].
  destruct (findWorkingRpc_first_success_by_position Probe.only_u2_answers Hne)
    as (_ & _ & H & _).
  apply (H 1 (js "u2")).
  - reflexivity.
  - reflexivity.
  - intros j rpc' Hj Hn. destruct j as [|[|j]]; [|lia|lia].
    injection Hn as <-. discriminate.
Defined.

(** C2.  For a non-empty list of candidates whose probes all fail,
    [findWorkingRpc] does not reject: its promise is fulfilled with the
    first candidate of the input, unchanged, and the last line it wrote
    to the console is the warning that all RPCs failed. *)
Theorem findWorkingRpc_all_failed_returns_first :
  forall (net : nat -> jsstring -> Probe.Net) (first : jsstring) (rest : list jsstring),
    (forall i rpc, nth_error (first :: rest) i = Some rpc ->
       outcome (Probe.probe (net i rpc) rpc) <> Fulfilled rpc) ->
    outcome (Probe.result (Probe.findWorkingRpc net (first :: rest))) = Fulfilled first
    /\ exists earlier,
         console (Probe.result (Probe.findWorkingRpc net (first :: rest)))
         = earlier ++ [mkLog Warn (js "All RPCs failed, using fallback") None].
Proof.
  intros net first rest Hall.
  assert (Hnone : Probe.first_fulfilled (Probe.results_from net 0 (first :: rest)) = None).
  { apply ProbeFacts.first_fulfilled_none. intros j rpc' Hn. now apply Hall. }
  split.
  - rewrite ProbeFacts.findWorkingRpc_outcome. now rewrite Hnone.
  - unfold Probe.findWorkingRpc, Probe.allSettled, Probe.start_all.
    cbn [Probe.result Probe.resumed_at Probe.written Probe.testResults].
    change (map (fun p => Probe.settle (Probe.run p)) _)
      with (Probe.results_from net 0 (first :: rest)).
    rewrite Hnone. unfold bind. cbn [outcome console console_warn ret].
    rewrite app_nil_r. eexists. reflexivity.
Qed.

Lemma findWorkingRpc_all_failed_returns_first_witness :
  outcome (Probe.result (Probe.findWorkingRpc Probe.nobody_answers Probe.u12))
  = Fulfilled (js "u1").
Proof.
  refine (proj1 (@findWorkingRpc_all_failed_returns_first Probe.nobody_answers
                   (js "u1") [js "u2"] _)).
  intros i rpc Hn. destruct i as [|[|i]].
  - injection Hn as <-. discriminate.
  - injection Hn as <-. discriminate.
  - destruct i; discriminate.
Defined.

(** C3.  Called with no candidate, [findWorkingRpc] rejects with the
    error [No RPCs provided]; and whenever a call rejects, the list of
    candidates was empty. *)
Theorem findWorkingRpc_rejects_exactly_on_empty :
  forall (net : nat -> jsstring -> Probe.Net) (rpcs : list jsstring),
    outcome (Probe.result (Probe.findWorkingRpc net [])) = Rejected (Error (js "No RPCs provided"))
    /\ ((exists e, outcome (Probe.result (Probe.findWorkingRpc net rpcs)) = Rejected e)
        <-> rpcs = []).
Proof.
  intros net rpcs. split; [reflexivity|]. split.
  - intros [e He]. destruct rpcs as [|first rest]; [reflexivity|].
    rewrite ProbeFacts.findWorkingRpc_outcome in He.
    destruct (Probe.first_fulfilled _); discriminate.
  - intros ->. eexists. reflexivity.
Qed.

(** ** The prioritized network list *)

Module ListFacts.

Lemma has_In x s : JsSet.has x s = true <-> In x s.
Proof.
  unfold JsSet.has. rewrite existsb_exists. split.
  - intros [y [Hy E]]. apply str_eqb_spec in E. now subst.
  - intros H. exists x. split; [exact H | apply str_eqb_refl].
Qed.

Lemma has_app x s1 s2 : JsSet.has x (s1 ++ s2) = JsSet.has x s1 || JsSet.has x s2.
Proof. unfold JsSet.has. apply existsb_app. Qed.

Lemma arr_includes_In arr x : arr_includes arr x = true <-> In x arr.
Proof. apply has_In. Qed.

Lemma filter_filter {A} (f g : A -> bool) l :
  filter f (filter g l) = filter (fun x => g x && f x) l.
Proof.
  induction l as [|a l IH]; simpl; [reflexivity|].
  destruct (g a); simpl; [destruct (f a)|]; now rewrite IH.
Qed.

Lemma In_distinct x l : In x (distinct l) <-> In x l.
Proof.
  induction l as [|y l IH]; simpl; [tauto|].
  rewrite filter_In, IH, negb_true_iff, str_eqb_neq. split.
  - intros [H|[H _]]; auto.
  - intros [H|H]; auto.
    destruct (list_eq_dec N.eq_dec y x); auto.
Qed.

Lemma NoDup_distinct l : NoDup (distinct l).
Proof.
  induction l as [|y l IH]; simpl; constructor.
  - rewrite filter_In, negb_true_iff, str_eqb_neq. tauto.
  - now apply NoDup_filter.
Qed.

(** The set built by the [forEach] holds the values in the order of
    their first occurrence. *)
Lemma fold_add l acc :
  fold_left (fun set value => JsSet.add value set) l acc
  = acc ++ filter (fun y => negb (JsSet.has y acc)) (distinct l).
Proof.
  revert acc; induction l as [|x l IH]; intros acc; simpl.
  - now rewrite app_nil_r.
  - rewrite IH. unfold JsSet.add. destruct (JsSet.has x acc) eqn:E; simpl.
    + f_equal. rewrite filter_filter. apply filter_ext_in. intros y _.
      destruct (str_eqb x y) eqn:Exy; simpl; [|reflexivity].
      apply str_eqb_spec in Exy. subst y. now rewrite E.
    + rewrite <- app_assoc. simpl. do 2 f_equal.
      rewrite filter_filter. apply filter_ext. intros y.
      rewrite has_app. unfold JsSet.has at 2. simpl.
      rewrite orb_false_r, negb_orb, (str_eqb_sym y x). apply andb_comm.
Qed.

Lemma allNetworks_distinct chainIds :
  allNetworks chainIds = distinct (Obj.values chainIds).
Proof.
  unfold allNetworks. rewrite fold_add. simpl.
  induction (distinct (Obj.values chainIds)); simpl; congruence.
Qed.

Lemma NoDup_popularNetworks : NoDup popularNetworks.
Proof.
  unfold popularNetworks.
  repeat (constructor; [simpl; intuition discriminate|]). constructor.
Qed.

End ListFacts.

(** C6.  For every chain-ID mapping the network list has no duplicate;
    it holds exactly the network keys that occur as values; it starts
    with the keys of the ten popular networks that occur (in the order
    of the fixed list) and continues with all the other keys, in the
    order in which enumeration of the mapping first meets them. *)
Theorem networkList_popular_first_without_duplicates :
  forall chainIds : Obj.t jsstring,
    NoDup (build_networkList chainIds)
    /\ List.length popularNetworks = 10
    /\ (forall x, In x (build_networkList chainIds) <-> In x (Obj.values chainIds))
    /\ exists popular others,
         build_networkList chainIds = popular ++ others
         /\ (forall x, In x popular <-> In x popularNetworks /\ In x (Obj.values chainIds))
         /\ (forall x, In x others -> ~ In x popularNetworks)
         /\ others = filter (fun network => negb (arr_includes popularNetworks network))
                       (distinct (Obj.values chainIds)).
Proof.
  intros chainIds. unfold build_networkList.
  rewrite ListFacts.allNetworks_distinct.
  set (present := Obj.values chainIds).
  assert (Hpop : forall x,
             In x (filter (fun network => JsSet.has network (distinct present)) popularNetworks)
             <-> In x popularNetworks /\ In x present).
  { intros x. now rewrite filter_In, ListFacts.has_In, ListFacts.In_distinct. }
  assert (Hoth : forall x,
             In x (filter (fun network => negb (arr_includes popularNetworks network))
                     (distinct present))
             <-> In x present /\ ~ In x popularNetworks).
  { intros x. rewrite filter_In, ListFacts.In_distinct, negb_true_iff.
    rewrite <- (ListFacts.arr_includes_In popularNetworks x).
    destruct (arr_includes popularNetworks x); split; intros [H1 H2].
    - discriminate.
    - exfalso. now apply H2.
    - split; [exact H1 | discriminate].
    - split; [exact H1 | reflexivity]. }
  split; [|split; [reflexivity|split]].
  - apply NoDup_app.
    + apply NoDup_filter, ListFacts.NoDup_popularNetworks.
    + apply NoDup_filter, ListFacts.NoDup_distinct.
    + intros x H1 H2. apply Hpop in H1. apply Hoth in H2. tauto.
  - intros x. rewrite in_app_iff, Hpop, Hoth.
    destruct (in_dec (list_eq_dec N.eq_dec) x popularNetworks); tauto.
  - eexists _, _. split; [reflexivity|]. split; [exact Hpop|]. split; [|reflexivity].
    intros x H. now apply Hoth in H.
Qed.

(** ** The explorer map *)

Module ExplorerFacts.
Import Obj ObjFacts.

Abbreviation step :=
  (fun (explorers : Obj.t jsstring) (entry : jsstring * jsstring) =>
     let network := snd entry in
     Obj.assign network (explorer_url network) explorers).

Lemma explorers_keep l o0 k :
  get k o0 = Some (explorer_url k) ->
  get k (fold_left step l o0) = Some (explorer_url k).
Proof.
  revert o0; induction l as [|[c n] l IH]; intros o0 H; simpl; [exact H|].
  apply IH. destruct (list_eq_dec N.eq_dec n k) as [->|Hne].
  - unfold assign. destruct (str_eqb k proto); [exact H | apply get_define_eq].
  - now rewrite get_assign_ne.
Qed.

Lemma explorers_set l o0 k :
  k <> proto -> In k (map snd l) ->
  get k (fold_left step l o0) = Some (explorer_url k).
Proof.
  intros Hp. revert o0; induction l as [|[c n] l IH]; intros o0 Hin; simpl in *;
    [contradiction|].
  destruct (list_eq_dec N.eq_dec n k) as [->|Hne].
  - apply explorers_keep. now apply get_assign_eq.
  - apply IH. destruct Hin; [contradiction | assumption].
Qed.

Lemma explorers_inv l o0 k v :
  get k (fold_left step l o0) = Some v ->
  get k o0 = Some v \/ (In k (map snd l) /\ k <> proto /\ v = explorer_url k).
Proof.
  revert o0; induction l as [|[c n] l IH]; intros o0 H; simpl in *; [now left|].
  apply IH in H as [H|(Hin & Hp & Hv)]; [|right; tauto].
  destruct (list_eq_dec N.eq_dec n k) as [->|Hne].
  - destruct (list_eq_dec N.eq_dec k proto) as [->|Hp].
    + rewrite assign_proto in H. now left.
    + rewrite get_assign_eq in H by exact Hp. injection H as <-. right. auto.
  - rewrite get_assign_ne in H by exact Hne. now left.
Qed.

(** Outside the ten names of the [if] chain, the URL is synthesized. *)
Lemma explorer_url_other network :
  ~ In network popularNetworks ->
  explorer_url network = js "https://" ++ network ++ js "scan.com/tx/".
Proof.
  intros H. unfold explorer_url.
  repeat match goal with
  | |- context [str_eqb network ?lit] =>
      destruct (str_eqb network lit) eqn:?E;
      [ apply str_eqb_spec in E; exfalso; apply H; rewrite E; simpl; tauto | clear E ]
  end.
  reflexivity.
Qed.

End ExplorerFacts.

(** X1.  The explorer map away from the reserved name.  On the success path
    the explorer map has an entry exactly for the network keys that
    occur as values of the mapping, the reserved name [__proto__] apart
    (assigning to it creates no property).  The entry of one of the ten names of the
    [if] chain is its known explorer; the entry of any other key is
    [https://] + key + [scan.com/tx/]. *)
Theorem explorers_known_or_synthesized :
  forall (chainIds : Obj.t jsstring) (network : jsstring),
    In network (Obj.values chainIds) ->
    network <> Obj.proto ->
    exists url,
      Obj.get network (build_explorers chainIds) = Some url
      /\ (network = js "ethereum" -> url = js "https://etherscan.io/tx/")
      /\ (network = js "binance" -> url = js "https://bscscan.com/tx/")
      /\ (network = js "polygon" -> url = js "https://polygonscan.com/tx/")
      /\ (network = js "arbitrum" -> url = js "https://arbiscan.io/tx/")
      /\ (network = js "optimism" -> url = js "https://optimistic.etherscan.io/tx/")
      /\ (network = js "base" -> url = js "https://basescan.org/tx/")
      /\ (network = js "avalanche" -> url = js "https://snowtrace.io/tx/")
      /\ (network = js "fantom" -> url = js "https://ftmscan.com/tx/")
      /\ (network = js "gnosis" -> url = js "https://gnosisscan.io/tx/")
      /\ (network = js "zksync" -> url = js "https://explorer.zksync.io/tx/")
      /\ (~ In network popularNetworks ->
          url = js "https://" ++ network ++ js "scan.com/tx/")
      /\ (forall other url', Obj.get other (build_explorers chainIds) = Some url' ->
            In other (Obj.values chainIds) /\ other <> Obj.proto).
Proof.
  intros chainIds network Hin Hp. exists (explorer_url network).
  split.
  { unfold build_explorers. apply ExplorerFacts.explorers_set; [exact Hp|].
    exact Hin. }
  repeat (split; [intros ->; reflexivity|]).
  split; [apply ExplorerFacts.explorer_url_other|].
  intros other url' H. unfold build_explorers in H.
  apply ExplorerFacts.explorers_inv in H as [H|(H1 & H2 & _)]; [discriminate|].
  split; assumption.
Qed.

(** ** The regular-expression matcher *)

Module RegExpFacts.
Import RegExp.

Lemma m_Lit (lit : jsstring) (k : cont) (s : jsstring) (c : caps) :
  m (Lit lit) k s c =
  match strip_prefix lit s with
  | Some rest => k rest c
  | None => None
  end.
Proof.
  revert s; induction lit as [|x lit IH]; intros s; simpl; [reflexivity|].
  destruct s as [|y s]; [reflexivity|].
  unfold only. destruct (N.eqb x y); [apply IH | reflexivity].
Qed.

Lemma iterate_Chr (p : char -> bool) (k : cont) (fuel : nat) (s : jsstring) (c : caps) :
  List.length s <= fuel ->
  iterate (m (Chr p)) k fuel s c = star_chr p k s c.
Proof.
  revert s; induction fuel as [|fuel IH]; intros s H.
  - destruct s; [reflexivity | simpl in H; lia].
  - destruct s as [|x s]; [reflexivity|].
    cbn [iterate m star_chr]. destruct (p x); [|reflexivity].
    replace (List.length s <? List.length (x :: s)) with true
      by (symmetry; apply Nat.ltb_lt; simpl; lia).
    rewrite IH by (simpl in H; lia). reflexivity.
Qed.

Lemma m_Star_Chr (p : char -> bool) (k : cont) (s : jsstring) (c : caps) :
  m (Star (Chr p)) k s c = star_chr p k s c.
Proof. cbn [m]. now apply iterate_Chr. Qed.

(** The run a greedy star takes when the continuation accepts after it. *)
Lemma star_chr_longest (p : char -> bool) (k : cont) (a b : jsstring) (c : caps) res :
  forallb p a = true ->
  match b with [] => True | y :: _ => p y = false end ->
  k b c = Some res ->
  star_chr p k (a ++ b) c = Some res.
Proof.
  intros Ha Hb Hk. induction a as [|x a IH]; simpl in *.
  - destruct b as [|y b]; simpl; [exact Hk|]. now rewrite Hb.
  - apply andb_true_iff in Ha as [Hx Ha]. rewrite Hx. now rewrite IH.
Qed.

(** When the continuation refuses every point inside the run, the
    star hands the end of the run to it. *)
Lemma star_chr_exact (p : char -> bool) (k : cont) (a b : jsstring) (c : caps) :
  forallb p a = true ->
  match b with [] => True | y :: _ => p y = false end ->
  (forall a1 x a2, a = a1 ++ x :: a2 -> k (x :: a2 ++ b) c = None) ->
  star_chr p k (a ++ b) c = k b c.
Proof.
  intros Ha Hb Hk. induction a as [|x a IH]; simpl in *.
  - destruct b as [|y b]; simpl; [reflexivity|]. now rewrite Hb.
  - apply andb_true_iff in Ha as [Hx Ha]. rewrite Hx.
    rewrite IH; [|exact Ha|].
    + destruct (k b c); [reflexivity|]. apply (Hk [] x a eq_refl).
    + intros a1 y a2 E. apply (Hk (x :: a1) y a2). now rewrite E.
Qed.

Lemma suffix_refl s : suffix s s.
Proof. now exists []. Qed.

Lemma suffix_cons x s' s : suffix s' s -> suffix s' (x :: s).
Proof. intros [pre ->]. now exists (x :: pre). Qed.

Lemma suffix_trans s1 s2 s3 : suffix s1 s2 -> suffix s2 s3 -> suffix s1 s3.
Proof. intros [p1 ->] [p2 ->]. exists (p2 ++ p1). now rewrite app_assoc. Qed.

Lemma suffix_length s' s : suffix s' s -> List.length s' <= List.length s.
Proof. intros [pre ->]. rewrite length_app. lia. Qed.

Lemma iterate_forward body fuel : forward body -> forward (fun k => iterate body k fuel).
Proof.
  intros Hb. induction fuel as [|fuel IH]; intros k s c res H; simpl in H.
  - exists s, c. split; [apply suffix_refl | exact H].
  - destruct (body _ s c) eqn:E.
    + injection H as ->. apply Hb in E as (s1 & c1 & Hs1 & E).
      destruct (List.length s1 <? List.length s); [|discriminate].
      apply IH in E as (s2 & c2 & Hs2 & E).
      exists s2, c2. split; [eapply suffix_trans; eassumption | exact E].
    + exists s, c. split; [apply suffix_refl | exact H].
Qed.

Lemma m_forward r : forward (m r).
Proof.
  induction r as [p| |r1 IH1 r2 IH2|r1 IH1 r2 IH2|r1 IH1|n r1 IH1|];
    intros k s c res H; cbn [m] in H.
  - destruct s as [|x s]; [discriminate|]. destruct (p x); [|discriminate].
    exists s, c. split; [apply suffix_cons, suffix_refl | exact H].
  - exists s, c. split; [apply suffix_refl | exact H].
  - apply IH1 in H as (s1 & c1 & Hs1 & H). apply IH2 in H as (s2 & c2 & Hs2 & H).
    exists s2, c2. split; [eapply suffix_trans; eassumption | exact H].
  - destruct (m r1 k s c) eqn:E.
    + injection H as ->. now apply IH1 in E.
    + now apply IH2 in H.
  - now apply (iterate_forward (List.length s) IH1) in H.
  - apply IH1 in H as (s1 & c1 & Hs1 & H). eauto.
  - exists s, c. split; [apply suffix_refl|].
    destruct s as [|x s]; [exact H|]. destruct (is_line_terminator x); [exact H | discriminate].
Qed.

Lemma match_at_suffix r s rest c : match_at r s = Some (rest, c) -> suffix rest s.
Proof.
  unfold match_at. intros H. apply m_forward in H as (s' & c' & Hs & H).
  injection H as -> ->. exact Hs.
Qed.

Lemma match_at_length r s rest c :
  match_at r s = Some (rest, c) -> List.length rest <= List.length s.
Proof. intros H. apply suffix_length. eapply match_at_suffix; eassumption. Qed.

(** The fuel given to the two loops over matches is enough. *)
Lemma replace_from_fuel r f n1 n2 s :
  List.length s < n1 -> List.length s < n2 ->
  replace_from n1 r f s = replace_from n2 r f s.
Proof.
  revert n2 s; induction n1 as [|n1 IH]; intros [|n2] s H1 H2; try lia.
  cbn [replace_from].
  assert (Hstep : match s with [] => [] | x :: s' => x :: replace_from n1 r f s' end
                = match s with [] => [] | x :: s' => x :: replace_from n2 r f s' end).
  { destruct s as [|x s]; [reflexivity|]. f_equal. apply IH; simpl in *; lia. }
  destruct (match_at r s) as [[rest c]|] eqn:E; [|exact Hstep].
  destruct (List.length rest <? List.length s) eqn:L; [|now rewrite Hstep].
  apply Nat.ltb_lt in L. f_equal. apply IH; lia.
Qed.

Lemma replace_from_S r f n s :
  replace_from (S n) r f s =
  match match_at r s with
  | Some (rest, c) =>
      if List.length rest <? List.length s then f c ++ replace_from n r f rest
      else f c ++ match s with [] => [] | x :: s' => x :: replace_from n r f s' end
  | None => match s with [] => [] | x :: s' => x :: replace_from n r f s' end
  end.
Proof. reflexivity. Qed.

Lemma replace_nil r f : match_at r [] = None -> replace r f [] = [].
Proof. intros H. unfold replace. rewrite replace_from_S. now rewrite H. Qed.

Lemma replace_skip r f x s :
  match_at r (x :: s) = None -> replace r f (x :: s) = x :: replace r f s.
Proof. intros H. unfold replace. rewrite replace_from_S. now rewrite H. Qed.

Lemma replace_match r f s rest c :
  match_at r s = Some (rest, c) -> List.length rest < List.length s ->
  replace r f s = f c ++ replace r f rest.
Proof.
  intros H L. unfold replace. rewrite replace_from_S, H.
  apply Nat.ltb_lt in L as L'. rewrite L'. f_equal.
  apply replace_from_fuel; lia.
Qed.









End RegExpFacts.

(** ** RPC discovery *)

Module DiscoveryFacts.
Import Obj ObjFacts.

Abbreviation invert :=
  (fun (o : Obj.t number) (entry : jsstring * jsstring) =>
     Obj.assign (snd entry) (parseInt10 (fst entry)) o).

Lemma invert_notin l o0 k :
  ~ In k (map snd l) -> get k (fold_left invert l o0) = get k o0.
Proof.
  revert o0; induction l as [|[c x] l IH]; intros o0 H; simpl in *; [reflexivity|].
  rewrite IH by tauto. apply get_assign_ne. tauto.
Qed.

Lemma invert_proto l o0 : get proto (fold_left invert l o0) = get proto o0.
Proof.
  revert o0; induction l as [|[c x] l IH]; intros o0; simpl; [reflexivity|].
  rewrite IH. destruct (list_eq_dec N.eq_dec x proto) as [->|Hne].
  - now rewrite assign_proto.
  - now apply get_assign_ne.
Qed.

(** The chain ID kept for a network key is that of the last pair with
    this key. *)
Lemma invert_last l o0 k c before after :
  k <> proto -> l = before ++ (c, k) :: after -> ~ In k (map snd after) ->
  get k (fold_left invert l o0) = Some (parseInt10 c).
Proof.
  intros Hp -> Hafter. rewrite fold_left_app. simpl.
  rewrite invert_notin by exact Hafter. now apply get_assign_eq.
Qed.

Lemma invert_inv l o0 k n :
  get k (fold_left invert l o0) = Some n ->
  (get k o0 = Some n /\ (k = proto \/ ~ In k (map snd l)))
  \/ (k <> proto /\ exists before c after,
        l = before ++ (c, k) :: after /\ ~ In k (map snd after) /\ n = parseInt10 c).
Proof.
  revert o0; induction l as [|[c0 x] l IH]; intros o0 H; simpl in *; [left; tauto|].
  apply IH in H as [[H Hl]|(Hp & before & c & after & -> & Hafter & ->)].
  - destruct (list_eq_dec N.eq_dec x k) as [->|Hne].
    + destruct (list_eq_dec N.eq_dec k proto) as [->|Hp].
      * rewrite assign_proto in H. left. tauto.
      * rewrite get_assign_eq in H by exact Hp. injection H as <-.
        right. split; [exact Hp|]. exists [], c0, l.
        repeat split. tauto.
    + rewrite get_assign_ne in H by exact Hne. left. tauto.
  - right. split; [exact Hp|]. exists ((c0, x) :: before), c, after. auto.
Qed.

Lemma invert_NoDup l o0 :
  NoDup (map fst o0) -> NoDup (map fst (fold_left invert l o0)).
Proof.
  revert o0; induction l as [|[c x] l IH]; intros o0 H; simpl; [exact H|].
  apply IH. now apply NoDup_assign.
Qed.

(** What the inversion keeps: for each network key other than
    [__proto__], the chain ID of the last pair that has it. *)
Lemma kept_spec chainIds k n :
  get k (networkKeyToChainId chainIds) = Some n <->
  k <> proto /\ exists before c after,
    Obj.entries chainIds = before ++ (c, k) :: after
    /\ ~ In k (map snd after) /\ n = parseInt10 c.
Proof.
  unfold networkKeyToChainId. split.
  - intros H. apply invert_inv in H as [[H _]|H]; [discriminate | exact H].
  - intros (Hp & before & c & after & E & Hafter & ->).
    eapply invert_last; eassumption.
Qed.

Lemma kept_NoDup chainIds : NoDup (map fst (networkKeyToChainId chainIds)).
Proof. apply invert_NoDup. constructor. Qed.

Lemma kept_entries chainIds k n :
  In (k, n) (Obj.entries (networkKeyToChainId chainIds))
  <-> get k (networkKeyToChainId chainIds) = Some n.
Proof.
  rewrite In_entries. split.
  - apply In_get, kept_NoDup.
  - apply get_Some_In.
Qed.

Section Visit.
Variable toUpperCase : jsstring -> jsstring.
Variables (explorers : Obj.t jsstring) (text : jsstring).

Lemma visit_spec nm k n :
  visit toUpperCase explorers text nm (k, n) =
  match recovered text n with
  | [] => nm
  | _ :: _ => assign k (entry_for toUpperCase explorers text k n) nm
  end.
Proof.
  unfold visit, recovered, entry_for, recovered. cbn [fst snd].
  destruct (rpcSection text (number_toString n)) as [section|]; [|reflexivity].
  destruct (rpcUrls section); reflexivity.
Qed.

Lemma visit_other nm k n k' :
  k <> k' -> get k' (visit toUpperCase explorers text nm (k, n)) = get k' nm.
Proof.
  intros H. rewrite visit_spec. destruct (recovered text n); [reflexivity|].
  now apply get_assign_ne.
Qed.

Lemma visits_notin E nm k :
  ~ In k (map fst E) ->
  get k (fold_left (visit toUpperCase explorers text) E nm) = get k nm.
Proof.
  revert nm; induction E as [|[k0 n0] E IH]; intros nm H; simpl in *; [reflexivity|].
  rewrite IH by tauto. apply visit_other. tauto.
Qed.

Lemma visits_found E nm k n :
  NoDup (map fst E) -> In (k, n) E -> k <> proto -> recovered text n <> [] ->
  get k (fold_left (visit toUpperCase explorers text) E nm)
  = Some (entry_for toUpperCase explorers text k n).
Proof.
  revert nm; induction E as [|[k0 n0] E IH]; intros nm Hnd Hin Hp Hrec; simpl in *;
    [contradiction|].
  inversion Hnd as [|? ? Hnotin Hnd']; subst.
  destruct Hin as [E0|Hin].
  - injection E0 as -> ->. rewrite visits_notin by exact Hnotin.
    rewrite visit_spec. destruct (recovered text n); [contradiction|].
    now apply get_assign_eq.
  - now apply IH.
Qed.

Lemma visits_empty E nm k n :
  NoDup (map fst E) -> In (k, n) E -> recovered text n = [] ->
  get k (fold_left (visit toUpperCase explorers text) E nm) = get k nm.
Proof.
  revert nm; induction E as [|[k0 n0] E IH]; intros nm Hnd Hin Hrec; simpl in *;
    [contradiction|].
  inversion Hnd as [|? ? Hnotin Hnd']; subst.
  destruct Hin as [E0|Hin].
  - injection E0 as -> ->. rewrite visits_notin by exact Hnotin.
    rewrite visit_spec. now rewrite Hrec.
  - rewrite IH by assumption. apply visit_other.
    intros ->. apply Hnotin. change k with (fst (k, n)). now apply in_map.
Qed.

Lemma visits_NoDup E nm :
  NoDup (map fst nm) ->
  NoDup (map fst (fold_left (visit toUpperCase explorers text) E nm)).
Proof.
  revert nm; induction E as [|[k0 n0] E IH]; intros nm H; simpl; [exact H|].
  apply IH. rewrite visit_spec. destruct (recovered text n0); [exact H|].
  now apply NoDup_assign.
Qed.

(** The entries of the map, in terms of what the inversion kept. *)
Lemma networksMap_get chainIds k :
  get k (build_networksMap toUpperCase chainIds explorers text) =
  match get k (networkKeyToChainId chainIds) with
  | Some n =>
      match recovered text n with
      | [] => None
      | _ :: _ => Some (entry_for toUpperCase explorers text k n)
      end
  | None => None
  end.
Proof.
  unfold build_networksMap.
  assert (Hnd : NoDup (map fst (Obj.entries (networkKeyToChainId chainIds)))).
  { apply NoDup_keys, kept_NoDup. }
  destruct (get k (networkKeyToChainId chainIds)) as [n|] eqn:G.
  - assert (Hp : k <> proto).
    { intros ->. unfold networkKeyToChainId in G. rewrite invert_proto in G. discriminate. }
    apply kept_entries in G.
    destruct (recovered text n) eqn:R.
    + now rewrite visits_empty with (n := n).
    + rewrite visits_found with (n := n); try assumption; [reflexivity|]. now rewrite R.
  - rewrite visits_notin; [reflexivity|].
    intros Hin. apply in_map_iff in Hin as [[k' n] [E Hin]]. simpl in E. subst k'.
    apply kept_entries in Hin. congruence.
Qed.

Lemma networksMap_NoDup chainIds :
  NoDup (map fst (build_networksMap toUpperCase chainIds explorers text)).
Proof. apply visits_NoDup. constructor. Qed.

End Visit.



End DiscoveryFacts.

Module DiscoveryClaims.
Import Obj ObjFacts DiscoveryFacts.


(** On the success path [fetchRpcData] returns the map built by the
    loop, from the mapping and the explorers of [fetchChainData]. *)
Lemma fetchRpcData_networks toUpperCase w1 cd text :
  outcome (fetchChainData w1) = Fulfilled (Typed cd) ->
  outcome (fetchRpcData toUpperCase w1 (Response true (Text text)))
  = Fulfilled
      (TypedRpc
         {| networks := build_networksMap toUpperCase (chainIds cd) (explorers cd) text;
            rpc_networkList := networkList cd |}).
Proof.
  intros H. unfold fetchRpcData, try_catch, bind. rewrite H. reflexivity.
Qed.

End DiscoveryClaims.

(** C10.  For every chain-ID mapping, the map built by the loop of
    [fetchRpcData] has at most one entry per network key, and the
    [chainId] of the entry of a key is read from the last pair of the
    mapping, in enumeration order, that has this key: the pairs before
    it with the same key leave no trace. *)
Theorem networksMap_one_entry_per_key_with_last_chain_id :
  forall (toUpperCase : jsstring -> jsstring) (chainIds explorers : Obj.t jsstring)
         (text : jsstring),
    NoDup (Obj.keys (build_networksMap toUpperCase chainIds explorers text))
    /\ forall k info,
         In (k, info) (Obj.entries (build_networksMap toUpperCase chainIds explorers text)) ->
         exists before c after,
           Obj.entries chainIds = before ++ (c, k) :: after
           /\ ~ In k (map snd after)
           /\ chainId info = parseInt10 c.
Proof.
  intros toUpperCase chainIds explorers text. split.
  - apply ObjFacts.NoDup_keys, DiscoveryFacts.networksMap_NoDup.
  - intros k info Hin. apply (proj1 (ObjFacts.In_entries _ _)) in Hin.
    apply ObjFacts.In_get in Hin; [|apply DiscoveryFacts.networksMap_NoDup].
    rewrite DiscoveryFacts.networksMap_get in Hin.
    destruct (Obj.get k (networkKeyToChainId chainIds)) as [n|] eqn:G; [|discriminate].
    apply DiscoveryFacts.kept_spec in G as (_ & before & c & after & E & Hafter & ->).
    destruct (recovered text (parseInt10 c)); [discriminate|].
    injection Hin as <-. exists before, c, after. auto.
Qed.

Lemma networksMap_one_entry_per_key_with_last_chain_id_witness :
  exists info,
    In (js "x", info)
       (Obj.entries (build_networksMap ascii_upper shadow_mapping Obj.empty
                       (js "2: { rpcs: ['https://b.example'] }")))
    /\ chainId info = Int 2.
Proof.
  exists (mkNetworkInfo (js "X") (Int 2) [js "https://b.example"] []).
  assert (Hin : In (js "x", mkNetworkInfo (js "X") (Int 2) [js "https://b.example"] [])
                  (Obj.entries (build_networksMap ascii_upper shadow_mapping Obj.empty
                                  (js "2: { rpcs: ['https://b.example'] }")))).
  { vm_compute. left. reflexivity. }
  split; [exact Hin|].
  destruct (networksMap_one_entry_per_key_with_last_chain_id ascii_upper shadow_mapping
              Obj.empty (js "2: { rpcs: ['https://b.example'] }")) as [_ H].
  destruct (H (js "x") _ Hin) as (before & c & after & E & Hafter & Hc).
  reflexivity.
Defined.




Lemma explorers_known_or_synthesized_witness :
  Obj.get (js "linea") (build_explorers proto_mapping) = Some (js "https://lineascan.com/tx/")
  /\ Obj.get (js "ethereum") (build_explorers proto_mapping) = Some (js "https://etherscan.io/tx/").
Proof.
  split.
  - destruct (@explorers_known_or_synthesized proto_mapping (js "linea"))
      as (url & Hget & _ & _ & _ & _ & _ & _ & _ & _ & _ & _ & Hother & _).
    + vm_compute. tauto.
    + discriminate.
    + rewrite Hget. f_equal. apply Hother.
      vm_compute. intuition discriminate.
  - destruct (@explorers_known_or_synthesized proto_mapping (js "ethereum"))
      as (url & Hget & H & _).
    + vm_compute. tauto.
    + discriminate.
    + rewrite Hget. f_equal. now apply H.
Defined.

(** The statement without the exception fails for a network called
    [__proto__]: it is present in the mapping and is none of the ten
    names, yet the explorer map gets no entry for it. *)
Lemma explorers_proto_counterexample :
  ~ (forall (chainIds : Obj.t jsstring) (network : jsstring),
       In network (Obj.values chainIds) ->
       ~ In network popularNetworks ->
       Obj.get network (build_explorers chainIds)
       = Some (js "https://" ++ network ++ js "scan.com/tx/")).
Proof.
  intros H. specialize (H proto_mapping Obj.proto).
  assert (E : Obj.get Obj.proto (build_explorers proto_mapping) = None) by reflexivity.
  rewrite E in H. 
  assert (Hin : In Obj.proto (Obj.values proto_mapping)) by (vm_compute; tauto).
  assert (Hnot : ~ In Obj.proto popularNetworks) by (vm_compute; intuition discriminate).
  specialize (H Hin Hnot). discriminate.
Qed.

(** C9 on a fetched text that names a network [__proto__].  The text is
    fetched and parsed, the mapping has the key 9 with the network
    [__proto__], which is none of the ten well-known names, and the
    explorer map returned has the known explorer of [ethereum] and the
    synthesized one of [linea] but no entry for [__proto__]: the
    assignment [explorers[network] = ...] creates no property under
    that name. *)
Theorem fetchChainData_proto_network_without_explorer :
  exists cd,
    outcome (fetchChainData (Response true (Text proto_text))) = Fulfilled (Typed cd)
    /\ chainIds cd = proto_mapping
    /\ In Obj.proto (Obj.values (chainIds cd))
    /\ ~ In Obj.proto popularNetworks
    /\ Obj.get (js "ethereum") (explorers cd) = Some (js "https://etherscan.io/tx/")
    /\ Obj.get (js "linea") (explorers cd) = Some (js "https://lineascan.com/tx/")
    /\ Obj.get Obj.proto (explorers cd) = None
    /\ Obj.keys (explorers cd) = [js "ethereum"; js "linea"].
Proof.
  eexists. split; [vm_compute; reflexivity|].
  split; [reflexivity|].
  split; [vm_compute; tauto|].
  split; [vm_compute; intuition discriminate|].
  repeat split; reflexivity.
Qed.

(** ** Extraction of the URLs of one [rpcs] array *)

Module UrlFacts.
Import RegExp RegExpFacts.



(** A capture group around [p+]. *)
Lemma m_Group_Plus_Chr n p k s c :
  m (Group n (Plus (Chr p))) k s c =
  match s with
  | x :: s1 =>
      if p x then
        star_chr p (fun s' c' => k s' (set_cap n (firstn (List.length s - List.length s') s) c'))
          s1 c
      else None
  | [] => None
  end.
Proof.
  unfold Plus. cbn [m]. destruct s as [|x s1]; [reflexivity|].
  destruct (p x); [|reflexivity]. apply iterate_Chr. lia.
Qed.

Lemma firstn_app_exact {A} (a b : list A) n : n = List.length a -> firstn n (a ++ b) = a.
Proof.
  intros ->. rewrite firstn_app, Nat.sub_diag, firstn_all. simpl. apply app_nil_r.
Qed.















Lemma strip_prefix_same p s : strip_prefix p (p ++ s) = Some s.
Proof.
  induction p as [|x p IH]; simpl; [reflexivity|]. now rewrite N.eqb_refl.
Qed.

Lemma m_Seq r1 r2 k : m (Seq r1 r2) k = m r1 (m r2 k).
Proof. reflexivity. Qed.

Lemma m_Group n r k s c :
  m (Group n r) k s c
  = m r (fun s' c' => k s' (set_cap n (firstn (List.length s - List.length s') s) c')) s c.
Proof. reflexivity. Qed.

Lemma m_Chr_hit (q : char) k s c : m (Chr (only q)) k (q :: s) c = k s c.
Proof. cbn [m]. unfold only. now rewrite N.eqb_refl. Qed.



Lemma free_of_app q a b : free_of q (a ++ b) = free_of q a && free_of q b.
Proof. apply forallb_app. Qed.



End UrlFacts.



(** ** Chain metadata: the failure paths *)

Module ChainDataFacts.

(** Whatever the [try] block does, the call is fulfilled: what the
    block throws is caught, and the handler returns the fallback. *)
Lemma fetchChainData_cases w :
  exists result, outcome (fetchChainData w) = Fulfilled result.
Proof.
  unfold fetchChainData.
  match goal with |- context [try_catch ?b ?h] => set (body := b) end.
  unfold try_catch. destruct (outcome body) eqn:E.
  - rewrite E. eauto.
  - unfold bind. cbn. eauto.
Qed.

(** [extractObject] with its [try] and [catch] worked out. *)
Lemma extractObject_unfold content :
  extractObject content =
  if ((indexOf content (chr "{") =? -1) || (lastIndexOf content (chr "}") + 1 =? -1))%Z
  then mkM [mkLog Err (js "Failed to extract object:")
              (Some (Error (js "Could not extract object from content")))]
           (Fulfilled (Json.JObject Obj.empty))
  else match Json.parse (jsonStr (objStr content)) with
       | Some v => ret v
       | None => mkM [mkLog Err (js "Failed to extract object:")
                        (Some (SyntaxError (js "Unexpected token")))]
                     (Fulfilled (Json.JObject Obj.empty))
       end.
Proof.
  unfold extractObject.
  destruct ((indexOf content (chr "{") =? -1)%Z
            || (lastIndexOf content (chr "}") + 1 =? -1)%Z); [reflexivity|].
  unfold JSON_parse. destruct (Json.parse (jsonStr (objStr content))); reflexivity.
Qed.

(** [extractObject] never throws: its [catch] returns the empty object. *)
Lemma extractObject_cases content :
  (exists v, extractObject content = ret v)
  \/ (exists e, extractObject content =
                mkM [mkLog Err (js "Failed to extract object:") (Some e)]
                    (Fulfilled (Json.JObject Obj.empty))).
Proof.
  rewrite extractObject_unfold.
  destruct ((indexOf content (chr "{") =? -1)%Z
            || (lastIndexOf content (chr "}") + 1 =? -1)%Z); [right; eauto|].
  destruct (Json.parse (jsonStr (objStr content))); [left | right]; eauto.
Qed.

Lemma extractObject_no_brace content :
  indexOf content (chr "{") = (-1)%Z ->
  outcome (extractObject content) = Fulfilled (Json.JObject Obj.empty).
Proof. intros H. rewrite extractObject_unfold, H. reflexivity. Qed.

Lemma lastIndexOf_from_ge i x s found :
  (-1 <= found)%Z -> (0 <= i)%Z -> (-1 <= lastIndexOf_from i x s found)%Z.
Proof.
  revert i found; induction s as [|y s IH]; intros i found Hf Hi; simpl; [exact Hf|].
  apply IH; [|lia]. destruct (N.eqb y x); lia.
Qed.

Lemma lastIndexOf_succ content x : (lastIndexOf content x + 1 =? -1)%Z = false.
Proof.
  apply Z.eqb_neq. pose proof (@lastIndexOf_from_ge 0%Z x content (-1)%Z).
  unfold lastIndexOf. lia.
Qed.

Lemma extractObject_parse_error content :
  indexOf content (chr "{") <> (-1)%Z ->
  Json.parse (jsonStr (objStr content)) = None ->
  outcome (extractObject content) = Fulfilled (Json.JObject Obj.empty).
Proof.
  intros H1 H2. rewrite extractObject_unfold.
  apply Z.eqb_neq in H1. rewrite H1, lastIndexOf_succ, H2. reflexivity.
Qed.

End ChainDataFacts.

(** C5, as the code has it.  [fetchChainData] never rejects: whatever
    the request does and whatever the fetched text holds, the call is
    fulfilled.  When the
    request fails, the response is not ok or its body cannot be read,
    it logs the error and returns the hardcoded fallback, whose mapping
    has exactly the five entries 1, 10, 137, 8453 and 42161.  When the
    text was fetched but has no opening brace or its slice does not
    parse, [extractObject] returns the empty object and [fetchChainData]
    returns an empty mapping, empty explorers and an empty list: not
    the fallback.  A slice that parses to [null] does reach the
    fallback. *)
Theorem fetchChainData_never_rejects_fallback_on_fetch_failure :
  forall w : Fetch,
    (exists result, outcome (fetchChainData w) = Fulfilled result)
    /\ (forall e, outcome (fetchChainData w) <> Rejected e)
    /\ (w = FetchFails \/ (exists body, w = Response false body) \/ w = Response true BodyFails ->
        outcome (fetchChainData w) = Fulfilled (Typed fallbackChainData)
        /\ exists e, console (fetchChainData w)
                     = [mkLog Err (js "Error fetching chain data:") (Some e)])
    /\ Obj.entries (chainIds fallbackChainData)
       = [(js "1", js "ethereum"); (js "10", js "optimism"); (js "137", js "polygon");
          (js "8453", js "base"); (js "42161", js "arbitrum")]
    /\ (forall content, w = Response true (Text content) ->
          indexOf content (chr "{") = (-1)%Z \/ Json.parse (jsonStr (objStr content)) = None ->
          outcome (fetchChainData w) = Fulfilled (Typed emptyChainData))
    /\ (forall content, w = Response true (Text content) ->
          outcome (extractObject content) = Fulfilled Json.JNull ->
          outcome (fetchChainData w) = Fulfilled (Typed fallbackChainData)).
Proof.
  intros w. split; [|split; [|split; [|split; [|split]]]].
  - apply ChainDataFacts.fetchChainData_cases.
  - intros e H. destruct (ChainDataFacts.fetchChainData_cases w) as [cd E]. congruence.
  - intros [->|[[body ->]| ->]]; cbn; eauto.
  - reflexivity.
  - intros content -> H.
    assert (E : outcome (extractObject content) = Fulfilled (Json.JObject Obj.empty)).
    { destruct (Z.eq_dec (indexOf content (chr "{")) (-1)) as [H0|H0].
      - now apply ChainDataFacts.extractObject_no_brace.
      - destruct H as [H|H]; [contradiction|].
        now apply ChainDataFacts.extractObject_parse_error. }
    unfold fetchChainData, try_catch, bind. cbn [fetch text outcome console ret fst snd negb].
    rewrite E. reflexivity.
  - intros content -> E.
    unfold fetchChainData, try_catch, bind. cbn [fetch text outcome console ret fst snd negb].
    rewrite E. reflexivity.
Qed.

Lemma fetchChainData_never_rejects_fallback_on_fetch_failure_witness :
  outcome (fetchChainData (Response false (Text (js "404: Not Found"))))
  = Fulfilled (Typed fallbackChainData)
  /\ outcome (fetchChainData (Response true (Text spaced_key_text)))
     = Fulfilled (Typed emptyChainData).
Proof.
  split.
  - destruct (fetchChainData_never_rejects_fallback_on_fetch_failure
                (Response false (Text (js "404: Not Found")))) as (_ & _ & H & _).
    apply H. right. left. eexists. reflexivity.
  - destruct (fetchChainData_never_rejects_fallback_on_fetch_failure
                (Response true (Text spaced_key_text))) as (_ & _ & _ & _ & H & _).
    apply (H spaced_key_text eq_refl). right. reflexivity.
Defined.

(** C5 as stated fails on a parse error: the fetched text has a key
    separated from its colon, its slice does not parse, and the mapping
    returned is empty instead of the five fallback entries. *)
Lemma fetchChainData_parse_error_counterexample :
  ~ (forall text,
       Json.parse (jsonStr (objStr text)) = None ->
       outcome (fetchChainData (Response true (Text text)))
       = Fulfilled (Typed fallbackChainData)).
Proof.
  intros H. specialize (H spaced_key_text eq_refl).
  assert (E : outcome (fetchChainData (Response true (Text spaced_key_text)))
              = Fulfilled (Typed emptyChainData)) by reflexivity.
  rewrite E in H. clear E.
  apply (f_equal (fun o => match o with
                           | Fulfilled (Typed cd) => List.length (networkList cd)
                           | _ => 0
                           end)) in H.
  discriminate H.
Qed.

(** ** Normalization of an object literal *)

Module NormalizeFacts.
Import RegExp RegExpFacts UrlFacts.

(** *** First replacement: line comments *)

Lemma comment_no_match x s :
  x <> chr "/" -> match_at re_line_comment (x :: s) = None.
Proof.
  intros H. unfold match_at, re_line_comment. cbn [Cat]. rewrite m_Seq, m_Lit.
  change (js "//") with [chr "/"; chr "/"]. cbn [strip_prefix].
  apply N.eqb_neq in H. rewrite N.eqb_sym in H. now rewrite H.
Qed.

Lemma comment_match body rest :
  forallb dot body = true ->
  match rest with [] => True | y :: _ => dot y = false end ->
  match_at re_line_comment (js "//" ++ body ++ rest) = Some (rest, []).
Proof.
  intros Hbody Hrest. unfold match_at, re_line_comment. cbn [Cat].
  rewrite !m_Seq, m_Lit, strip_prefix_same, m_Star_Chr.
  apply star_chr_longest; [exact Hbody | exact Hrest |].
  cbn [m]. destruct rest as [|y rest]; [reflexivity|].
  unfold dot in Hrest. apply negb_false_iff in Hrest. now rewrite Hrest.
Qed.

Section Pass1.
Let f : caps -> jsstring := fun _ => [].

Lemma pass1_plain a s :
  free_of (chr "/") a = true ->
  replace re_line_comment f (a ++ s) = a ++ replace re_line_comment f s.
Proof.
  intros H. induction a as [|x a IH]; [reflexivity|].
  unfold free_of in H. cbn [forallb] in H. apply andb_true_iff in H as [Hx H].
  cbn [app]. rewrite replace_skip.
  - f_equal. now apply IH.
  - apply comment_no_match. unfold except in Hx.
    apply negb_true_iff, N.eqb_neq in Hx. congruence.
Qed.

Lemma pass1_comment body s :
  forallb dot body = true ->
  replace re_line_comment f (js "//" ++ body ++ 10%N :: s)
  = 10%N :: replace re_line_comment f s.
Proof.
  intros H. rewrite replace_match with (rest := 10%N :: s) (c := []).
  - unfold f. cbn [app]. apply replace_skip. now apply comment_no_match.
  - now apply comment_match.
  - rewrite !length_app. change (List.length (js "//")) with 2.
    cbn [List.length]. lia.
Qed.

Lemma pass1_nil : replace re_line_comment f [] = [].
Proof. now apply replace_nil. Qed.

Lemma pass1_gap g s :
  forallb wf_filler g = true ->
  replace re_line_comment f (show_gap as_written g ++ s)
  = show_gap without_comments g ++ replace re_line_comment f s.
Proof.
  intros H. induction g as [|[c|body] g IH]; [reflexivity| |];
    cbn [forallb] in H; apply andb_true_iff in H as [Hf H];
    unfold show_gap in *; cbn [flat_map show_filler as_written without_comments
                                 source_filler bare_filler] in *.
  - cbn [app]. rewrite replace_skip.
    + f_equal. now apply IH.
    + apply comment_no_match. intros ->. discriminate.
  - rewrite <- !app_assoc. cbn [app]. rewrite <- (IH H).
    apply (pass1_comment body _ Hf).
Qed.

End Pass1.

(** *** What well-formedness gives *)

Lemma forallb_weaken {A} (f g : A -> bool) l :
  (forall x, f x = true -> g x = true) -> forallb f l = true -> forallb g l = true.
Proof.
  intros H. induction l as [|x l IH]; simpl; [reflexivity|].
  intros E. apply andb_true_iff in E as [E1 E2]. now rewrite (H x E1), IH.
Qed.

Lemma wf_property_inv p :
  wf_property p = true ->
  forallb wf_filler (p_lead p) = true
  /\ p_key p <> []
  /\ forallb is_word (p_key p) = true
  /\ forallb wf_filler (p_after_colon p) = true
  /\ forallb plain_char (p_value p) = true
  /\ forallb wf_filler (p_trail p) = true.
Proof.
  unfold wf_property. rewrite !andb_true_iff. intros [[[[[H1 H2] H3] H4] H5] H6].
  repeat split; try assumption.
  intros E. rewrite E in H2. discriminate.
Qed.

Lemma plain_char_inv x :
  plain_char x = true ->
  (32 <= x)%N /\ x <> squote /\ x <> dquote /\ x <> chr "\"
  /\ x <> chr "/" /\ x <> chr ":" /\ x <> chr ",".
Proof.
  unfold plain_char. rewrite !andb_true_iff, !negb_true_iff, !N.eqb_neq, N.leb_le.
  tauto.
Qed.

Lemma is_word_inv x :
  is_word x = true ->
  x <> squote /\ x <> dquote /\ x <> chr "/" /\ x <> chr ":" /\ x <> chr ","
  /\ is_space x = false /\ is_quote x = false.
Proof.
  unfold is_word. rewrite !orb_true_iff, !andb_true_iff, !N.leb_le, N.eqb_eq.
  intros H.
  assert (R : (48 <= x <= 122)%N) by lia.
  assert (Q : x <> 39%N /\ x <> 34%N /\ x <> 47%N /\ x <> 58%N /\ x <> 44%N).
  { repeat split; intros ->; lia. }
  destruct Q as (Q1 & Q2 & Q3 & Q4 & Q5).
  repeat split; try assumption.
  - unfold is_space.
    repeat match goal with
    | |- context [N.eqb x ?n] =>
        let E := fresh in destruct (N.eqb_spec x n) as [E|E]; [lia|]
    | |- context [N.leb ?a ?b] =>
        let E := fresh in destruct (N.leb_spec a b) as [E|E]; try lia
    end; reflexivity.
  - unfold is_quote. apply orb_false_iff. split; apply N.eqb_neq; assumption.
Qed.

Lemma free_of_weaken (P : char -> bool) q s :
  (forall x, P x = true -> x <> q) -> forallb P s = true -> free_of q s = true.
Proof.
  intros H. apply forallb_weaken. intros x Hx. unfold except.
  apply negb_true_iff, N.eqb_neq. intros E. now apply (H x Hx).
Qed.

Lemma free_of_in_quotes q c s :
  c <> q -> free_of q s = true -> free_of q (in_quotes c s) = true.
Proof.
  intros Hc Hs. unfold in_quotes. rewrite !free_of_app, Hs.
  unfold free_of. cbn [forallb]. unfold except.
  apply N.eqb_neq in Hc. rewrite N.eqb_sym in Hc. now rewrite Hc.
Qed.

(** *** A replacement that works piece by piece *)

Section Through.
Variables (r : regex) (f : caps -> jsstring) (st1 st2 : style) (ok : jsstring -> Prop).

Hypothesis through_property : forall p s,
  wf_property p = true -> ok s ->
  replace r f (layout_property st1 p ++ s) = layout_property st2 p ++ replace r f s.

Hypothesis through_comma : forall p s,
  wf_property p = true ->
  replace r f (js "," ++ layout_property st1 p ++ s)
  = js "," ++ replace r f (layout_property st1 p ++ s).

Hypothesis ok_comma : forall s, ok (js "," ++ s).

Lemma through_more ps s :
  forallb wf_property ps = true -> ok s ->
  replace r f (layout_more st1 ps ++ s) = layout_more st2 ps ++ replace r f s.
Proof.
  intros Hps Hs. induction ps as [|p ps IH]; [reflexivity|].
  cbn [forallb] in Hps. apply andb_true_iff in Hps as [Hp Hps].
  unfold layout_more in *. cbn [flat_map]. rewrite <- !app_assoc.
  rewrite through_comma by exact Hp.
  destruct ps as [|p' ps].
  - cbn [flat_map app]. now rewrite through_property.
  - rewrite through_property; [|exact Hp|].
    + now rewrite IH.
    + cbn [flat_map]. rewrite <- !app_assoc. apply ok_comma.
Qed.

Lemma through_properties ps s :
  forallb wf_property ps = true -> ok s ->
  replace r f (match ps with
               | [] => []
               | p :: ps' => layout_property st1 p ++ layout_more st1 ps'
               end ++ s)
  = match ps with
    | [] => []
    | p :: ps' => layout_property st2 p ++ layout_more st2 ps'
    end ++ replace r f s.
Proof.
  intros Hps Hs. destruct ps as [|p ps]; [reflexivity|].
  cbn [forallb] in Hps. apply andb_true_iff in Hps as [Hp Hps].
  rewrite <- !app_assoc. destruct ps as [|p' ps].
  - cbn [layout_more flat_map app]. now rewrite through_property.
  - rewrite through_property; [|exact Hp|].
    + now rewrite through_more.
    + unfold layout_more. cbn [flat_map]. rewrite <- !app_assoc. apply ok_comma.
Qed.

End Through.

(** *** The first replacement on a literal *)

Lemma pass1_property p s :
  wf_property p = true ->
  replace re_line_comment (fun _ => []) (layout_property as_written p ++ s)
  = layout_property without_comments p ++ replace re_line_comment (fun _ => []) s.
Proof.
  intros H. apply wf_property_inv in H as (H1 & H2 & H3 & H4 & H5 & H6).
  unfold layout_property. cbn [show_key show_value as_written without_comments].
  rewrite <- !app_assoc.
  assert (Hkey : free_of (chr "/") (source_key p) = true).
  { assert (K : free_of (chr "/") (p_key p) = true).
    { eapply free_of_weaken; [|exact H3]. intros x Hx. now apply is_word_inv in Hx. }
    unfold source_key. destruct (p_key_quote p) as [[|]|]; [| |exact K];
      apply free_of_in_quotes; [discriminate|exact K|discriminate|exact K]. }
  assert (Hval : free_of (chr "/") (source_value p) = true).
  { unfold source_value. apply free_of_in_quotes.
    - destruct (p_value_quote p); discriminate.
    - eapply free_of_weaken; [|exact H5]. intros x Hx. now apply plain_char_inv in Hx. }
  rewrite pass1_gap by exact H1.
  rewrite pass1_plain by exact Hkey.
  rewrite pass1_plain by reflexivity.
  rewrite pass1_gap by exact H4.
  rewrite pass1_plain by exact Hval.
  rewrite pass1_gap by exact H6.
  reflexivity.
Qed.

Lemma wf_literal_inv lit :
  wf_literal lit = true ->
  forallb wf_property (properties lit) = true
  /\ forallb wf_filler (closing lit) = true
  /\ (trailing_comma lit = true -> properties lit <> []).
Proof.
  unfold wf_literal. rewrite !andb_true_iff, orb_true_iff, !negb_true_iff.
  intros [[H1 H2] H3]. repeat split; try assumption.
  intros Ht E. rewrite Ht, E in H3. destruct H3; discriminate.
Qed.

Lemma pass1_layout lit :
  wf_literal lit = true ->
  replace re_line_comment (fun _ => []) (layout as_written lit)
  = layout without_comments lit.
Proof.
  intros H. apply wf_literal_inv in H as (Hps & Hc & _).
  unfold layout. rewrite pass1_plain by reflexivity. f_equal.
  rewrite through_properties
    with (st2 := without_comments) (ok := fun _ => True); try assumption; try exact I.
  - f_equal. unfold layout_finish.
    cbn [show_trailing_comma as_written without_comments]. rewrite andb_true_r.
    rewrite <- (app_nil_r (_ ++ _ ++ js "}")), <- !app_assoc.
    rewrite pass1_plain by (destruct (trailing_comma lit); reflexivity).
    rewrite pass1_gap by exact Hc.
    rewrite pass1_plain by reflexivity.
    rewrite pass1_nil. now rewrite app_nil_r.
  - intros p s Hp _. now apply pass1_property.
  - intros p s Hp. now apply pass1_plain.
  - intros _. exact I.
Qed.

(** *** Second replacement: the comma before a closing bracket *)

Lemma comma_no_match x s :
  x <> chr "," -> match_at re_trailing_comma (x :: s) = None.
Proof.
  intros H. unfold match_at, re_trailing_comma. cbn [Cat]. rewrite m_Seq. cbn [m].
  unfold only. apply N.eqb_neq in H. rewrite N.eqb_sym in H. now rewrite H.
Qed.

Lemma bracket_not_space b : closing_bracket b = true -> is_space b = false.
Proof.
  unfold closing_bracket. rewrite orb_true_iff, !N.eqb_eq. intros [->| ->]; reflexivity.
Qed.

Lemma space_not_bracket x : is_space x = true -> closing_bracket x = false.
Proof.
  intros H. destruct (closing_bracket x) eqn:E; [|reflexivity].
  apply bracket_not_space in E. congruence.
Qed.

Lemma forallb_split {A} (p : A -> bool) l a1 x a2 :
  forallb p l = true -> l = a1 ++ x :: a2 -> p x = true.
Proof.
  intros H ->. rewrite forallb_app in H. cbn [forallb] in H.
  apply andb_true_iff in H as [_ H]. now apply andb_true_iff in H as [H _].
Qed.

Lemma comma_trailing ws b rest :
  forallb is_space ws = true -> closing_bracket b = true ->
  match_at re_trailing_comma (chr "," :: ws ++ b :: rest) = Some (rest, [(1, ws ++ [b])]).
Proof.
  intros Hws Hb. unfold match_at, re_trailing_comma. cbn [Cat].
  rewrite m_Seq, m_Chr_hit, m_Group, m_Seq, m_Star_Chr.
  rewrite star_chr_exact; [| exact Hws | now apply bracket_not_space |].
  - cbn [m]. rewrite Hb. unfold set_cap.
    replace (ws ++ b :: rest) with ((ws ++ [b]) ++ rest) by now rewrite <- app_assoc.
    rewrite (@firstn_app_exact _ (ws ++ [b]) rest); [reflexivity|].
    rewrite !length_app. lia.
  - intros a1 x a2 E. cbn [m].
    assert (Hx : is_space x = true) by (eapply forallb_split; eassumption).
    now rewrite (@space_not_bracket x Hx).
Qed.

Lemma comma_separator ws x rest :
  forallb is_space ws = true -> is_space x = false -> closing_bracket x = false ->
  match_at re_trailing_comma (chr "," :: ws ++ x :: rest) = None.
Proof.
  intros Hws Hx Hb. unfold match_at, re_trailing_comma. cbn [Cat].
  rewrite m_Seq, m_Chr_hit, m_Group, m_Seq, m_Star_Chr.
  rewrite star_chr_exact; [| exact Hws | exact Hx |].
  - cbn [m]. now rewrite Hb.
  - intros a1 y a2 E. cbn [m].
    assert (Hy : is_space y = true) by (eapply forallb_split; eassumption).
    now rewrite (@space_not_bracket y Hy).
Qed.

Section Pass2.
Let f : caps -> jsstring := fun c => cap 1 c.

Lemma pass2_plain a s :
  free_of (chr ",") a = true ->
  replace re_trailing_comma f (a ++ s) = a ++ replace re_trailing_comma f s.
Proof.
  intros H. induction a as [|x a IH]; [reflexivity|].
  unfold free_of in H. cbn [forallb] in H. apply andb_true_iff in H as [Hx H].
  cbn [app]. rewrite replace_skip.
  - f_equal. now apply IH.
  - apply comma_no_match. unfold except in Hx.
    apply negb_true_iff, N.eqb_neq in Hx. congruence.
Qed.

Lemma pass2_nil : replace re_trailing_comma f [] = [].
Proof. now apply replace_nil. Qed.

Lemma pass2_separator ws x s :
  forallb is_space ws = true -> is_space x = false -> closing_bracket x = false ->
  replace re_trailing_comma f (chr "," :: ws ++ x :: s)
  = chr "," :: replace re_trailing_comma f (ws ++ x :: s).
Proof. intros. apply replace_skip. now apply comma_separator. Qed.

Lemma pass2_trailing ws s :
  forallb is_space ws = true ->
  replace re_trailing_comma f (chr "," :: ws ++ chr "}" :: s)
  = ws ++ chr "}" :: replace re_trailing_comma f s.
Proof.
  intros H. rewrite replace_match with (rest := s) (c := [(1, ws ++ [chr "}"])]).
  - unfold f. cbn [cap Nat.eqb]. now rewrite <- app_assoc.
  - now apply comma_trailing.
  - cbn [List.length]. rewrite length_app. cbn [List.length]. lia.
Qed.

End Pass2.

#[local] Unset Implicit Arguments.

(** Once the comments are gone, filler is JSON white space. *)
Lemma bare_gap_ws st g :
  show_filler st = bare_filler -> forallb wf_filler g = true ->
  forallb Json.is_ws (show_gap st g) = true.
Proof.
  intros Hst H. unfold show_gap. rewrite Hst.
  induction g as [|[c|body] g IH]; [reflexivity| |];
    cbn [forallb] in H; apply andb_true_iff in H as [Hf H];
    cbn [flat_map bare_filler app forallb]; rewrite IH by exact H.
  - cbn [wf_filler] in Hf. now rewrite Hf.
  - reflexivity.
Qed.

Lemma json_ws_inv x :
  Json.is_ws x = true ->
  is_space x = true /\ is_word x = false /\ is_quote x = false
  /\ x <> chr "," /\ x <> chr ":" /\ x <> squote.
Proof.
  unfold Json.is_ws. rewrite !orb_true_iff, !N.eqb_eq.
  intros [[[->| ->]| ->]| ->]; repeat split; discriminate.
Qed.

Lemma source_key_head p :
  p_key p <> [] -> forallb is_word (p_key p) = true ->
  exists x rest, source_key p = x :: rest
                 /\ is_space x = false /\ closing_bracket x = false /\ x <> chr ",".
Proof.
  intros Hne Hw. unfold source_key.
  destruct (p_key_quote p) as [[|]|].
  - eexists _, _. split; [reflexivity|]. repeat split; discriminate.
  - eexists _, _. split; [reflexivity|]. repeat split; discriminate.
  - destruct (p_key p) as [|x rest]; [contradiction|].
    cbn [forallb] in Hw. apply andb_true_iff in Hw as [Hx _].
    exists x, rest. split; [reflexivity|].
    pose proof (@is_word_inv x Hx) as (_ & _ & _ & _ & Hc & Hs & _).
    repeat split; try assumption.
    unfold closing_bracket. apply orb_false_iff.
    unfold is_word in Hx. rewrite !orb_true_iff, !andb_true_iff, !N.leb_le, N.eqb_eq in Hx.
    split; apply N.eqb_neq; intros ->; cbn in Hx; lia.
Qed.

Lemma source_key_free q p :
  (forall x, is_word x = true -> x <> q) -> q <> squote -> q <> dquote ->
  forallb is_word (p_key p) = true ->
  free_of q (source_key p) = true.
Proof.
  intros Hq H1 H2 Hw.
  assert (K : free_of q (p_key p) = true) by (eapply free_of_weaken; eassumption).
  unfold source_key. destruct (p_key_quote p) as [[|]|]; [| |exact K];
    apply free_of_in_quotes; auto.
Qed.

Lemma source_value_free q p :
  (forall x, plain_char x = true -> x <> q) -> q <> squote -> q <> dquote ->
  forallb plain_char (p_value p) = true ->
  free_of q (source_value p) = true.
Proof.
  intros Hq H1 H2 Hv. unfold source_value. apply free_of_in_quotes.
  - destruct (p_value_quote p); auto.
  - eapply free_of_weaken; eassumption.
Qed.

Lemma gap_free q st g :
  show_filler st = bare_filler -> forallb wf_filler g = true ->
  (forall x, Json.is_ws x = true -> x <> q) ->
  free_of q (show_gap st g) = true.
Proof.
  intros Hst Hg Hq. eapply free_of_weaken; [exact Hq|]. now apply bare_gap_ws.
Qed.

Lemma property_without_commas st p :
  show_filler st = bare_filler -> show_key st = source_key -> show_value st = source_value ->
  wf_property p = true ->
  free_of (chr ",") (layout_property st p) = true.
Proof.
  intros Hf Hk Hv H. apply wf_property_inv in H as (H1 & H2 & H3 & H4 & H5 & H6).
  unfold layout_property. rewrite Hk, Hv. rewrite !free_of_app.
  rewrite !(gap_free (chr ",") st) ; try assumption;
    try (intros x Hx; now apply json_ws_inv in Hx).
  rewrite source_key_free, source_value_free; try assumption; try discriminate.
  - reflexivity.
  - intros x Hx. now apply plain_char_inv in Hx.
  - intros x Hx. now apply is_word_inv in Hx.
Qed.

Lemma pass2_property p s :
  wf_property p = true ->
  replace re_trailing_comma (fun c => cap 1 c) (layout_property without_comments p ++ s)
  = layout_property without_trailing_comma p
    ++ replace re_trailing_comma (fun c => cap 1 c) s.
Proof.
  intros H. now rewrite pass2_plain by (now apply property_without_commas).
Qed.

Lemma pass2_comma p s :
  wf_property p = true ->
  replace re_trailing_comma (fun c => cap 1 c)
    (js "," ++ layout_property without_comments p ++ s)
  = js "," ++ replace re_trailing_comma (fun c => cap 1 c)
                (layout_property without_comments p ++ s).
Proof.
  intros H. apply wf_property_inv in H as (H1 & H2 & H3 & H4 & H5 & H6).
  destruct (source_key_head p H2 H3) as (x & rest & E & Hs & Hb & _).
  unfold layout_property. cbn [show_key without_comments]. rewrite E.
  rewrite <- !app_assoc. cbn [app].
  change (js ",") with [chr ","]. cbn [app].
  apply pass2_separator; try assumption.
  eapply forallb_weaken; [|apply bare_gap_ws; [reflexivity|exact H1]].
  intros y Hy. now apply json_ws_inv in Hy.
Qed.

Lemma pass2_layout lit :
  wf_literal lit = true ->
  replace re_trailing_comma (fun c => cap 1 c) (layout without_comments lit)
  = layout without_trailing_comma lit.
Proof.
  intros H. apply wf_literal_inv in H as (Hps & Hc & _).
  unfold layout. rewrite pass2_plain by reflexivity. f_equal.
  rewrite through_properties
    with (st2 := without_trailing_comma) (ok := fun _ => True); try assumption; try exact I.
  - f_equal. unfold layout_finish.
    cbn [show_trailing_comma without_comments without_trailing_comma].
    rewrite andb_true_r, andb_false_r.
    assert (Hws : forallb is_space (show_gap without_comments (closing lit)) = true).
    { eapply forallb_weaken; [|apply bare_gap_ws; [reflexivity|exact Hc]].
      intros y Hy. now apply json_ws_inv in Hy. }
    destruct (trailing_comma lit).
    + change (js ",") with [chr ","]. change (js "}") with [chr "}"]. cbn [app].
      rewrite pass2_trailing by exact Hws. now rewrite pass2_nil.
    + cbn [app]. rewrite <- (app_nil_r (_ ++ js "}")).
      rewrite pass2_plain, pass2_nil; [now rewrite app_nil_r|].
      rewrite free_of_app, (gap_free (chr ",") without_comments); try assumption;
        try reflexivity.
      intros x Hx. now apply json_ws_inv in Hx.
  - intros p s Hp _. now apply pass2_property.
  - intros p s Hp. now apply pass2_comma.
  - intros _. exact I.
Qed.

(** *** Third replacement: the keys *)

Lemma span_run p a b :
  forallb p a = true ->
  match b with [] => True | y :: _ => p y = false end ->
  Json.span p (a ++ b) = (a, b).
Proof.
  intros Ha Hb. induction a as [|x a IH]; cbn [app Json.span].
  - destruct b as [|y b]; [reflexivity|]. cbn [Json.span]. now rewrite Hb.
  - cbn [forallb] in Ha. apply andb_true_iff in Ha as [Hx Ha].
    now rewrite Hx, (IH Ha).
Qed.

Lemma span_spec p s :
  s = fst (Json.span p s) ++ snd (Json.span p s)
  /\ forallb p (fst (Json.span p s)) = true
  /\ match snd (Json.span p s) with [] => True | y :: _ => p y = false end.
Proof.
  induction s as [|x s IH]; cbn [Json.span]; [cbn; auto|].
  destruct IH as (IH1 & IH2 & IH3). destruct (p x) eqn:E.
  - destruct (Json.span p s) as [a b]. cbn [fst snd] in *.
    split; [|split].
    + cbn [app]. now f_equal.
    + cbn [forallb]. now rewrite E, IH2.
    + exact IH3.
  - cbn [fst snd app forallb]. auto.
Qed.

Lemma re_key_unfold : re_key = Seq (Opt (Group 1 (Chr is_quote))) key_tail.
Proof. reflexivity. Qed.

Lemma sub_succ_self n : S n - n = 1.
Proof. lia. Qed.

Lemma key_rest_spec k s c :
  m key_rest k s c =
  match s with
  | x :: s' =>
      if is_quote x then
        match s' with
        | y :: r => if N.eqb (chr ":") y then k r (set_cap 3 [x] c) else None
        | [] => None
        end
      else if N.eqb (chr ":") x then k s' c else None
  | [] => None
  end.
Proof.
  unfold key_rest, Opt. rewrite m_Seq. cbn [m].
  destruct s as [|x s']; [reflexivity|].
  destruct (is_quote x) eqn:Q.
  - cbn [List.length]. rewrite sub_succ_self. cbn [firstn].
    assert (Hx : only (chr ":") x = false).
    { unfold only. apply N.eqb_neq. intros <-. discriminate. }
    rewrite Hx. destruct s' as [|y r]; [reflexivity|].
    unfold only. now destruct (N.eqb (chr ":") y), (k r (set_cap 3 [x] c)).
  - reflexivity.
Qed.

Lemma key_rest_word k y s c : is_word y = true -> m key_rest k (y :: s) c = None.
Proof.
  intros H. rewrite key_rest_spec.
  pose proof (@is_word_inv y H) as (_ & _ & _ & Hc & _ & _ & Hq).
  rewrite Hq. destruct (N.eqb_spec (chr ":") y) as [E|E]; [congruence|reflexivity].
Qed.

Lemma key_tail_spec k s c :
  m key_tail k s c =
  match Json.span is_word s with
  | ([], _) => None
  | (w, s2) => m key_rest k s2 (set_cap 2 w c)
  end.
Proof.
  unfold key_tail. rewrite m_Seq, m_Group_Plus_Chr.
  destruct s as [|x s1]; [reflexivity|]. cbn [Json.span].
  destruct (is_word x) eqn:Hx; [|reflexivity].
  destruct (span_spec is_word s1) as (E & Ha & Hb).
  destruct (Json.span is_word s1) as [a b]. cbn [fst snd] in *. subst s1.
  rewrite star_chr_exact; [| exact Ha | exact Hb |].
  - f_equal. f_equal.
    change (x :: a ++ b) with ((x :: a) ++ b).
    apply firstn_app_exact. rewrite length_app. lia.
  - intros a1 y a2 E. apply key_rest_word. eapply forallb_split; eassumption.
Qed.

Lemma re_key_spec s :
  match_at re_key s =
  match
    match s with
    | x :: s' =>
        if is_quote x then m key_tail (fun t c => Some (t, c)) s' (set_cap 1 [x] [])
        else None
    | [] => None
    end
  with
  | Some res => Some res
  | None => m key_tail (fun t c => Some (t, c)) s []
  end.
Proof.
  unfold match_at. rewrite re_key_unfold, m_Seq. unfold Opt. cbn [m].
  destruct s as [|x s']; [reflexivity|].
  destruct (is_quote x); [|reflexivity].
  cbn [List.length]. rewrite sub_succ_self. reflexivity.
Qed.

Lemma key_skip x s :
  is_quote x = false -> is_word x = false -> match_at re_key (x :: s) = None.
Proof.
  intros Hq Hw. rewrite re_key_spec, Hq, key_tail_spec. cbn [Json.span].
  now rewrite Hw.
Qed.

Lemma key_nil : match_at re_key [] = None.
Proof. reflexivity. Qed.

Lemma quote_not_word q : is_quote q = true -> is_word q = false.
Proof.
  unfold is_quote. rewrite orb_true_iff, !N.eqb_eq. intros [-> | ->]; reflexivity.
Qed.

Lemma plain_not_quote x : plain_char x = true -> is_quote x = false.
Proof.
  intros H. apply plain_char_inv in H as (_ & H1 & H2 & _).
  unfold is_quote. apply orb_false_iff. split; now apply N.eqb_neq.
Qed.

Lemma key_tail_key k key rest c :
  key <> [] -> forallb is_word key = true ->
  match rest with [] => True | y :: _ => is_word y = false end ->
  m key_tail k (key ++ rest) c = m key_rest k rest (set_cap 2 key c).
Proof.
  intros Hne Hw Hr. rewrite key_tail_spec, span_run by assumption.
  destruct key; [contradiction | reflexivity].
Qed.

Lemma key_bare key rest :
  key <> [] -> forallb is_word key = true ->
  match_at re_key (key ++ chr ":" :: rest) = Some (rest, [(2, key)]).
Proof.
  intros Hne Hw. rewrite re_key_spec.
  destruct key as [|x key]; [contradiction|].
  cbn [forallb] in Hw. apply andb_true_iff in Hw as [Hx Hw].
  pose proof (@is_word_inv x Hx) as (_ & _ & _ & _ & _ & _ & Hq).
  cbn [app]. rewrite Hq.
  change (x :: key ++ chr ":" :: rest) with ((x :: key) ++ chr ":" :: rest).
  rewrite key_tail_key; [| discriminate | cbn [forallb]; now rewrite Hx, Hw | reflexivity].
  now rewrite key_rest_spec.
Qed.

Lemma key_quoted q key rest :
  is_quote q = true -> key <> [] -> forallb is_word key = true ->
  match_at re_key (q :: key ++ q :: chr ":" :: rest)
  = Some (rest, [(3, [q]); (2, key); (1, [q])]).
Proof.
  intros Hq Hne Hw. rewrite re_key_spec, Hq.
  rewrite key_tail_key; [| assumption | assumption | now apply quote_not_word].
  rewrite key_rest_spec, Hq. reflexivity.
Qed.

(** Inside a value, and at its quotes, nothing looks like a key. *)
Lemma key_rest_in_value k v q rest c :
  forallb plain_char v = true -> is_quote q = true -> calm rest ->
  m key_rest k (snd (Json.span is_word (v ++ q :: rest))) c = None.
Proof.
  intros Hv Hq Hr. revert c.
  induction v as [|x v IH]; intros c; cbn [app Json.span].
  - rewrite (quote_not_word q Hq). cbn [snd]. rewrite key_rest_spec, Hq.
    destruct rest as [|y r]; [reflexivity|]. destruct Hr as [_ Hy].
    destruct (N.eqb_spec (chr ":") y); [congruence|reflexivity].
  - cbn [forallb] in Hv. apply andb_true_iff in Hv as [Hx Hv].
    destruct (is_word x).
    + specialize (IH Hv c).
      destruct (Json.span is_word (v ++ q :: rest)) as [a b]. exact IH.
    + cbn [snd]. rewrite key_rest_spec, (plain_not_quote x Hx).
      apply plain_char_inv in Hx as (_ & _ & _ & _ & _ & H3 & _).
      destruct (N.eqb_spec (chr ":") x); [congruence|reflexivity].
Qed.

Lemma key_tail_in_value k v q rest c :
  forallb plain_char v = true -> is_quote q = true -> calm rest ->
  m key_tail k (v ++ q :: rest) c = None.
Proof.
  intros Hv Hq Hr. rewrite key_tail_spec.
  pose proof (key_rest_in_value k v q rest) as H.
  destruct (Json.span is_word (v ++ q :: rest)) as [[|x w] s2]; [reflexivity|].
  now apply H.
Qed.

Lemma key_tail_calm k rest c : calm rest -> m key_tail k rest c = None.
Proof.
  intros H. rewrite key_tail_spec. destruct rest as [|y r]; [reflexivity|].
  destruct H as [H _]. cbn [Json.span]. now rewrite H.
Qed.

Lemma key_in_value v q rest :
  forallb plain_char v = true -> is_quote q = true -> calm rest ->
  match_at re_key (v ++ q :: rest) = None.
Proof.
  intros Hv Hq Hr. rewrite re_key_spec.
  rewrite (key_tail_in_value _ v q rest) by assumption.
  destruct v as [|x v]; cbn [app].
  - rewrite Hq. now rewrite key_tail_calm.
  - cbn [forallb] in Hv. apply andb_true_iff in Hv as [Hx _].
    now rewrite (plain_not_quote x Hx).
Qed.

Lemma key_at_opening q0 v q rest :
  is_quote q0 = true -> forallb plain_char v = true -> is_quote q = true -> calm rest ->
  match_at re_key (q0 :: v ++ q :: rest) = None.
Proof.
  intros H0 Hv Hq Hr. rewrite re_key_spec, H0.
  rewrite key_tail_in_value by assumption.
  rewrite key_tail_spec. cbn [Json.span].
  now rewrite (quote_not_word q0 H0).
Qed.

Section Pass3.
Let f : caps -> jsstring := fun c => [dquote] ++ cap 2 c ++ [dquote] ++ js ":".

Lemma pass3_nil : replace re_key f [] = [].
Proof. now apply replace_nil. Qed.

Lemma pass3_plain a s :
  forallb (fun x => negb (is_quote x) && negb (is_word x)) a = true ->
  replace re_key f (a ++ s) = a ++ replace re_key f s.
Proof.
  intros H. induction a as [|x a IH]; [reflexivity|].
  cbn [forallb] in H. apply andb_true_iff in H as [Hx H].
  apply andb_true_iff in Hx as [Hq Hw]. apply negb_true_iff in Hq, Hw.
  cbn [app]. rewrite replace_skip by now apply key_skip.
  f_equal. now apply IH.
Qed.

Lemma pass3_key p s :
  p_key p <> [] -> forallb is_word (p_key p) = true ->
  replace re_key f (source_key p ++ chr ":" :: s)
  = json_key p ++ chr ":" :: replace re_key f s.
Proof.
  intros Hne Hw. unfold source_key, json_key, in_quotes.
  destruct (p_key_quote p) as [q|].
  - rewrite <- !app_assoc. cbn [app].
    rewrite replace_match with (rest := s)
      (c := [(3, [quote_char q]); (2, p_key p); (1, [quote_char q])]).
    + unfold f. cbn [cap Nat.eqb]. rewrite <- !app_assoc. reflexivity.
    + apply key_quoted; [destruct q; reflexivity | assumption | assumption].
    + cbn [List.length]. rewrite length_app. cbn [List.length]. lia.
  - rewrite replace_match with (rest := s) (c := [(2, p_key p)]).
    + unfold f. cbn [cap Nat.eqb]. rewrite <- !app_assoc. reflexivity.
    + now apply key_bare.
    + rewrite length_app. cbn [List.length]. lia.
Qed.

Lemma pass3_in_value v q rest :
  forallb plain_char v = true -> is_quote q = true -> calm rest ->
  replace re_key f (v ++ q :: rest) = v ++ q :: replace re_key f rest.
Proof.
  intros Hv Hq Hr. induction v as [|x v IH]; cbn [app].
  - apply replace_skip. now apply (key_in_value [] q rest).
  - rewrite replace_skip by now apply (key_in_value (x :: v) q rest).
    f_equal. apply IH. cbn [forallb] in Hv. now apply andb_true_iff in Hv.
Qed.

Lemma pass3_value p s :
  forallb plain_char (p_value p) = true -> calm s ->
  replace re_key f (source_value p ++ s) = source_value p ++ replace re_key f s.
Proof.
  intros Hv Hs. unfold source_value, in_quotes. rewrite <- !app_assoc. cbn [app].
  assert (Hq : is_quote (quote_char (p_value_quote p)) = true)
    by (destruct (p_value_quote p); reflexivity).
  rewrite replace_skip by now apply key_at_opening.
  f_equal. now apply pass3_in_value.
Qed.

End Pass3.

Lemma gap_plain_for_keys st g :
  show_filler st = bare_filler -> forallb wf_filler g = true ->
  forallb (fun x => negb (is_quote x) && negb (is_word x)) (show_gap st g) = true.
Proof.
  intros Hst Hg. eapply forallb_weaken; [|now apply bare_gap_ws].
  intros x Hx. apply json_ws_inv in Hx as (_ & H1 & H2 & _). now rewrite H1, H2.
Qed.

Lemma calm_gap st g s :
  show_filler st = bare_filler -> forallb wf_filler g = true ->
  calm s -> calm (show_gap st g ++ s).
Proof.
  intros Hst Hg Hs. pose proof (bare_gap_ws st g Hst Hg) as H.
  destruct (show_gap st g) as [|x r]; [exact Hs|].
  cbn [forallb] in H. apply andb_true_iff in H as [Hx _].
  apply json_ws_inv in Hx as (_ & H1 & _ & _ & H2 & _). cbn [app calm]. auto.
Qed.

Lemma pass3_property p s :
  wf_property p = true -> calm s ->
  replace re_key (fun c => [dquote] ++ cap 2 c ++ [dquote] ++ js ":")
    (layout_property without_trailing_comma p ++ s)
  = layout_property with_quoted_keys p
    ++ replace re_key (fun c => [dquote] ++ cap 2 c ++ [dquote] ++ js ":") s.
Proof.
  intros H Hs. apply wf_property_inv in H as (H1 & H2 & H3 & H4 & H5 & H6).
  unfold layout_property.
  cbn [show_key show_value without_trailing_comma with_quoted_keys].
  rewrite <- !app_assoc.
  rewrite pass3_plain by now apply gap_plain_for_keys.
  change (js ":" ++ ?x) with (chr ":" :: x).
  rewrite pass3_key by assumption.
  rewrite pass3_plain by now apply gap_plain_for_keys.
  rewrite pass3_value; [| assumption | now apply calm_gap].
  rewrite pass3_plain by now apply gap_plain_for_keys.
  reflexivity.
Qed.

Lemma pass3_layout lit :
  wf_literal lit = true ->
  replace re_key (fun c => [dquote] ++ cap 2 c ++ [dquote] ++ js ":")
    (layout without_trailing_comma lit)
  = layout with_quoted_keys lit.
Proof.
  intros H. apply wf_literal_inv in H as (Hps & Hc & _).
  unfold layout. rewrite pass3_plain by reflexivity. f_equal.
  assert (Hfin : layout_finish without_trailing_comma lit
                 = show_gap without_trailing_comma (closing lit) ++ js "}").
  { unfold layout_finish. cbn [show_trailing_comma without_trailing_comma].
    now rewrite andb_false_r. }
  rewrite through_properties with (st2 := with_quoted_keys) (ok := calm);
    try assumption.
  - f_equal. unfold layout_finish in *.
    cbn [show_trailing_comma without_trailing_comma with_quoted_keys] in *.
    rewrite andb_false_r. cbn [app].
    rewrite <- (app_nil_r (_ ++ js "}")), <- !app_assoc.
    rewrite pass3_plain by now apply gap_plain_for_keys.
    rewrite pass3_plain by reflexivity.
    now rewrite pass3_nil.
  - intros p s Hp Hs. now apply pass3_property.
  - intros p s Hp. now apply (pass3_plain (js ",")).
  - intros s. cbn. split; [reflexivity | discriminate].
  - rewrite Hfin. apply calm_gap; [reflexivity | assumption |].
    cbn. split; [reflexivity | discriminate].
Qed.

(** *** Fourth replacement: single quotes *)

Lemma pass4_requote s :
  replace re_single_quote (fun _ => [dquote]) s = requote s.
Proof.
  induction s as [|x s IH].
  - now apply replace_nil.
  - unfold requote. cbn [map]. fold (requote s).
    destruct (N.eqb_spec x squote) as [->|Hne].
    + rewrite replace_match with (rest := s) (c := []).
      * cbn [app]. now rewrite IH.
      * reflexivity.
      * cbn [List.length]. lia.
    + rewrite replace_skip; [now rewrite IH|].
      unfold match_at, re_single_quote. cbn [m]. unfold only.
      destruct (N.eqb_spec squote x); [congruence | reflexivity].
Qed.

Lemma requote_app a b : requote (a ++ b) = requote a ++ requote b.
Proof. apply map_app. Qed.

Lemma requote_free a : free_of squote a = true -> requote a = a.
Proof.
  intros H. induction a as [|x a IH]; [reflexivity|].
  unfold free_of in H. cbn [forallb] in H. apply andb_true_iff in H as [Hx H].
  unfold requote. cbn [map]. fold (requote a). rewrite (IH H).
  unfold except in Hx. apply negb_true_iff in Hx. rewrite N.eqb_sym in Hx.
  now rewrite Hx.
Qed.

Lemma requote_value p :
  forallb plain_char (p_value p) = true -> requote (source_value p) = json_value p.
Proof.
  intros H. unfold source_value, json_value, in_quotes. rewrite !requote_app.
  rewrite (requote_free (p_value p)).
  - now destruct (p_value_quote p).
  - eapply free_of_weaken; [|exact H]. intros x Hx. now apply plain_char_inv in Hx.
Qed.

Lemma requote_gap st g :
  show_filler st = bare_filler -> forallb wf_filler g = true ->
  requote (show_gap st g) = show_gap st g.
Proof.
  intros Hst Hg. apply requote_free. apply gap_free; try assumption.
  intros x Hx. now apply json_ws_inv in Hx.
Qed.

Lemma requote_key p :
  forallb is_word (p_key p) = true -> requote (json_key p) = json_key p.
Proof.
  intros H. apply requote_free. unfold json_key. apply free_of_in_quotes; [discriminate|].
  eapply free_of_weaken; [|exact H]. intros x Hx. now apply is_word_inv in Hx.
Qed.

Lemma requote_property p :
  wf_property p = true ->
  requote (layout_property with_quoted_keys p) = layout_property as_json p.
Proof.
  intros H. apply wf_property_inv in H as (H1 & H2 & H3 & H4 & H5 & H6).
  unfold layout_property. cbn [show_key show_value with_quoted_keys as_json].
  rewrite !requote_app.
  rewrite !(requote_gap with_quoted_keys) by (try reflexivity; assumption).
  now rewrite requote_key, requote_value by assumption.
Qed.

Lemma requote_more ps :
  forallb wf_property ps = true ->
  requote (layout_more with_quoted_keys ps) = layout_more as_json ps.
Proof.
  intros H. induction ps as [|p ps IH]; [reflexivity|].
  cbn [forallb] in H. apply andb_true_iff in H as [Hp H].
  unfold layout_more in *. cbn [flat_map]. rewrite !requote_app.
  now rewrite requote_property, IH.
Qed.

Lemma pass4_layout lit :
  wf_literal lit = true ->
  replace re_single_quote (fun _ => [dquote]) (layout with_quoted_keys lit)
  = layout as_json lit.
Proof.
  intros H. apply wf_literal_inv in H as (Hps & Hc & _).
  rewrite pass4_requote. unfold layout. rewrite !requote_app.
  f_equal. f_equal.
  - destruct (properties lit) as [|p ps]; [reflexivity|].
    cbn [forallb] in Hps. apply andb_true_iff in Hps as [Hp Hps].
    rewrite requote_app. now rewrite requote_property, requote_more.
  - unfold layout_finish. cbn [show_trailing_comma with_quoted_keys as_json].
    rewrite andb_false_r. cbn [app]. rewrite requote_app.
    now rewrite (requote_gap with_quoted_keys) by (try reflexivity; assumption).
Qed.

(** The chain of the four replacements. *)
Lemma jsonStr_layout lit :
  wf_literal lit = true -> jsonStr (layout as_written lit) = layout as_json lit.
Proof.
  intros H. unfold jsonStr.
  now rewrite pass1_layout, pass2_layout, pass3_layout, pass4_layout.
Qed.

End NormalizeFacts.

(** ** The slice taken by [extractObject] *)

Module SliceFacts.
Import RegExp UrlFacts.

#[local] Unset Implicit Arguments.
Open Scope Z_scope.

Lemma indexOf_from_found i x pre s :
  free_of x pre = true ->
  indexOf_from i x (pre ++ x :: s) = i + Z.of_nat (List.length pre).
Proof.
  revert i; induction pre as [|y pre IH]; intros i H; cbn [app indexOf_from List.length].
  - rewrite N.eqb_refl. lia.
  - unfold free_of in H. cbn [forallb] in H. apply andb_true_iff in H as [Hy H].
    unfold except in Hy. apply negb_true_iff in Hy. rewrite N.eqb_sym in Hy.
    rewrite Hy, (IH (i + 1) H). lia.
Qed.

Lemma lastIndexOf_from_free i x suf found :
  free_of x suf = true -> lastIndexOf_from i x suf found = found.
Proof.
  revert i; induction suf as [|y suf IH]; intros i H; cbn [lastIndexOf_from]; [reflexivity|].
  unfold free_of in H. cbn [forallb] in H. apply andb_true_iff in H as [Hy H].
  unfold except in Hy. apply negb_true_iff in Hy. rewrite N.eqb_sym in Hy.
  rewrite Hy. now apply IH.
Qed.

Lemma lastIndexOf_from_found i x s0 suf found :
  free_of x suf = true ->
  lastIndexOf_from i x (s0 ++ x :: suf) found = i + Z.of_nat (List.length s0).
Proof.
  revert i found; induction s0 as [|y s0 IH]; intros i found H;
    cbn [app lastIndexOf_from List.length].
  - rewrite N.eqb_refl, lastIndexOf_from_free by exact H. lia.
  - rewrite (IH (i + 1) _ H). lia.
Qed.

Lemma substring_middle pre mid suf :
  substring (pre ++ mid ++ suf) (Z.of_nat (List.length pre))
    (Z.of_nat (List.length pre + List.length mid)) = mid.
Proof.
  unfold substring. rewrite !length_app.
  match goal with
  | |- firstn ?n (skipn ?k _) = _ =>
      replace n with (List.length mid) by lia;
      replace k with (List.length pre) by lia
  end.
  rewrite skipn_app, Nat.sub_diag, skipn_all. cbn [skipn app].
  apply firstn_app_exact. reflexivity.
Qed.

Lemma between_assoc (pre mid suf : jsstring) x y :
  pre ++ (x :: mid ++ [y]) ++ suf = (pre ++ x :: mid) ++ y :: suf.
Proof.
  rewrite <- app_assoc. cbn [app]. now rewrite <- app_assoc.
Qed.

(** The slice of a text made of a brace-free prefix, a text between
    braces and a suffix without closing brace is the text between
    braces. *)
Lemma objStr_between pre mid suf :
  free_of (chr "{") pre = true -> free_of (chr "}") suf = true ->
  objStr (pre ++ (chr "{" :: mid ++ [chr "}"]) ++ suf) = chr "{" :: mid ++ [chr "}"].
Proof.
  intros Hpre Hsuf. unfold objStr, indexOf, lastIndexOf.
  assert (E1 : indexOf_from 0 (chr "{") (pre ++ (chr "{" :: mid ++ [chr "}"]) ++ suf)
               = Z.of_nat (List.length pre)).
  { cbn [app]. now rewrite indexOf_from_found by exact Hpre. }
  assert (E2 : lastIndexOf_from 0 (chr "}")
                 (pre ++ (chr "{" :: mid ++ [chr "}"]) ++ suf) (-1) + 1
               = Z.of_nat (List.length pre + List.length (chr "{" :: mid ++ [chr "}"]))).
  { rewrite between_assoc, lastIndexOf_from_found by exact Hsuf.
    rewrite !length_app. cbn [List.length]. rewrite length_app. cbn [List.length]. lia. }
  rewrite E1, E2. apply (substring_middle pre (chr "{" :: mid ++ [chr "}"]) suf).
Qed.

Lemma indexOf_found pre x s :
  free_of x pre = true -> indexOf (pre ++ x :: s) x <> -1.
Proof.
  intros H. unfold indexOf. rewrite indexOf_from_found by exact H. lia.
Qed.

Close Scope Z_scope.

End SliceFacts.

(** ** [JSON.parse] on the normalized literal *)

Module JsonFacts.
Import RegExp UrlFacts NormalizeFacts.

#[local] Unset Implicit Arguments.

Lemma skip_ws_gap ws s :
  forallb Json.is_ws ws = true ->
  match s with [] => True | y :: _ => Json.is_ws y = false end ->
  Json.skip_ws (ws ++ s) = s.
Proof.
  intros Hws Hs. induction ws as [|x ws IH]; cbn [app Json.skip_ws].
  - destruct s as [|y s]; [reflexivity|]. cbn [Json.skip_ws]. now rewrite Hs.
  - cbn [forallb] in Hws. apply andb_true_iff in Hws as [Hx Hws].
    rewrite Hx. now apply IH.
Qed.

Lemma string_body_literal v rest :
  forallb literal_char v = true ->
  Json.string_body (v ++ dquote :: rest) = Some (v, rest).
Proof.
  intros H. induction v as [|x v IH]; cbn [app Json.string_body].
  - reflexivity.
  - cbn [forallb] in H. apply andb_true_iff in H as [Hx H].
    unfold literal_char in Hx. rewrite !andb_true_iff, !negb_true_iff in Hx.
    destruct Hx as [[H1 H2] H3]. rewrite H1, H2, H3. now rewrite (IH H).
Qed.

Lemma word_literal x : is_word x = true -> literal_char x = true.
Proof.
  unfold is_word, literal_char.
  rewrite !orb_true_iff, !andb_true_iff, !N.leb_le, N.eqb_eq.
  intros H. rewrite !negb_true_iff.
  repeat split; try apply N.eqb_neq; try apply N.ltb_ge; lia.
Qed.

Lemma plain_literal x : plain_char x = true -> literal_char x = true.
Proof.
  intros H. apply plain_char_inv in H as (H0 & _ & H2 & H3 & _).
  unfold literal_char. rewrite !andb_true_iff, !negb_true_iff.
  repeat split; try apply N.eqb_neq; try apply N.ltb_ge; assumption.
Qed.

Lemma members_S fuel s acc :
  Json.members (S fuel) s acc =
  match s with
  | q :: s1 =>
      if N.eqb q 34 then
        match Json.string_body s1 with
        | Some (key, s2) =>
            match Json.skip_ws s2 with
            | colon :: s3 =>
                if N.eqb colon 58 then
                  match Json.value fuel (Json.skip_ws s3) with
                  | Some (v, s4) =>
                      match Json.skip_ws s4 with
                      | z :: s5 =>
                          if N.eqb z 125 then
                            Some (Json.JObject (Obj.define key v acc), s5)
                          else if N.eqb z 44 then
                            Json.members fuel (Json.skip_ws s5) (Obj.define key v acc)
                          else None
                      | [] => None
                      end
                  | None => None
                  end
                else None
            | [] => None
            end
        | None => None
        end
      else None
  | [] => None
  end.
Proof. reflexivity. Qed.

Lemma value_string fuel v rest :
  forallb literal_char v = true ->
  Json.value (S fuel) (dquote :: v ++ dquote :: rest) = Some (Json.JString v, rest).
Proof.
  intros H. cbn [Json.value]. change (N.eqb dquote 123) with false.
  change (N.eqb dquote 91) with false. change (N.eqb dquote 34) with true. cbn iota.
  now rewrite string_body_literal.
Qed.

(** One member of the normalized literal, up to the comma or the
    closing brace that follows it. *)
Lemma members_property fuel p ws z rest acc :
  wf_property p = true -> forallb Json.is_ws ws = true -> Json.is_ws z = false ->
  Json.members (S (S fuel))
    (json_key p ++ js ":" ++ show_gap as_json (p_after_colon p) ++ json_value p
     ++ ws ++ z :: rest) acc
  = if N.eqb z 125 then Some (Json.JObject (add_member acc p), rest)
    else if N.eqb z 44 then
      Json.members (S fuel) (Json.skip_ws rest) (add_member acc p)
    else None.
Proof.
  intros H Hws Hz. apply wf_property_inv in H as (H1 & H2 & H3 & H4 & H5 & H6).
  rewrite members_S. unfold json_key, json_value, in_quotes.
  rewrite <- !app_assoc. cbn [app].
  change (N.eqb dquote 34) with true. cbn iota.
  rewrite string_body_literal by (eapply forallb_weaken; [apply word_literal | exact H3]).
  change (js ":") with [58%N]. cbn [app Json.skip_ws].
  change (Json.is_ws 58%N) with false. cbn iota.
  change (N.eqb 58 58) with true. cbn iota.
  rewrite skip_ws_gap; [| now apply bare_gap_ws | reflexivity].
  rewrite value_string by (eapply forallb_weaken; [apply plain_literal | exact H5]).
  rewrite skip_ws_gap; [| exact Hws | exact Hz].
  reflexivity.
Qed.

Lemma skip_lead p s :
  wf_property p = true ->
  Json.skip_ws (layout_property as_json p ++ s)
  = json_key p ++ js ":" ++ show_gap as_json (p_after_colon p) ++ json_value p
    ++ show_gap as_json (p_trail p) ++ s.
Proof.
  intros H. apply wf_property_inv in H as (H1 & _).
  unfold layout_property. cbn [show_key show_value as_json].
  rewrite <- !app_assoc. apply skip_ws_gap; [now apply bare_gap_ws | reflexivity].
Qed.

(** The members of the normalized literal, up to its closing brace. *)
Lemma members_chain ps : forall p acc fuel cg rest,
  wf_property p = true -> forallb wf_property ps = true ->
  forallb wf_filler cg = true ->
  List.length ps + 2 <= fuel ->
  Json.members fuel
    (Json.skip_ws (layout_property as_json p ++ layout_more as_json ps
                   ++ show_gap as_json cg ++ js "}" ++ rest)) acc
  = Some (Json.JObject (fold_left add_member (p :: ps) acc), rest).
Proof.
  induction ps as [|p' ps IH]; intros p acc fuel cg rest Hp Hps Hcg Hfuel.
  - destruct fuel as [|[|fuel]]; cbn [List.length] in Hfuel; try lia.
    rewrite skip_lead by exact Hp. cbn [layout_more flat_map app].
    change (js "}" ++ rest) with (125%N :: rest).
    rewrite (app_assoc (show_gap as_json (p_trail p))).
    rewrite members_property; [reflexivity | exact Hp | | reflexivity].
    apply wf_property_inv in Hp as (_ & _ & _ & _ & _ & H6).
    rewrite forallb_app. now rewrite !bare_gap_ws.
  - destruct fuel as [|[|fuel]]; cbn [List.length] in Hfuel; try lia.
    cbn [forallb] in Hps. apply andb_true_iff in Hps as [Hp' Hps].
    rewrite skip_lead by exact Hp. unfold layout_more. cbn [flat_map].
    fold (layout_more as_json ps). rewrite <- !app_assoc.
    change (js "," ++ ?x) with (44%N :: x).
    rewrite members_property; [| exact Hp | | reflexivity].
    + cbn [N.eqb Pos.eqb]. cbn iota. rewrite IH; try assumption; [reflexivity | lia].
    + apply wf_property_inv in Hp as (_ & _ & _ & _ & _ & H6). now apply bare_gap_ws.
Qed.

Lemma layout_more_length st ps : List.length ps <= List.length (layout_more st ps).
Proof.
  induction ps as [|p ps IH]; [reflexivity|].
  unfold layout_more in *. cbn [flat_map List.length]. rewrite !length_app.
  change (List.length (js ",")) with 1. lia.
Qed.

Lemma parse_layout lit :
  wf_literal lit = true ->
  Json.parse (layout as_json lit)
  = Some (Json.JObject (fold_left add_member (properties lit) Obj.empty)).
Proof.
  intros H. apply wf_literal_inv in H as (Hps & Hc & _).
  unfold Json.parse, layout. change (js "{" ++ ?x) with (123%N :: x).
  cbn [Json.skip_ws]. change (Json.is_ws 123%N) with false. cbn iota.
  cbn [Json.value]. change (N.eqb 123 123) with true. cbn iota.
  unfold layout_finish. cbn [show_trailing_comma as_json]. rewrite andb_false_r.
  cbn [app].
  destruct (properties lit) as [|p ps] eqn:E.
  - cbn [app fold_left]. change (js "}") with [125%N].
    rewrite skip_ws_gap; [| now apply bare_gap_ws | reflexivity].
    reflexivity.
  - cbn [forallb] in Hps. apply andb_true_iff in Hps as [Hp Hps].
    rewrite <- !app_assoc.
    set (text := layout_property as_json p ++ layout_more as_json ps
                 ++ show_gap as_json (closing lit) ++ js "}").
    assert (Ht : Json.skip_ws text
                 = json_key p ++ js ":" ++ show_gap as_json (p_after_colon p)
                   ++ json_value p ++ show_gap as_json (p_trail p)
                   ++ layout_more as_json ps ++ show_gap as_json (closing lit) ++ js "}").
    { unfold text. now rewrite skip_lead. }
    assert (Hm : Json.members (List.length (123%N :: text)) (Json.skip_ws text) Obj.empty
                 = Some (Json.JObject (fold_left add_member (p :: ps) Obj.empty), [])).
    { unfold text. rewrite <- (app_nil_r (js "}")).
      apply members_chain; try assumption.
      cbn [List.length]. rewrite !length_app. change (List.length (js "}")) with 1.
      pose proof (layout_more_length as_json ps). lia. }
    rewrite Ht in *. unfold json_key, in_quotes in *. cbn [app] in *.
    change (N.eqb dquote 125) with false. cbn iota.
    match goal with
    | |- match ?X with _ => _ end = _ =>
        replace X with (Some (Json.JObject (fold_left add_member (p :: ps) Obj.empty),
                              @nil char))
          by (symmetry; exact Hm)
    end.
    reflexivity.
Qed.

Lemma fold_add_member_pairs ps acc :
  fold_left add_member ps acc
  = fold_left (fun o kv => Obj.define (fst kv) (Json.JString (snd kv)) o)
      (map (fun p => (p_key p, p_value p)) ps) acc.
Proof.
  revert acc; induction ps as [|p ps IH]; intros acc; [reflexivity|].
  cbn [fold_left map]. now rewrite IH.
Qed.

Lemma parse_layout_object lit :
  wf_literal lit = true ->
  Json.parse (layout as_json lit) = Some (object_of (pairs_of lit)).
Proof.
  intros H. rewrite parse_layout by exact H. unfold object_of, pairs_of.
  now rewrite fold_add_member_pairs.
Qed.

(** The document that states the pairs directly is the JSON layout of
    the literal without filler. *)
Lemma tight_property kv : layout_property as_json (tight kv) = json_member kv.
Proof.
  unfold layout_property, json_member, tight.
  cbn [show_gap show_key show_value as_json flat_map p_lead p_after_colon p_trail
       app json_key json_value p_key p_value].
  now rewrite app_nil_r.
Qed.

Lemma tight_more kvs :
  layout_more as_json (map tight kvs)
  = flat_map (fun kv => js "," ++ json_member kv) kvs.
Proof.
  induction kvs as [|kv kvs IH]; [reflexivity|].
  unfold layout_more in *. cbn [map flat_map]. now rewrite tight_property, IH.
Qed.

Lemma json_document_layout kvs :
  json_document kvs = layout as_json (tight_literal kvs).
Proof.
  unfold json_document, layout, layout_finish, tight_literal.
  cbn [properties trailing_comma closing andb show_gap flat_map app].
  destruct kvs as [|kv kvs]; [reflexivity|].
  cbn [map]. now rewrite tight_property, tight_more.
Qed.

Lemma pairs_of_tight kvs : pairs_of (tight_literal kvs) = kvs.
Proof.
  unfold pairs_of, tight_literal. cbn [properties]. rewrite map_map.
  induction kvs as [|[k v] kvs IH]; [reflexivity|]. cbn [map]. now rewrite IH.
Qed.

Lemma wf_tight lit :
  wf_literal lit = true -> wf_literal (tight_literal (pairs_of lit)) = true.
Proof.
  intros H. apply wf_literal_inv in H as (Hps & _ & _).
  unfold wf_literal, tight_literal, pairs_of. cbn [properties trailing_comma closing].
  cbn [forallb negb orb]. rewrite !andb_true_r.
  induction (properties lit) as [|p ps IH]; [reflexivity|].
  cbn [forallb] in Hps. apply andb_true_iff in Hps as [Hp Hps].
  cbn [map forallb]. rewrite (IH Hps), andb_true_r.
  apply wf_property_inv in Hp as (_ & H2 & H3 & _ & H5 & _).
  unfold wf_property, tight. cbn [p_lead p_key p_after_colon p_value p_trail forallb fst snd].
  rewrite H3, H5. destruct (p_key p); [contradiction | reflexivity].
Qed.

Lemma parse_json_document lit :
  wf_literal lit = true ->
  Json.parse (json_document (pairs_of lit)) = Some (object_of (pairs_of lit)).
Proof.
  intros H. rewrite json_document_layout, parse_layout_object by now apply wf_tight.
  now rewrite pairs_of_tight.
Qed.

Lemma layout_between st lit :
  exists mid, layout st lit = chr "{" :: mid ++ [chr "}"].
Proof.
  exists (match properties lit with
          | [] => []
          | p :: ps => layout_property st p ++ layout_more st ps
          end
          ++ (if trailing_comma lit && show_trailing_comma st then js "," else [])
          ++ show_gap st (closing lit)).
  unfold layout, layout_finish.
  change (js "{") with [chr "{"]. change (js "}") with [chr "}"].
  cbn [app]. f_equal. now rewrite <- !app_assoc.
Qed.

End JsonFacts.

(** C4, as the code has it.  Take a text made of a prefix without
    opening brace, an object literal and a suffix without closing
    brace, where in the literal every key is a non-empty run of
    [[a-zA-Z0-9_]], bare or in quotes of either kind and directly
    followed by its colon; every value is a string in quotes of either
    kind without quote, backslash, slash, colon, comma or control
    character; tokens are separated by JSON white space and line
    comments; and a comma may follow the last property.  Then
    [extractObject] returns, without logging anything, what
    [JSON.parse] returns on the JSON document that states the same
    pairs directly: the object holding these pairs. *)
Theorem extractObject_agrees_with_direct_parse :
  forall (prefix suffix : jsstring) (lit : literal),
    free_of (chr "{") prefix = true ->
    free_of (chr "}") suffix = true ->
    wf_literal lit = true ->
    extractObject (prefix ++ layout as_written lit ++ suffix)
    = JSON_parse (json_document (pairs_of lit))
    /\ JSON_parse (json_document (pairs_of lit)) = ret (object_of (pairs_of lit)).
Proof.
  intros prefix suffix lit Hpre Hsuf Hwf.
  assert (Hdoc : JSON_parse (json_document (pairs_of lit)) = ret (object_of (pairs_of lit))).
  { unfold JSON_parse. now rewrite JsonFacts.parse_json_document. }
  split; [|exact Hdoc]. rewrite Hdoc.
  destruct (JsonFacts.layout_between as_written lit) as [mid Hmid].
  rewrite ChainDataFacts.extractObject_unfold, ChainDataFacts.lastIndexOf_succ.
  assert (H1 : (indexOf (prefix ++ layout as_written lit ++ suffix) (chr "{") =? -1)%Z = false).
  { apply Z.eqb_neq. rewrite Hmid. cbn [app]. now apply SliceFacts.indexOf_found. }
  rewrite H1. cbn [orb].
  rewrite Hmid, SliceFacts.objStr_between by assumption. rewrite <- Hmid.
  rewrite NormalizeFacts.jsonStr_layout by exact Hwf.
  now rewrite JsonFacts.parse_layout_object by exact Hwf.
Qed.

Lemma extractObject_agrees_with_direct_parse_witness :
  outcome (extractObject sample_source)
  = Fulfilled (object_of [(js "1", js "ethereum"); (js "10", js "optimism");
                          (js "137", js "polygon")]).
Proof.
  destruct (@extractObject_agrees_with_direct_parse (js "export default ") (js ";")
              sample_literal eq_refl eq_refl eq_refl) as [H1 H2].
  unfold sample_source. rewrite H1, H2. reflexivity.
Defined.

(** C4 as stated fails when white space separates a bare key from its
    colon: the text holds the well-formed literal [{ 1 : 'ethereum' }],
    whose only pair is 1 and ethereum, and [extractObject] returns the
    empty object, not the object of that pair. *)
Lemma extractObject_spaced_key_counterexample :
  outcome (extractObject spaced_key_text)
  <> outcome (JSON_parse (json_document [(js "1", js "ethereum")])).
Proof.
  assert (E1 : outcome (extractObject spaced_key_text) = Fulfilled (Json.JObject Obj.empty))
    by reflexivity.
  assert (E2 : outcome (JSON_parse (json_document [(js "1", js "ethereum")]))
               = Fulfilled (Json.JObject [(js "1", Json.JString (js "ethereum"))]))
    by reflexivity.
  rewrite E1, E2. discriminate.
Qed.

(** ** The declared types and the values of any type

    On an object of strings, the steps written for values of any type
    compute what the steps written for strings compute: the two
    branches of [fetchChainData] are one program. *)

Module AnyFacts.
Import Obj ObjFacts.

#[local] Unset Implicit Arguments.

Lemma all_strings_strings (o : Obj.t jsstring) : all_strings (strings o) = Some o.
Proof.
  induction o as [|[k v] o IH]; [reflexivity|]. cbn. fold (strings o). now rewrite IH.
Qed.

Lemma all_strings_inv (o : Obj.t Json.json) r : all_strings o = Some r -> o = strings r.
Proof.
  revert r; induction o as [|[k v] o IH]; intros r; cbn.
  - intros H; injection H as <-. reflexivity.
  - destruct v; try discriminate.
    destruct (all_strings o) as [r'|]; [|discriminate].
    intros H; injection H as <-. cbn. now rewrite (IH r' eq_refl).
Qed.

Lemma index_props_strings (o : Obj.t jsstring) :
  index_props (strings o)
  = map (fun ip => (fst ip, (fst (snd ip), Json.JString (snd (snd ip))))) (index_props o).
Proof.
  induction o as [|[k v] o IH]; [reflexivity|]. cbn [strings map index_props fst snd].
  fold (strings o). rewrite IH. destruct (array_index k) as [i|]; [|reflexivity].
  generalize (index_props o) as l. clear.
  induction l as [|[j q] l IH]; [reflexivity|]. cbn [insert_index map fst snd].
  destruct (i <=? j)%N; [reflexivity|]. cbn [map fst snd]. now rewrite IH.
Qed.

Lemma entries_strings (o : Obj.t jsstring) :
  Obj.entries (strings o) = strings (Obj.entries o).
Proof.
  unfold Obj.entries. rewrite index_props_strings. unfold strings.
  rewrite map_app, !map_map. f_equal.
  unfold string_props. induction o as [|[k v] o IH]; [reflexivity|].
  cbn [map filter fst snd]. destruct (array_index k); [exact IH|].
  cbn [map fst snd]. now rewrite IH.
Qed.

Lemma values_strings (o : Obj.t jsstring) :
  map snd (Obj.entries (strings o)) = map Json.JString (Obj.values o).
Proof.
  rewrite entries_strings. unfold strings, Obj.values. now rewrite !map_map.
Qed.

Lemma loose_explorers_strings (l : list (jsstring * jsstring)) acc :
  loose_explorers_from acc (strings l)
  = ret (fold_left (fun explorers entry =>
                      Obj.assign (snd entry) (explorer_url (snd entry)) explorers) l acc).
Proof.
  revert acc; induction l as [|[c k] l IH]; intros acc; [reflexivity|].
  cbn [strings map loose_explorers_from fst snd fold_left loose_explorer].
  fold (strings l). unfold bind at 1. cbn [outcome console ret]. now rewrite IH.
Qed.

Lemma has_strings x (set : list jsstring) :
  Any.has (Json.JString x) (map Json.JString set) = JsSet.has x set.
Proof.
  unfold Any.has, JsSet.has. induction set as [|y set IH]; [reflexivity|].
  cbn [map existsb Any.same_value_zero]. now rewrite IH.
Qed.

Lemma allNetworks_strings (vs set : list jsstring) :
  fold_left (fun set value => Any.add value set) (map Json.JString vs)
    (map Json.JString set)
  = map Json.JString (fold_left (fun set value => JsSet.add value set) vs set).
Proof.
  revert set; induction vs as [|v vs IH]; intros set; [reflexivity|].
  cbn [map fold_left]. unfold Any.add at 2, JsSet.add at 2.
  rewrite has_strings. destruct (JsSet.has v set); [apply IH|].
  cbn [Any.kept].
  change (map Json.JString set ++ [Json.JString v]) with
    (map Json.JString set ++ map Json.JString [v]).
  rewrite <- map_app. apply IH.
Qed.

Lemma filter_map {A B} (f : B -> bool) (g : A -> B) l :
  filter f (map g l) = map g (filter (fun a => f (g a)) l).
Proof.
  induction l as [|a l IH]; [reflexivity|]. cbn. destruct (f (g a)); cbn; now rewrite IH.
Qed.

Lemma loose_networkList_strings (chainIds : Obj.t jsstring) :
  loose_networkList (map Json.JString (Obj.values chainIds))
  = map Json.JString (build_networkList chainIds).
Proof.
  unfold loose_networkList, loose_allNetworks, build_networkList, allNetworks, JsSet.empty.
  change (@nil Json.json) with (map Json.JString []).
  rewrite allNetworks_strings, map_app, filter_map. f_equal.
  - f_equal. apply filter_ext. intros x. apply has_strings.
  - f_equal. apply filter_ext. intros x. f_equal. unfold arr_includes.
    generalize popularNetworks as ps.
    induction ps as [|p ps IH]; [reflexivity|].
    cbn [existsb]. rewrite IH. cbn [Any.same_value_zero]. f_equal. apply str_eqb_sym.
Qed.

(** The general steps on an object of strings. *)
Lemma typed_branch_is_general (chainIds : Obj.t jsstring) :
  as_record (Json.JObject (strings chainIds)) = Some chainIds
  /\ Any.values (Json.JObject (strings chainIds))
     = ret (map Json.JString (Obj.values chainIds))
  /\ Any.entries (Json.JObject (strings chainIds)) = ret (strings (Obj.entries chainIds))
  /\ loose_explorers_from Obj.empty (strings (Obj.entries chainIds))
     = ret (build_explorers chainIds)
  /\ loose_networkList (map Json.JString (Obj.values chainIds))
     = map Json.JString (build_networkList chainIds).
Proof.
  split; [apply all_strings_strings|]. split.
  { unfold Any.values, bind. cbn [Any.entries outcome console ret].
    now rewrite values_strings. }
  split; [cbn [Any.entries]; now rewrite entries_strings|].
  split; [apply loose_explorers_strings|apply loose_networkList_strings].
Qed.

(** The value that makes a result typed. *)
Lemma as_record_inv v r : as_record v = Some r -> v = Json.JObject (strings r).
Proof.
  destruct v; try discriminate. cbn. intros H. f_equal. now apply all_strings_inv.
Qed.

End AnyFacts.

(** ** Numbers and values outside the declared types, on examples *)

Module Examples.

(** A chain ID beyond 2^53 is read as the nearest double. *)
Lemma parseInt10_rounds :
  parseInt10 (js "9007199254740993") = Int 9007199254740992
  /\ parseInt10 (js "9007199254740995") = Int 9007199254740996
  /\ parseInt10 (js "-0") = MinusZero
  /\ parseInt10 (js "  42abc") = Int 42
  /\ parseInt10 (js "abc") = NaN.
Proof. vm_compute. repeat split. Qed.

(** The text of a number: plain digits below 10^21, the shortest
    digits that denote the double, exponent notation from 10^21. *)
Lemma number_toString_examples :
  number_toString (Int 42161) = js "42161"
  /\ number_toString (Int (-5)) = js "-5"
  /\ number_toString (parseInt10 (js "9007199254740993")) = js "9007199254740992"
  /\ number_toString (Int (2 ^ 60)) = js "1152921504606847000"
  /\ number_toString (parseInt10 (js "123456789012345678901")) = js "123456789012345680000"
  /\ number_toString (parseInt10 (js "1000000000000000000000")) = js "1e+21"
  /\ number_toString (Int (2 ^ 70)) = js "1.1805916207174113e+21"
  /\ number_toString NaN = js "NaN".
Proof. vm_compute. repeat split. Qed.

(** From 10^21 on the text of the chain ID holds a plus sign, which in
    the pattern repeats the [e] before it: the pattern of chain ID
    10^21 matches an entry written [1e21]. *)
Lemma recovered_with_exponent :
  recovered (js "1e21: { rpcs: ['https://x.example'] }")
    (parseInt10 (js "1000000000000000000000"))
  = [js "https://x.example"]
  /\ literal_source (number_toString (parseInt10 (js "1000000000000000000000"))) = false.
Proof. vm_compute. split; reflexivity. Qed.

(** A mapping with a number as value: the number is listed as it is
    and is the key of its explorer. *)
Lemma fetchChainData_number_value :
  outcome (fetchChainData (Response true (Text (js "{ 1: 2 }"))))
  = Fulfilled
      (Loose {| any_chainIds := Json.JObject [(js "1", Json.JNumber (js "2"))];
                any_explorers := [(js "2", js "https://2scan.com/tx/")];
                any_networkList := [Json.JNumber (js "2")] |}).
Proof. vm_compute. reflexivity. Qed.

(** A text whose slice is a number: nothing to list. *)
Lemma fetchChainData_number_slice :
  outcome (fetchChainData (Response true (Text (js "123 {"))))
  = Fulfilled
      (Loose {| any_chainIds := Json.JNumber (js "123");
                any_explorers := [];
                any_networkList := [] |}).
Proof. vm_compute. reflexivity. Qed.

(** A mapping with an object as value: it is listed as it is and its
    explorer is found under the text of an object. *)
Lemma fetchChainData_object_value :
  outcome (fetchChainData (Response true (Text (js "{ a: { b: 'c' } }"))))
  = Fulfilled
      (Loose {| any_chainIds :=
                  Json.JObject
                    [(js "a", Json.JObject [(js "b", Json.JString (js "c"))])];
                any_explorers :=
                  [(js "[object Object]", js "https://[object Object]scan.com/tx/")];
                any_networkList := [Json.JObject [(js "b", Json.JString (js "c"))]] |}).
Proof. vm_compute. reflexivity. Qed.

(** A value that cannot be converted to a string: the TypeError is
    caught and the fallback returned. *)
Lemma fetchChainData_unconvertible_value :
  outcome (fetchChainData (Response true (Text (js "{ a: { toString: 'c' } }"))))
  = Fulfilled (Typed fallbackChainData).
Proof. vm_compute. reflexivity. Qed.

End Examples.

(** ** Across the functions: what every caller can rely on *)

Module PipelineFacts.
Import Obj ObjFacts.

#[local] Unset Implicit Arguments.

(** The chain data of the declared type, on every path: the fallback,
    or the three parts built from one mapping. *)
Lemma fetchChainData_shapes w cd :
  outcome (fetchChainData w) = Fulfilled (Typed cd) ->
  cd = fallbackChainData
  \/ exists ids, cd = {| chainIds := ids;
                         explorers := build_explorers ids;
                         networkList := build_networkList ids |}.
Proof.
  destruct w as [|[|] [content|]]; try (cbn; intros H; injection H as <-; now left).
  unfold fetchChainData, try_catch, bind.
  cbn [fetch text outcome console ret fst snd negb].
  destruct (ChainDataFacts.extractObject_cases content) as [[v E]|[e E]];
    rewrite E; cbn [outcome console ret].
  - destruct (as_record v) as [r|]; cbn [outcome console ret].
    + intros H; injection H as <-. right. now exists r.
    + destruct (outcome (Any.values v)); cbn [outcome console];
        [|intros H; injection H as <-; now left].
      destruct (outcome (Any.entries v)); cbn [outcome console];
        [|intros H; injection H as <-; now left].
      destruct (outcome (loose_explorers_from empty value0)); cbn [outcome console];
        [discriminate|intros H; injection H as <-; now left].
  - cbn. intros H; injection H as <-. right. now exists [].
Qed.

(** The list of networks holds exactly the values of the mapping, once. *)
Lemma networkList_values ids k :
  In k (build_networkList ids) <-> In k (values ids).
Proof.
  unfold build_networkList. rewrite ListFacts.allNetworks_distinct.
  rewrite in_app_iff, !filter_In, ListFacts.has_In, ListFacts.In_distinct, negb_true_iff.
  destruct (arr_includes popularNetworks k) eqn:E.
  - apply ListFacts.arr_includes_In in E. split; [tauto|].
    intros H. left. now split.
  - split; [tauto|]. intros H. right. now split.
Qed.

Lemma networkList_NoDup ids : NoDup (build_networkList ids).
Proof.
  unfold build_networkList. rewrite ListFacts.allNetworks_distinct.
  apply NoDup_app.
  - apply NoDup_filter, ListFacts.NoDup_popularNetworks.
  - apply NoDup_filter, ListFacts.NoDup_distinct.
  - intros x H1 H2. apply filter_In in H1 as [H1 _]. apply filter_In in H2 as [_ H2].
    apply negb_true_iff in H2.
    apply (ListFacts.arr_includes_In popularNetworks x) in H1. congruence.
Qed.

(** The parts of the chain data agree with each other on every path. *)
Lemma chain_explorer w cd k :
  outcome (fetchChainData w) = Fulfilled (Typed cd) ->
  In k (values (chainIds cd)) -> k <> proto ->
  get k (explorers cd) = Some (explorer_url k).
Proof.
  intros H Hin Hp. apply fetchChainData_shapes in H as [->|[ids ->]].
  - cbn in Hin. decompose [or] Hin; subst; try reflexivity. contradiction.
  - cbn [explorers chainIds] in *. unfold build_explorers.
    now apply ExplorerFacts.explorers_set.
Qed.

Lemma chain_explorer_inv w cd k u :
  outcome (fetchChainData w) = Fulfilled (Typed cd) ->
  get k (explorers cd) = Some u ->
  In k (values (chainIds cd)) /\ k <> proto /\ u = explorer_url k.
Proof.
  intros H Hget. apply fetchChainData_shapes in H as [->|[ids ->]].
  - apply get_Some_In in Hget. cbn in Hget.
    decompose [or] Hget; try contradiction;
      match goal with E : (_, _) = (_, _) |- _ => injection E as <- <- end;
      (split; [cbn; tauto|split; [discriminate|reflexivity]]).
  - cbn [explorers chainIds] in *. unfold build_explorers in Hget.
    apply ExplorerFacts.explorers_inv in Hget as [Hget|(H1 & H2 & H3)]; [discriminate|].
    now repeat split.
Qed.

Lemma chain_list w cd :
  outcome (fetchChainData w) = Fulfilled (Typed cd) ->
  NoDup (networkList cd)
  /\ forall k, In k (networkList cd) <-> In k (values (chainIds cd)).
Proof.
  intros H. apply fetchChainData_shapes in H as [->|[ids ->]].
  - split.
    + cbn. repeat constructor; cbn; intuition discriminate.
    + intros k. cbn. tauto.
  - cbn [networkList chainIds]. split; [apply networkList_NoDup|].
    intros k. apply networkList_values.
Qed.

(** The RPC data of every path: the fallback, the map built from the
    chain data of the declared type, or the map built from the entries
    of any other value. *)
Lemma fetchRpcData_shapes up w1 w2 result :
  outcome (fetchRpcData up w1 w2) = Fulfilled result ->
  result = TypedRpc fallbackRpcData
  \/ (exists cd content,
        outcome (fetchChainData w1) = Fulfilled (Typed cd)
        /\ w2 = Response true (Text content)
        /\ result = TypedRpc
                      {| networks := build_networksMap up (chainIds cd) (explorers cd) content;
                         rpc_networkList := networkList cd |})
  \/ (exists cd content entries,
        outcome (fetchChainData w1) = Fulfilled (Loose cd)
        /\ w2 = Response true (Text content)
        /\ result = LooseRpc
                      {| any_networks := loose_networksMap up entries (any_explorers cd) content;
                         any_rpc_networkList := any_networkList cd |}).
Proof.
  unfold fetchRpcData, try_catch, bind.
  destruct (ChainDataFacts.fetchChainData_cases w1) as [r E]; rewrite E; cbn [outcome].
  destruct w2 as [|[|] [content|]];
    cbn [fetch text outcome console ret throw fst snd negb];
    try (intros H; injection H as <-; now left).
  destruct r as [cd|cd]; cbn [outcome console ret].
  - intros H; injection H as <-. right. left. now exists cd, content.
  - destruct (outcome (Any.entries (any_chainIds cd))) as [entries|]; cbn [outcome console];
      [|intros H; injection H as <-; now left].
    destruct (outcome (keyed entries)) as [entries'|]; cbn [outcome console];
      [|intros H; injection H as <-; now left].
    intros H; injection H as <-. right. right. now exists cd, content, entries'.
Qed.

Lemma fallbackNetworks_entry k info :
  get k fallbackNetworks = Some info ->
  rpcs info <> [] /\ blockExplorer info = explorer_url k
  /\ In k (rpc_networkList fallbackRpcData).
Proof.
  intros H. apply get_Some_In in H. cbn in H.
  decompose [or] H; try contradiction;
    match goal with E : (_, _) = (_, _) |- _ => injection E as <- <- end;
    (split; [discriminate|split; [reflexivity|cbn; tauto]]).
Qed.

(** The loop records an entry only with the URLs it found, and there
    is at least one. *)
Lemma visits_rpcs up ex content E nm :
  (forall k info, get k nm = Some info -> rpcs info <> []) ->
  forall k info,
    get k (fold_left (visit up ex content) E nm) = Some info -> rpcs info <> [].
Proof.
  revert nm; induction E as [|[k0 n0] E IH]; intros nm H; [exact H|].
  cbn [fold_left]. apply IH. intros k info.
  rewrite DiscoveryFacts.visit_spec.
  destruct (recovered content n0) as [|u us] eqn:R; [apply H|].
  destruct (list_eq_dec N.eq_dec k0 k) as [->|Hne].
  - destruct (list_eq_dec N.eq_dec k proto) as [->|Hp].
    + rewrite assign_proto. apply H.
    + rewrite get_assign_eq by exact Hp. intros G; injection G as <-.
      cbn [rpcs entry_for]. rewrite R. discriminate.
  - rewrite get_assign_ne by exact Hne. apply H.
Qed.

(** An entry of the map built by the loop: its key is a value of the
    mapping other than the reserved name, and it is the entry of the
    chain ID kept for the key, with at least one URL. *)
Lemma networksMap_entry up ids ex content k info :
  get k (build_networksMap up ids ex content) = Some info ->
  k <> proto /\ In k (values ids)
  /\ rpcs info <> []
  /\ blockExplorer info = explorer_or_empty ex k.
Proof.
  rewrite DiscoveryFacts.networksMap_get.
  destruct (get k (networkKeyToChainId ids)) as [n|] eqn:E; [|discriminate].
  apply DiscoveryFacts.kept_spec in E as (Hp & before & c & after & He & _ & _).
  destruct (recovered content n) as [|u us] eqn:R; [discriminate|].
  intros H; injection H as <-. cbn [rpcs blockExplorer entry_for].
  split; [exact Hp|]. split.
  - unfold values. rewrite He, map_app. apply in_or_app. right. now left.
  - split; [rewrite R; discriminate|reflexivity].
Qed.

Lemma explorer_url_nonempty k : explorer_url k <> [].
Proof.
  unfold explorer_url.
  repeat match goal with |- context [if ?b then _ else _] => destruct b end;
    discriminate.
Qed.

(** A fulfilled probe result is one of the candidates. *)
Lemma first_fulfilled_member net i0 rpcs v :
  Probe.first_fulfilled (Probe.results_from net i0 rpcs) = Some v -> In v rpcs.
Proof.
  unfold Probe.results_from.
  revert i0; induction rpcs as [|r rpcs IH]; intros i0; cbn [Probe.mapi_from map];
    [discriminate|].
  unfold Probe.settle at 1. cbn [Probe.run].
  destruct (ProbeFacts.probe_cases (net i0 r) r) as [E|E]; rewrite E;
    cbn [Probe.first_fulfilled].
  - intros H; injection H as <-. now left.
  - intros H. right. exact (IH (S i0) H).
Qed.

Lemma findWorkingRpc_member net rpcs :
  rpcs <> [] ->
  exists rpc, outcome (Probe.result (Probe.findWorkingRpc net rpcs)) = Fulfilled rpc
              /\ In rpc rpcs.
Proof.
  destruct rpcs as [|first rest]; [congruence|]. intros _.
  rewrite ProbeFacts.findWorkingRpc_outcome.
  destruct (Probe.first_fulfilled (Probe.results_from net 0 (first :: rest))) as [v|] eqn:E.
  - exists v. split; [reflexivity|]. exact (first_fulfilled_member _ _ _ _ E).
  - exists first. split; [reflexivity|now left].
Qed.

(** The object of a literal, as [JSON.parse] builds it and as the
    source types it. *)
Lemma get_strings (k : jsstring) (o : Obj.t jsstring) :
  get k (strings o) = option_map Json.JString (get k o).
Proof.
  unfold strings. induction o as [|[k' v] o IH]; [reflexivity|]. cbn.
  destruct (str_eqb k' k); [reflexivity|exact IH].
Qed.

Lemma define_strings (k v : jsstring) (o : Obj.t jsstring) :
  define k (Json.JString v) (strings o) = strings (define k v o).
Proof.
  unfold define, has. rewrite get_strings.
  destruct (get k o) as [w|]; cbn [option_map].
  - clear. unfold strings. induction o as [|[k' v'] o IH]; [reflexivity|]. cbn.
    destruct (str_eqb k' k); [reflexivity|]. cbn. now rewrite IH.
  - unfold strings. now rewrite map_app.
Qed.

Lemma object_of_literal kvs :
  object_of kvs = Json.JObject (strings (literal kvs)).
Proof.
  unfold object_of, literal. f_equal.
  change (@empty Json.json) with (strings empty).
  generalize (@empty jsstring) as o.
  induction kvs as [|kv kvs IH]; intros o; [reflexivity|]. cbn [fold_left].
  rewrite define_strings. apply IH.
Qed.

End PipelineFacts.

(** X2.  [findWorkingRpc] on a non-empty list is always fulfilled with one
    of the candidates it was given: it never makes up an endpoint and,
    whatever the network does, never rejects. *)
Theorem findWorkingRpc_returns_a_candidate :
  forall (net : nat -> jsstring -> Probe.Net) (rpcs : list jsstring),
    rpcs <> [] ->
    exists rpc,
      outcome (Probe.result (Probe.findWorkingRpc net rpcs)) = Fulfilled rpc
      /\ In rpc rpcs.
Proof.
  intros net rpcs H. now apply PipelineFacts.findWorkingRpc_member.
Qed.

Lemma findWorkingRpc_returns_a_candidate_witness :
  exists rpc,
    outcome (Probe.result (Probe.findWorkingRpc Probe.nobody_answers Probe.u12))
    = Fulfilled rpc
    /\ In rpc Probe.u12.
Proof.
  apply (@findWorkingRpc_returns_a_candidate Probe.nobody_answers Probe.u12).
  discriminate.
Defined.

(** X3.  Whenever [fetchChainData] returns chain data of the declared type
    (the fetched mapping of strings, the empty mapping after a failed
    extraction, or the fallback), its three parts agree: the network
    list has no duplicate and holds exactly the values of the chain-ID
    mapping, every listed network other than the reserved name has its
    explorer, and the explorer map has no entry for anything else. *)
Theorem fetchChainData_parts_agree :
  forall (w : Fetch) (cd : ChainData),
    outcome (fetchChainData w) = Fulfilled (Typed cd) ->
    NoDup (networkList cd)
    /\ (forall k, In k (networkList cd) <-> In k (Obj.values (chainIds cd)))
    /\ (forall k, In k (networkList cd) -> k <> Obj.proto ->
          Obj.get k (explorers cd) = Some (explorer_url k))
    /\ (forall k u, Obj.get k (explorers cd) = Some u ->
          In k (networkList cd) /\ u = explorer_url k).
Proof.
  intros w cd H.
  destruct (PipelineFacts.chain_list w cd H) as [Hnd Hin].
  split; [exact Hnd|]. split; [exact Hin|]. split.
  - intros k Hk Hp. apply (PipelineFacts.chain_explorer w cd k H); [|exact Hp].
    now apply Hin.
  - intros k u Hget.
    destruct (PipelineFacts.chain_explorer_inv w cd k u H Hget) as (H1 & _ & H3).
    split; [now apply Hin|exact H3].
Qed.

Lemma fetchChainData_parts_agree_witness :
  Obj.get (js "linea") (explorers (mkChainData proto_mapping (build_explorers proto_mapping)
                                     (build_networkList proto_mapping)))
  = Some (js "https://lineascan.com/tx/").
Proof.
  assert (E : outcome (fetchChainData (Response true (Text proto_text)))
              = Fulfilled (Typed (mkChainData proto_mapping (build_explorers proto_mapping)
                                    (build_networkList proto_mapping))))
    by (vm_compute; reflexivity).
  destruct (@fetchChainData_parts_agree (Response true (Text proto_text)) _ E)
    as (_ & _ & H & _).
  apply (H (js "linea")).
  - vm_compute. tauto.
  - discriminate.
Defined.

(** X4.  A text that holds one object literal of the supported form is read
    completely: [fetchChainData] logs nothing and returns the object
    with the pairs of the literal (for a key written twice, the later
    value at the place of the first), with the explorers and the list
    built from it. *)
Theorem fetchChainData_reads_supported_literal :
  forall (prefix suffix : jsstring) (lit : literal),
    free_of (chr "{") prefix = true ->
    free_of (chr "}") suffix = true ->
    wf_literal lit = true ->
    fetchChainData (Response true (Text (prefix ++ layout as_written lit ++ suffix)))
    = ret (Typed {| chainIds := Obj.literal (pairs_of lit);
                    explorers := build_explorers (Obj.literal (pairs_of lit));
                    networkList := build_networkList (Obj.literal (pairs_of lit)) |}).
Proof.
  intros prefix suffix lit Hpre Hsuf Hwf.
  assert (E : extractObject (prefix ++ layout as_written lit ++ suffix)
              = ret (object_of (pairs_of lit))).
  { destruct (JsonFacts.layout_between as_written lit) as [mid Hmid].
    rewrite ChainDataFacts.extractObject_unfold, ChainDataFacts.lastIndexOf_succ.
    assert (H1 : (indexOf (prefix ++ layout as_written lit ++ suffix) (chr "{") =? -1)%Z
                 = false).
    { apply Z.eqb_neq. rewrite Hmid. cbn [app]. now apply SliceFacts.indexOf_found. }
    rewrite H1. cbn [orb].
    rewrite Hmid, SliceFacts.objStr_between by assumption. rewrite <- Hmid.
    rewrite NormalizeFacts.jsonStr_layout by exact Hwf.
    now rewrite JsonFacts.parse_layout_object by exact Hwf. }
  unfold fetchChainData, try_catch, bind.
  cbn [fetch text outcome console ret fst snd negb].
  rewrite E, PipelineFacts.object_of_literal. cbn [outcome console ret as_record].
  rewrite AnyFacts.all_strings_strings. reflexivity.
Qed.

Lemma fetchChainData_reads_supported_literal_witness :
  outcome (fetchChainData (Response true (Text sample_source)))
  = Fulfilled
      (Typed
         {| chainIds := [(js "1", js "ethereum"); (js "10", js "optimism");
                         (js "137", js "polygon")];
            explorers := [(js "ethereum", js "https://etherscan.io/tx/");
                          (js "optimism", js "https://optimistic.etherscan.io/tx/");
                          (js "polygon", js "https://polygonscan.com/tx/")];
            networkList := [js "ethereum"; js "optimism"; js "polygon"] |}).
Proof.
  unfold sample_source.
  rewrite (@fetchChainData_reads_supported_literal (js "export default ") (js ";")
             sample_literal eq_refl eq_refl eq_refl).
  reflexivity.
Defined.

(** X5.  [fetchRpcData] never rejects, whatever the two requests do and
    whatever the texts hold.  When the request for the RPC list fails,
    is answered with an error status or its body cannot be read, it
    logs the error after what [fetchChainData] logged and returns the
    hardcoded five networks, each with one endpoint, whatever chain
    data was obtained before. *)
Theorem fetchRpcData_never_rejects_fallback_on_rpc_list_failure :
  forall (toUpperCase : jsstring -> jsstring) (w1 w2 : Fetch),
    (exists result, outcome (fetchRpcData toUpperCase w1 w2) = Fulfilled result)
    /\ (forall e, outcome (fetchRpcData toUpperCase w1 w2) <> Rejected e)
    /\ (w2 = FetchFails \/ (exists body, w2 = Response false body)
        \/ w2 = Response true BodyFails ->
        outcome (fetchRpcData toUpperCase w1 w2) = Fulfilled (TypedRpc fallbackRpcData)
        /\ exists e, console (fetchRpcData toUpperCase w1 w2)
                     = console (fetchChainData w1)
                       ++ [mkLog Err (js "Error fetching RPC data:") (Some e)])
    /\ map (fun entry => (fst entry, chainId (snd entry), rpcs (snd entry)))
         (Obj.entries (networks fallbackRpcData))
       = [(js "ethereum", Int 1, [js "https://eth.llamarpc.com"]);
          (js "arbitrum", Int 42161, [js "https://arb.llamarpc.com"]);
          (js "optimism", Int 10, [js "https://optimism.llamarpc.com"]);
          (js "polygon", Int 137, [js "https://polygon.llamarpc.com"]);
          (js "base", Int 8453, [js "https://base.llamarpc.com"])].
Proof.
  intros up w1 w2.
  assert (F : exists result, outcome (fetchRpcData up w1 w2) = Fulfilled result).
  { unfold fetchRpcData.
    match goal with |- context [try_catch ?b ?h] => set (body := b) end.
    unfold try_catch. destruct (outcome body) eqn:E.
    - rewrite E. eauto.
    - unfold bind. cbn. eauto. }
  split; [exact F|]. split; [|split; [|reflexivity]].
  - intros e H. destruct F as [r F]. congruence.
  - intros Hw. destruct (ChainDataFacts.fetchChainData_cases w1) as [cd E].
    unfold fetchRpcData, try_catch, bind. rewrite E.
    destruct Hw as [->|[[body ->]| ->]];
      cbn [fetch text outcome console ret throw fst snd negb];
      (split; [reflexivity|eexists; rewrite ?app_nil_r; reflexivity]).
Qed.

Lemma fetchRpcData_never_rejects_fallback_on_rpc_list_failure_witness :
  outcome (fetchRpcData ascii_upper (Response true (Text proto_text))
             (Response false (Text (js "404: Not Found"))))
  = Fulfilled (TypedRpc fallbackRpcData).
Proof.
  destruct (@fetchRpcData_never_rejects_fallback_on_rpc_list_failure ascii_upper
              (Response true (Text proto_text))
              (Response false (Text (js "404: Not Found")))) as (_ & _ & H & _).
  apply H. right. left. eexists. reflexivity.
Defined.

(** X6.  Every entry of the map returned by [fetchRpcData], on every path
    and whatever the fetched texts hold, has at least one endpoint, so
    that [findWorkingRpc] called on its [rpcs] (as the transaction
    viewer does) never rejects and returns one of them. *)
Theorem networks_entry_can_be_probed :
  forall (toUpperCase : jsstring -> jsstring) (w1 w2 : Fetch) (result : RpcResult)
         (k : jsstring) (info : NetworkInfo) (net : nat -> jsstring -> Probe.Net),
    outcome (fetchRpcData toUpperCase w1 w2) = Fulfilled result ->
    Obj.get k (UseRpcData.networks_of result) = Some info ->
    rpcs info <> []
    /\ exists rpc,
         outcome (Probe.result (Probe.findWorkingRpc net (rpcs info))) = Fulfilled rpc
         /\ In rpc (rpcs info).
Proof.
  intros up w1 w2 result k info net H Hget.
  assert (E : rpcs info <> []).
  { apply PipelineFacts.fetchRpcData_shapes in H
      as [->|[(cd & content & _ & _ & ->)|(cd & content & entries & _ & _ & ->)]].
    - now apply PipelineFacts.fallbackNetworks_entry in Hget.
    - cbn [UseRpcData.networks_of networks] in Hget.
      now apply PipelineFacts.networksMap_entry in Hget.
    - cbn [UseRpcData.networks_of any_networks] in Hget. unfold loose_networksMap in Hget.
      revert Hget. apply PipelineFacts.visits_rpcs. intros k' i' G. discriminate G. }
  split; [exact E|]. now apply PipelineFacts.findWorkingRpc_member.
Qed.

Lemma networks_entry_can_be_probed_witness :
  rpcs ab_entry <> []
  /\ exists rpc,
       outcome (Probe.result (Probe.findWorkingRpc Probe.nobody_answers (rpcs ab_entry)))
       = Fulfilled rpc
       /\ In rpc (rpcs ab_entry).
Proof.
  assert (H : outcome (fetchRpcData ascii_upper FetchFails (Response true (Text ab_text)))
              = Fulfilled (TypedRpc ab_data)) by (vm_compute; reflexivity).
  exact (@networks_entry_can_be_probed ascii_upper FetchFails
           (Response true (Text ab_text)) (TypedRpc ab_data) (js "ethereum") ab_entry
           Probe.nobody_answers H eq_refl).
Defined.

(** X7.  Every entry of a map of the declared type returned by
    [fetchRpcData] carries the explorer of its network key: the known
    URL for the ten well-known keys and the synthesized one otherwise.
    The empty string that the source provides as a default is never
    used. *)
Theorem networks_entry_explorer_never_empty :
  forall (toUpperCase : jsstring -> jsstring) (w1 w2 : Fetch) (data : RpcData)
         (k : jsstring) (info : NetworkInfo),
    outcome (fetchRpcData toUpperCase w1 w2) = Fulfilled (TypedRpc data) ->
    Obj.get k (networks data) = Some info ->
    blockExplorer info = explorer_url k /\ blockExplorer info <> [].
Proof.
  intros up w1 w2 data k info H Hget.
  assert (E : blockExplorer info = explorer_url k).
  { apply PipelineFacts.fetchRpcData_shapes in H
      as [H|[(cd & content & Hcd & _ & H)|(cd & content & entries & _ & _ & H)]];
      [injection H as ->| injection H as -> |discriminate H].
    - now apply PipelineFacts.fallbackNetworks_entry in Hget.
    - cbn [networks] in Hget.
      apply PipelineFacts.networksMap_entry in Hget as (Hp & Hin & _ & ->).
      unfold explorer_or_empty.
      now rewrite (PipelineFacts.chain_explorer w1 cd k Hcd Hin Hp). }
  split; [exact E|]. rewrite E. apply PipelineFacts.explorer_url_nonempty.
Qed.

Lemma networks_entry_explorer_never_empty_witness :
  outcome (fetchRpcData ascii_upper FetchFails (Response true (Text ab_text)))
  = Fulfilled (TypedRpc ab_data)
  /\ Obj.get (js "ethereum") (networks ab_data) = Some ab_entry
  /\ blockExplorer ab_entry = js "https://etherscan.io/tx/"
  /\ blockExplorer ab_entry <> [].
Proof.
  assert (H : outcome (fetchRpcData ascii_upper FetchFails (Response true (Text ab_text)))
              = Fulfilled (TypedRpc ab_data)) by (vm_compute; reflexivity).
  split; [exact H|]. split; [reflexivity|].
  exact (@networks_entry_explorer_never_empty ascii_upper FetchFails
           (Response true (Text ab_text)) ab_data (js "ethereum") ab_entry H eq_refl).
Defined.

(** X8.  Every network that has an entry in a map of the declared type
    returned by [fetchRpcData] is in the network list returned with
    it, and is not the reserved name; the list has no duplicate. *)
Theorem networks_keys_are_listed :
  forall (toUpperCase : jsstring -> jsstring) (w1 w2 : Fetch) (data : RpcData),
    outcome (fetchRpcData toUpperCase w1 w2) = Fulfilled (TypedRpc data) ->
    NoDup (rpc_networkList data)
    /\ forall k info, Obj.get k (networks data) = Some info ->
          In k (rpc_networkList data) /\ k <> Obj.proto.
Proof.
  intros up w1 w2 data H.
  apply PipelineFacts.fetchRpcData_shapes in H
    as [H|[(cd & content & Hcd & _ & H)|(cd & content & entries & _ & _ & H)]];
    [injection H as ->| injection H as -> |discriminate H].
  - split.
    + cbn. repeat constructor; cbn; intuition discriminate.
    + intros k info Hget. split.
      * now apply PipelineFacts.fallbackNetworks_entry in Hget.
      * intros ->. discriminate Hget.
  - cbn [networks rpc_networkList].
    destruct (PipelineFacts.chain_list w1 cd Hcd) as [Hnd Hin].
    split; [exact Hnd|]. intros k info Hget.
    apply PipelineFacts.networksMap_entry in Hget as (Hp & Hv & _).
    split; [now apply Hin|exact Hp].
Qed.

Lemma networks_keys_are_listed_witness :
  NoDup (rpc_networkList ab_data)
  /\ In (js "ethereum") (rpc_networkList ab_data).
Proof.
  assert (H : outcome (fetchRpcData ascii_upper FetchFails (Response true (Text ab_text)))
              = Fulfilled (TypedRpc ab_data)) by (vm_compute; reflexivity).
  destruct (@networks_keys_are_listed ascii_upper FetchFails
              (Response true (Text ab_text)) ab_data H) as [Hnd Hin].
  split; [exact Hnd|]. exact (proj1 (Hin (js "ethereum") ab_entry eq_refl)).
Defined.

(** X9.  The effect of [useRpcData] always ends with the data set: since
    [fetchRpcData] never rejects, the [catch] of [loadRpcData] is never
    entered.  From any state, the load leaves [error] as it was, sets
    [loading] to false and stores the map and the list of the result
    of [fetchRpcData]; it writes to the console what [fetchRpcData]
    wrote.  From the initial state the hook therefore never reports an
    error, and every network of the stored map has an endpoint. *)
Theorem useRpcData_load_never_sets_error :
  forall (toUpperCase : jsstring -> jsstring) (w1 w2 : Fetch) (s : UseRpcData.State),
    exists result,
      outcome (fetchRpcData toUpperCase w1 w2) = Fulfilled result
      /\ UseRpcData.loadRpcData toUpperCase w1 w2 s
         = mkM (console (fetchRpcData toUpperCase w1 w2))
             (Fulfilled
                {| UseRpcData.networksData := Some (UseRpcData.networks_of result);
                   UseRpcData.networkList := UseRpcData.networkList_of result;
                   UseRpcData.loading := false;
                   UseRpcData.error := UseRpcData.error s |})
      /\ (forall s', outcome (UseRpcData.loadRpcData toUpperCase w1 w2 UseRpcData.initial)
                     = Fulfilled s' ->
            UseRpcData.error s' = None
            /\ UseRpcData.loading s' = false
            /\ exists networks, UseRpcData.networksData s' = Some networks
                 /\ forall k info, Obj.get k networks = Some info -> rpcs info <> []).
Proof.
  intros up w1 w2 s.
  assert (F : exists result, outcome (fetchRpcData up w1 w2) = Fulfilled result).
  { unfold fetchRpcData.
    match goal with |- context [try_catch ?b ?h] => set (body := b) end.
    unfold try_catch. destruct (outcome body) eqn:E.
    - rewrite E. eauto.
    - unfold bind. cbn. eauto. }
  destruct F as [result F]. exists result. split; [exact F|].
  assert (L : forall s0,
             UseRpcData.loadRpcData up w1 w2 s0
             = mkM (console (fetchRpcData up w1 w2))
                 (Fulfilled
                    {| UseRpcData.networksData := Some (UseRpcData.networks_of result);
                       UseRpcData.networkList := UseRpcData.networkList_of result;
                       UseRpcData.loading := false;
                       UseRpcData.error := UseRpcData.error s0 |})).
  { intros s0. unfold UseRpcData.loadRpcData, try_catch, bind. rewrite F.
    cbn [outcome console ret]. rewrite !app_nil_r. reflexivity. }
  split; [apply L|].
  intros s'. rewrite L. cbn [outcome]. intros H; injection H as <-.
  cbn [UseRpcData.error UseRpcData.loading UseRpcData.networksData UseRpcData.initial].
  split; [reflexivity|]. split; [reflexivity|].
  exists (UseRpcData.networks_of result). split; [reflexivity|].
  intros k info Hget.
  apply PipelineFacts.fetchRpcData_shapes in F
    as [->|[(cd & content & _ & _ & ->)|(cd & content & entries & _ & _ & ->)]].
  - now apply PipelineFacts.fallbackNetworks_entry in Hget.
  - cbn [UseRpcData.networks_of networks] in Hget.
    now apply PipelineFacts.networksMap_entry in Hget.
  - cbn [UseRpcData.networks_of any_networks] in Hget. unfold loose_networksMap in Hget.
    revert Hget. apply PipelineFacts.visits_rpcs. intros k' i' G. discriminate G.
Qed.

(** ** The unit converter *)

Module ConverterFacts.
Import RegExp RegExpFacts UrlFacts.

#[local] Unset Implicit Arguments.

Lemma includes_char s x : includes s [x] = negb (free_of x s).
Proof.
  induction s as [|y s IH]; [reflexivity|].
  cbn [includes free_of forallb]. fold (free_of x s).
  unfold startsWith. cbn [strip_prefix]. unfold except.
  destruct (N.eqb x y); cbn; [reflexivity|exact IH].
Qed.

Lemma free_of_cons x y s : free_of x (y :: s) = negb (N.eqb x y) && free_of x s.
Proof. reflexivity. Qed.

Lemma upto_free x s : free_of x s = true -> upto x s = s.
Proof.
  induction s as [|y s IH]; [reflexivity|]. rewrite free_of_cons.
  intros H. apply andb_true_iff in H as [Hy H]. apply negb_true_iff in Hy.
  cbn [upto]. rewrite N.eqb_sym, Hy. now rewrite IH.
Qed.

Lemma free_of_upto x s : free_of x (upto x s) = true.
Proof.
  induction s as [|y s IH]; [reflexivity|]. cbn [upto].
  destruct (N.eqb y x) eqn:E; [reflexivity|].
  rewrite free_of_cons, N.eqb_sym, E. exact IH.
Qed.

Lemma upto_app x a s : free_of x a = true -> upto x (a ++ x :: s) = a.
Proof.
  induction a as [|y a IH]; cbn [app upto].
  - now rewrite N.eqb_refl.
  - rewrite free_of_cons. intros H. apply andb_true_iff in H as [Hy H].
    apply negb_true_iff in Hy. rewrite N.eqb_sym, Hy. now rewrite IH.
Qed.

Lemma after_app x a s : free_of x a = true -> after x (a ++ x :: s) = s.
Proof.
  induction a as [|y a IH]; cbn [app after].
  - now rewrite N.eqb_refl.
  - rewrite free_of_cons. intros H. apply andb_true_iff in H as [Hy H].
    apply negb_true_iff in Hy. rewrite N.eqb_sym, Hy. now apply IH.
Qed.

(** A text with an [x] is the part before it, the [x] and the rest. *)
Lemma upto_after x s : free_of x s = false -> s = upto x s ++ x :: after x s.
Proof.
  induction s as [|y s IH]; [discriminate|]. rewrite free_of_cons. cbn [upto after].
  destruct (N.eqb y x) eqn:E.
  - intros _. apply N.eqb_eq in E. now subst.
  - rewrite N.eqb_sym, E. cbn [negb andb]. intros H. cbn [app]. now rewrite <- IH.
Qed.

Lemma split_cases s x :
  split s x = upto x s :: (if free_of x s then [] else split (after x s) x).
Proof.
  induction s as [|y s IH]; [reflexivity|]. cbn [split upto after].
  rewrite free_of_cons, (N.eqb_sym x y).
  destruct (N.eqb y x); cbn [negb andb]; [reflexivity|].
  now rewrite IH.
Qed.

Lemma star_chr_at_end p s c :
  star_chr p at_end s c = if forallb p s then Some ([], c) else None.
Proof.
  induction s as [|x s IH]; [reflexivity|]. cbn [star_chr forallb].
  destruct (p x); [|reflexivity]. cbn [andb]. rewrite IH.
  now destruct (forallb p s).
Qed.

Lemma m_Chr p k s c :
  m (Chr p) k s c = match s with x :: s' => if p x then k s' c else None | [] => None end.
Proof. reflexivity. Qed.

Lemma match_to_end_zeros s :
  match_to_end re_zeros s
  = match s with
    | [] => None
    | _ :: _ => if forallb is_zero s then Some ([], []) else None
    end.
Proof.
  unfold match_to_end, re_zeros, Plus. rewrite m_Seq, m_Chr.
  destruct s as [|x s]; [reflexivity|]. cbn [forallb]. fold is_zero.
  destruct (is_zero x); [|reflexivity]. cbn [andb].
  now rewrite m_Star_Chr, star_chr_at_end.
Qed.

(** The replacement of [/0+$/] removes the trailing zeros. *)
Lemma replace_zeros s :
  replace_first (match_to_end re_zeros) (fun _ => []) s = strip_zeros s.
Proof.
  induction s as [|x s IH]; [reflexivity|].
  cbn [replace_first strip_zeros]. rewrite match_to_end_zeros.
  destruct (forallb is_zero (x :: s)); [reflexivity|]. now rewrite IH.
Qed.

(** [formatFixedNumber] on a text with a point. *)
Lemma formatFixedNumber_point s d :
  free_of (chr ".") s = false ->
  formatFixedNumber s d
  = match strip_zeros (slice_number (upto (chr ".") (after (chr ".") s)) d) with
    | [] => upto (chr ".") s
    | t => upto (chr ".") s ++ js "." ++ t
    end.
Proof.
  intros H. unfold formatFixedNumber.
  destruct s as [|x s]; [discriminate|].
  change (js ".") with [chr "."] at 1. rewrite includes_char, H. cbn [negb].
  rewrite replace_zeros, split_cases, H. cbn [nth].
  rewrite split_cases. cbn [nth].
  now destruct (strip_zeros _).
Qed.

Lemma formatFixedNumber_plain s d :
  free_of (chr ".") s = true -> formatFixedNumber s d = s.
Proof.
  intros H. unfold formatFixedNumber. destruct s as [|x s]; [reflexivity|].
  change (js ".") with [chr "."]. now rewrite includes_char, H.
Qed.

(** Trailing zeros: what is removed is zeros, what is left does not end
    with one, and a text that does not end with a zero is left as it is. *)
Lemma strip_zeros_split s :
  exists zeros, s = strip_zeros s ++ zeros /\ forallb is_zero zeros = true.
Proof.
  induction s as [|x s IH]; [now exists []|]. cbn [strip_zeros].
  destruct (forallb is_zero (x :: s)) eqn:E.
  - now exists (x :: s).
  - destruct IH as (zeros & Hs & Hz). exists zeros. split; [|exact Hz].
    cbn [app]. now rewrite <- Hs.
Qed.

Lemma strip_zeros_last s pre x : strip_zeros s = pre ++ [x] -> x <> chr "0".
Proof.
  revert pre; induction s as [|y s IH]; intros pre; cbn [strip_zeros].
  - now destruct pre.
  - destruct (forallb is_zero (y :: s)) eqn:E; [now destruct pre|].
    destruct pre as [|p pre]; cbn [app].
    + intros H. injection H as -> Hs.
      destruct (strip_zeros_split s) as (zeros & Hz1 & Hz2).
      rewrite Hs in Hz1. cbn [app] in Hz1. subst s.
      cbn [forallb] in E. rewrite Hz2, andb_true_r in E.
      intros ->. discriminate E.
    + intros H. injection H as _ Hs. exact (IH _ Hs).
Qed.




Lemma strip_zeros_free x s : free_of x s = true -> free_of x (strip_zeros s) = true.
Proof.
  intros H. destruct (strip_zeros_split s) as (zeros & Hs & _).
  rewrite Hs, free_of_app in H. now apply andb_true_iff in H.
Qed.

Lemma slice0_nonneg s e : (0 <= e)%Z -> slice0 s e = firstn (Z.to_nat e) s.
Proof.
  intros H. unfold slice0.
  destruct (e <? 0)%Z eqn:E; [apply Z.ltb_lt in E; lia|].
  destruct (Z.le_ge_cases e (Z.of_nat (List.length s))) as [L|L].
  - now rewrite Z.min_l.
  - rewrite Z.min_r by lia. rewrite Nat2Z.id, firstn_all.
    symmetry. apply firstn_all2. lia.
Qed.

Lemma slice0_prefix s e : exists rest, s = slice0 s e ++ rest.
Proof. unfold slice0. eexists. symmetry. apply firstn_skipn. Qed.

Lemma slice0_free x s e : free_of x s = true -> free_of x (slice0 s e) = true.
Proof.
  intros H. destruct (slice0_prefix s e) as [rest Hs].
  rewrite Hs, free_of_app in H. now apply andb_true_iff in H.
Qed.




Lemma free_of_with x a b : free_of x (a ++ x :: b) = false.
Proof.
  rewrite free_of_app, free_of_cons, N.eqb_refl. cbn. apply andb_false_r.
Qed.

(** Removing the matches of a character class is a filter. *)
Lemma replace_erase p s :
  replace (Chr p) (fun _ => []) s = filter (fun x => negb (p x)) s.
Proof.
  induction s as [|x s IH].
  - now apply replace_nil.
  - cbn [filter]. destruct (p x) eqn:E; cbn [negb].
    + rewrite (@replace_match (Chr p) (fun _ => []) (x :: s) s []).
      * exact IH.
      * unfold match_at. rewrite m_Chr. now rewrite E.
      * cbn. lia.
    + rewrite replace_skip; [now rewrite IH|].
      unfold match_at. rewrite m_Chr. now rewrite E.
Qed.

Lemma indexOf_from_cases i x s :
  indexOf_from i x s
  = if free_of x s then (-1)%Z else (i + Z.of_nat (List.length (upto x s)))%Z.
Proof.
  revert i; induction s as [|y s IH]; intros i; [reflexivity|].
  cbn [indexOf_from upto]. rewrite free_of_cons, (N.eqb_sym x y).
  destruct (N.eqb y x); cbn [negb andb List.length].
  - lia.
  - rewrite IH. destruct (free_of x s); [reflexivity|]. cbn [List.length]. lia.
Qed.

Lemma skipn_after x s :
  free_of x s = false -> skipn (S (List.length (upto x s))) s = after x s.
Proof.
  induction s as [|y s IH]; [discriminate|]. rewrite free_of_cons. cbn [upto after].
  destruct (N.eqb y x) eqn:E; [reflexivity|].
  rewrite N.eqb_sym, E. cbn [negb andb]. intros H. cbn [List.length skipn].
  now apply IH.
Qed.

Lemma upto_length x s : List.length (upto x s) <= List.length s.
Proof.
  induction s as [|y s IH]; [reflexivity|]. cbn [upto].
  destruct (N.eqb y x); cbn [List.length]; lia.
Qed.

Lemma upto_length_lt x s :
  free_of x s = false -> List.length (upto x s) < List.length s.
Proof.
  intros H. rewrite (upto_after x s H) at 2. rewrite length_app. cbn. lia.
Qed.

(** The text cut before its second [x]. *)
Lemma cut_before_second x s :
  free_of x s = false ->
  (if negb (indexOf_at s x (indexOf s x + 1) =? -1)%Z
   then slice0 s (indexOf_at s x (indexOf s x + 1))
   else s)
  = upto x s ++ x :: upto x (after x s).
Proof.
  intros H. unfold indexOf, indexOf_at. rewrite (indexOf_from_cases 0 x s), H.
  pose proof (upto_length_lt x s H) as L.
  rewrite Z.max_l, Z.min_l by lia.
  replace (Z.to_nat (0 + Z.of_nat (List.length (upto x s)) + 1))
    with (S (List.length (upto x s))) by lia.
  rewrite skipn_after by exact H. rewrite indexOf_from_cases.
  destruct (free_of x (after x s)) eqn:F.
  - cbn [Z.eqb negb]. rewrite (upto_free x (after x s) F). now apply upto_after.
  - match goal with |- context [(?z =? -1)%Z] =>
      replace (z =? -1)%Z with false by (symmetry; apply Z.eqb_neq; lia) end.
    cbn [negb]. rewrite slice0_nonneg by lia.
    rewrite (upto_after x s H) at 3. rewrite (upto_after x (after x s) F) at 2.
    replace (x :: upto x (after x s) ++ x :: after x (after x s))
      with ((x :: upto x (after x s)) ++ x :: after x (after x s)) by reflexivity.
    rewrite app_assoc. apply firstn_app_exact.
    rewrite length_app. cbn [List.length]. lia.
Qed.

(** What [inputValue] computes: the characters other than digits and
    points go, and of the rest what precedes a second point stays. *)
Lemma inputValue_spec value :
  inputValue value
  = let kept := filter (fun x => negb (not_digit_or_dot x)) value in
    if free_of (chr ".") kept then kept
    else upto (chr ".") kept ++ chr "." :: upto (chr ".") (after (chr ".") kept).
Proof.
  unfold inputValue. rewrite replace_erase.
  set (kept := filter (fun x => negb (not_digit_or_dot x)) value). cbn zeta.
  destruct (free_of (chr ".") kept) eqn:F.
  - unfold indexOf. rewrite indexOf_from_cases, F. reflexivity.
  - rewrite <- (cut_before_second (chr ".") kept F).
    unfold indexOf at 1. rewrite indexOf_from_cases, F.
    match goal with |- context [(?z =? -1)%Z] =>
      replace (z =? -1)%Z with false by (symmetry; apply Z.eqb_neq; lia) end.
    reflexivity.
Qed.

Lemma after_free x s : free_of x s = true -> after x s = [].
Proof.
  induction s as [|y s IH]; [reflexivity|]. rewrite free_of_cons.
  intros H. apply andb_true_iff in H as [Hy H]. apply negb_true_iff in Hy.
  cbn [after]. rewrite N.eqb_sym, Hy. now apply IH.
Qed.

Lemma zeros_repeat z : forallb is_zero z = true -> z = repeat (chr "0") (List.length z).
Proof.
  induction z as [|x z IH]; [reflexivity|]. cbn [forallb]. intros H.
  apply andb_true_iff in H as [Hx H]. unfold is_zero, only in Hx.
  apply N.eqb_eq in Hx. subst x. cbn [List.length repeat]. now rewrite <- IH.
Qed.

Lemma firstn_repeat (x : char) n k : firstn n (repeat x k) = repeat x (Nat.min n k).
Proof.
  revert k; induction n as [|n IH]; intros [|k]; cbn; try reflexivity.
  now rewrite IH.
Qed.

Lemma firstn_fill (l : jsstring) d :
  firstn d (l ++ repeat (chr "0") d)
  = firstn d l ++ repeat (chr "0") (d - List.length (firstn d l)).
Proof.
  rewrite firstn_app, length_firstn. f_equal.
  rewrite firstn_repeat. f_equal. lia.
Qed.

Lemma fill_zeros t z d :
  forallb is_zero z = true -> List.length (t ++ z) <= d ->
  (t ++ z) ++ repeat (chr "0") (d - List.length (t ++ z))
  = t ++ repeat (chr "0") (d - List.length t).
Proof.
  intros Hz L. rewrite <- app_assoc. f_equal.
  rewrite (zeros_repeat z Hz) at 1. rewrite <- repeat_app. f_equal.
  rewrite length_app in *. lia.
Qed.

Lemma filter_all {A} (f : A -> bool) l : forallb f l = true -> filter f l = l.
Proof.
  induction l as [|x l IH]; [reflexivity|]. cbn. intros H.
  apply andb_true_iff in H as [Hx H]. now rewrite Hx, IH.
Qed.

Lemma forallb_filter {A} (f : A -> bool) l : forallb f (filter f l) = true.
Proof.
  induction l as [|x l IH]; [reflexivity|]. cbn. destruct (f x) eqn:E; [|exact IH].
  cbn. now rewrite E, IH.
Qed.

(** A text made of digits with at most one point is left as it is. *)
Lemma inputValue_clean v :
  forallb (fun x => negb (not_digit_or_dot x)) v = true ->
  free_of (chr ".") v = true
  \/ (exists a b, v = a ++ chr "." :: b
                  /\ free_of (chr ".") a = true /\ free_of (chr ".") b = true) ->
  inputValue v = v.
Proof.
  intros Hv H. rewrite inputValue_spec. cbn zeta. rewrite (filter_all _ _ Hv).
  destruct H as [F|(a & b & -> & Ha & Hb)].
  - now rewrite F.
  - rewrite free_of_with, upto_app, after_app by exact Ha.
    now rewrite (upto_free _ _ Hb).
Qed.

(** What is cut off starts with a point. *)
Lemma inputValue_prefix value :
  exists rest,
    filter (fun x => negb (not_digit_or_dot x)) value = inputValue value ++ rest
    /\ (rest = [] \/ exists r, rest = chr "." :: r).
Proof.
  rewrite inputValue_spec. cbn zeta.
  set (kept := filter (fun x => negb (not_digit_or_dot x)) value).
  destruct (free_of (chr ".") kept) eqn:F.
  - exists []. split; [now rewrite app_nil_r|now left].
  - destruct (free_of (chr ".") (after (chr ".") kept)) eqn:G.
    + exists []. split; [|now left]. rewrite app_nil_r.
      rewrite (upto_free _ _ G). now apply upto_after.
    + exists (chr "." :: after (chr ".") (after (chr ".") kept)). split; [|right; eauto].
      rewrite (upto_after _ kept F) at 1.
      rewrite (upto_after _ (after (chr ".") kept) G) at 1.
      rewrite <- app_assoc. reflexivity.
Qed.

End ConverterFacts.


(** X10.  [formatFixedNumber] on a text with a point keeps what precedes the
    first point, cuts the fraction (what lies between the first point
    and a second one, or the end) with [slice(0, decimals)], removes
    the zeros at the end of what is left, and drops the point when no
    fraction remains.  A text without point is returned as it is. *)
Theorem formatFixedNumber_trims_fraction :
  forall (integerPart fractionPart rest : jsstring) (decimals : number),
    free_of (chr ".") integerPart = true ->
    free_of (chr ".") fractionPart = true ->
    rest = [] \/ (exists r, rest = chr "." :: r) ->
    exists digits zeros,
      slice_number fractionPart decimals = digits ++ zeros
      /\ forallb is_zero zeros = true
      /\ (forall pre x, digits = pre ++ [x] -> x <> chr "0")
      /\ formatFixedNumber (integerPart ++ js "." ++ fractionPart ++ rest) decimals
         = match digits with
           | [] => integerPart
           | _ :: _ => integerPart ++ js "." ++ digits
           end
      /\ (forall z, decimals = Int z -> (0 <= z)%Z ->
          slice_number fractionPart decimals = firstn (Z.to_nat z) fractionPart)
      /\ formatFixedNumber integerPart decimals = integerPart.
Proof.
  intros ip fp rest d Hip Hfp Hrest.
  destruct (ConverterFacts.strip_zeros_split (slice_number fp d)) as (zeros & Hs & Hz).
  exists (strip_zeros (slice_number fp d)), zeros.
  split; [exact Hs|]. split; [exact Hz|]. split.
  { intros pre x. apply ConverterFacts.strip_zeros_last. }
  split; [|split].
  - change (js ".") with [chr "."]. cbn [app].
    rewrite ConverterFacts.formatFixedNumber_point
      by apply ConverterFacts.free_of_with.
    rewrite ConverterFacts.upto_app, ConverterFacts.after_app by exact Hip.
    assert (E : upto (chr ".") (fp ++ rest) = fp).
    { destruct Hrest as [->|[r ->]].
      - rewrite app_nil_r. now apply ConverterFacts.upto_free.
      - now apply ConverterFacts.upto_app. }
    rewrite E. now destruct (strip_zeros _).
  - intros z -> Hz0. cbn [slice_number]. now apply ConverterFacts.slice0_nonneg.
  - now apply ConverterFacts.formatFixedNumber_plain.
Qed.

Lemma formatFixedNumber_trims_fraction_witness :
  exists digits zeros,
    slice_number (js "500") (Int 9) = digits ++ zeros
    /\ forallb is_zero zeros = true
    /\ (forall pre x, digits = pre ++ [x] -> x <> chr "0")
    /\ formatFixedNumber (js "1.500") (Int 9)
       = match digits with
         | [] => js "1"
         | _ :: _ => js "1" ++ js "." ++ digits
         end
    /\ (forall z, Int 9 = Int z -> (0 <= z)%Z ->
        slice_number (js "500") (Int 9) = firstn (Z.to_nat z) (js "500"))
    /\ formatFixedNumber (js "1") (Int 9) = js "1".
Proof.
  exact (@formatFixedNumber_trims_fraction (js "1") (js "500") [] (Int 9)
           eq_refl eq_refl (or_introl eq_refl)).
Defined.



(** X12.  Formatting does not change the amount: read with [d] fractional
    digits, the result of [formatFixedNumber] with [d] decimals has the
    digits of its argument, and so denotes the same integer number of
    units of 10^-d. *)
Theorem formatFixedNumber_keeps_amount :
  forall (numStr : jsstring) (d : nat),
    digits_at d (formatFixedNumber numStr (Int (Z.of_nat d))) = digits_at d numStr
    /\ scaled d (formatFixedNumber numStr (Int (Z.of_nat d))) = scaled d numStr.
Proof.
  intros s d.
  assert (H : digits_at d (formatFixedNumber s (Int (Z.of_nat d))) = digits_at d s).
  { destruct (free_of (chr ".") s) eqn:F.
    - now rewrite (ConverterFacts.formatFixedNumber_plain s _ F).
    - rewrite (ConverterFacts.formatFixedNumber_point s _ F). cbn [slice_number].
      rewrite ConverterFacts.slice0_nonneg by lia. rewrite Nat2Z.id.
      unfold digits_at at 2.
      set (ip := upto (chr ".") s). set (fp := upto (chr ".") (after (chr ".") s)).
      assert (Hip : free_of (chr ".") ip = true) by apply ConverterFacts.free_of_upto.
      destruct (ConverterFacts.strip_zeros_split (firstn d fp)) as (zeros & Hs & Hz).
      assert (Hfp : free_of (chr ".") (strip_zeros (firstn d fp)) = true).
      { apply ConverterFacts.strip_zeros_free.
        pose proof (ConverterFacts.free_of_upto (chr ".") (after (chr ".") s)) as Hfp.
        fold fp in Hfp. rewrite <- (firstn_skipn d fp), UrlFacts.free_of_app in Hfp.
        now apply andb_true_iff in Hfp. }
      remember (strip_zeros (firstn d fp)) as t0 eqn:E0.
      assert (L : List.length (t0 ++ zeros) <= d).
      { rewrite <- Hs, length_firstn. lia. }
      rewrite (ConverterFacts.firstn_fill fp d), Hs.
      rewrite (ConverterFacts.fill_zeros _ _ d Hz L).
      destruct t0 as [|x t].
      + unfold digits_at. rewrite (ConverterFacts.upto_free _ _ Hip).
        rewrite (ConverterFacts.after_free _ _ Hip). cbn [upto app List.length].
        rewrite ConverterFacts.firstn_repeat. do 2 f_equal. lia.
      + unfold digits_at. change (js ".") with [chr "."]. cbn [app].
        rewrite ConverterFacts.upto_app, ConverterFacts.after_app by exact Hip.
        rewrite (ConverterFacts.upto_free _ _ Hfp).
        rewrite (ConverterFacts.firstn_fill (x :: t) d).
        assert (Lt : List.length (x :: t) <= d).
        { rewrite length_app in L. lia. }
        rewrite (@firstn_all2 _ d (x :: t) Lt). reflexivity. }
  split; [exact H|]. unfold scaled. now rewrite H.
Qed.


(** X14.  A text made of digits with at most one point is kept as it is, and
    so cleaning a second time changes nothing. *)
Theorem inputValue_idempotent :
  forall value : jsstring,
    inputValue (inputValue value) = inputValue value
    /\ (forallb (fun x => negb (not_digit_or_dot x)) value = true ->
        free_of (chr ".") value = true
        \/ (exists a b, value = a ++ chr "." :: b
                        /\ free_of (chr ".") a = true /\ free_of (chr ".") b = true) ->
        inputValue value = value).
Proof.
  intros value. split; [|apply ConverterFacts.inputValue_clean].
  destruct (ConverterFacts.inputValue_prefix value) as (rest & E & _).
  apply ConverterFacts.inputValue_clean.
  - pose proof (ConverterFacts.forallb_filter (fun x => negb (not_digit_or_dot x)) value) as H.
    rewrite E, forallb_app in H. now apply andb_true_iff in H.
  - rewrite ConverterFacts.inputValue_spec. cbn zeta.
    set (kept := filter (fun x => negb (not_digit_or_dot x)) value).
    destruct (free_of (chr ".") kept) eqn:F; [now left|].
    right. exists (upto (chr ".") kept), (upto (chr ".") (after (chr ".") kept)).
    split; [reflexivity|]. split; apply ConverterFacts.free_of_upto.
Qed.
